(** * CPU scheduling simulator (Project1/main.go)

    A shallow embedding of the four schedulers of [Project1/main.go]
    ([FCFSSchedule], [SJFSchedule], [SJFPrioritySchedule], [RRSchedule])
    and the properties of the timelines and tables they produce.

    Conventions of the embedding.
    - Go's [int64] is [Z] with the two's-complement wrap-around written out
      ([wrap64]); [float64] is the IEEE-754 binary64 model of the standard
      library ([spec_float] at precision 53, [emax] 1024).
    - A run-time panic (index out of range) is the outcome [Panic]; a loop
      that is cut off by the iteration budget of the model is [OutOfFuel].
    - The rows of the schedule table are kept as the seven integers that the
      source renders with [fmt.Sprint]; a row that was never assigned is [None]
      (the nil row of [make([][]string, n)]).
    - The three output helpers receive the Gantt slice, the rows and the three
      averages; [Output] is that tuple. *)

From Stdlib Require Import ZArith Lia.
From Stdlib Require Import Floats.SpecFloat.
From stdpp Require Import gmap list.

Local Open Scope Z_scope.

(* ===================================================================== *)
(** ** Machine integers and floats *)
(* ===================================================================== *)

Definition two63 : Z := 9223372036854775808.
Definition two64 : Z := 18446744073709551616.

(** The value of an [int64] expression whose mathematical result is [z]. *)
Definition wrap64 (z : Z) : Z := (z + two63) `mod` two64 - two63.

Definition add64 (a b : Z) : Z := wrap64 (a + b).
Definition sub64 (a b : Z) : Z := wrap64 (a - b).

(** [-2^63 <= z < 2^63]: [z] is the value of some [int64]. *)
Definition int64 (z : Z) : Prop := - two63 <= z < two63.

(** [func min(a, b int64) int64] *)
Definition min (a b : Z) : Z := if a <? b then a else b.

(** [float64(z)] for an integer [z], rounding to nearest even: the standard
    library's specification of the conversion ([of_uint63_spec]). *)
Definition f64_of_int (z : Z) : spec_float := binary_normalize 53 1024 z 0 false.
Definition f64_add : spec_float -> spec_float -> spec_float := SFadd 53 1024.
Definition f64_div : spec_float -> spec_float -> spec_float := SFdiv 53 1024.
(** The zero value of a [float64] variable. *)
Definition f64_zero : spec_float := S754_zero false.
(** [0 <= x] on floats; false when [x] is NaN. *)
Definition f64_nonneg (x : spec_float) : bool := SFleb f64_zero x.
Definition f64_is_nan (x : spec_float) : bool :=
  match x with S754_nan => true | _ => false end.

(* ===================================================================== *)
(** ** Outcomes of a run *)
(* ===================================================================== *)

Inductive exec (A : Type) : Type :=
  | Ret (a : A)
  | Panic
  | OutOfFuel.
Arguments Ret {A} a.
Arguments Panic {A}.
Arguments OutOfFuel {A}.

Global Instance exec_ret : MRet exec := fun A a => Ret a.
Global Instance exec_bind : MBind exec := fun A B f m =>
  match m with
  | Ret a => f a
  | Panic => Panic
  | OutOfFuel => OutOfFuel
  end.

(** How one pass through a loop body ends. *)
Inductive flow (St : Type) : Type :=
  | Continue (s : St)
  | Break (s : St).
Arguments Continue {St} s.
Arguments Break {St} s.

(** [for i := range xs { body }] with [n = len(xs)] evaluated once, started
    at index [i]. *)
Fixpoint for_range {St : Type} (body : nat -> St -> exec St) (i n : nat)
    (s : St) : exec St :=
  match n with
  | O => Ret s
  | S n' => s' ← body i s; for_range body (S i) n' s'
  end.

(** The same loop when the body may [break]. *)
Fixpoint for_range_brk {St : Type} (body : nat -> St -> exec (flow St))
    (i n : nat) (s : St) : exec St :=
  match n with
  | O => Ret s
  | S n' =>
      r ← body i s;
      match r with
      | Continue s' => for_range_brk body (S i) n' s'
      | Break s' => Ret s'
      end
  end.

(* ===================================================================== *)
(** ** Data model *)
(* ===================================================================== *)

Record Process : Type := mkProcess {
  ProcessID : Z;
  ArrivalTime : Z;
  BurstDuration : Z;
  Priority : Z
}.

Record TimeSlice : Type := mkTimeSlice {
  PID : Z;
  Start : Z;
  Stop : Z
}.

(** One row of the schedule table, in the column order of the header
    ["ID", "Priority", "Burst", "Arrival", "Wait", "Turnaround", "Exit"]. *)
Record Row : Type := mkRow {
  rowID : Z;
  rowPriority : Z;
  rowBurst : Z;
  rowArrival : Z;
  rowWait : Z;
  rowTurnaround : Z;
  rowExit : Z
}.

(** The local variables of a scheduler. [FCFSSchedule] declares neither
    [remainingBurst] nor [copyProcesses]; they stay empty there. *)
Record Locals : Type := mkLocals {
  serviceTime : Z;
  totalWait : spec_float;
  totalTurnaround : spec_float;
  lastCompletion : spec_float;
  waitingTime : Z;
  schedule : list (option Row);
  gantt : list TimeSlice;
  remainingBurst : gmap Z Z;
  copyProcesses : list Process
}.

(** What a scheduler hands to [outputGantt] and [outputSchedule]. *)
Record Output : Type := mkOutput {
  out_gantt : list TimeSlice;
  out_schedule : list (option Row);
  aveWait : spec_float;
  aveTurnaround : spec_float;
  aveThroughput : spec_float
}.

(** [m[k]] on a Go map: the zero value when the key is absent. *)
Definition map_get (m : gmap Z Z) (k : Z) : Z := default 0 (m !! k).

(** [schedule[k] = row]; [k] is an [int], a negative or too large index
    panics. *)
Definition store_row (sched : list (option Row)) (k : Z) (r : Row)
  : exec (list (option Row)) :=
  if decide (0 <= k < Z.of_nat (length sched))
  then Ret (<[Z.to_nat k := Some r]> sched)
  else Panic.

(** [append(xs[:i], xs[i+1:]...)] as a value. *)
Definition remove_at (i : nat) (xs : list Process) : list Process :=
  take i xs ++ drop (S i) xs.

(** The state after the [var ( ... )] block, [n = len(processes)]. *)
Definition init_locals (n : nat) : Locals :=
  {| serviceTime := 0; totalWait := f64_zero; totalTurnaround := f64_zero;
     lastCompletion := f64_zero; waitingTime := 0;
     schedule := replicate n None; gantt := [];
     remainingBurst := ∅; copyProcesses := [] |}.

(** [copyProcesses := make(...); copy(copyProcesses, processes)] followed by
    the loop that fills [remainingBurst]. *)
Definition init_remaining (cp : list Process) : gmap Z Z :=
  fold_left (fun m p => <[ProcessID p := BurstDuration p]> m) cp ∅.

Definition init_copy (processes : list Process) : Locals :=
  let st := init_locals (length processes) in
  {| serviceTime := serviceTime st; totalWait := totalWait st;
     totalTurnaround := totalTurnaround st;
     lastCompletion := lastCompletion st; waitingTime := waitingTime st;
     schedule := schedule st; gantt := gantt st;
     remainingBurst := init_remaining processes;
     copyProcesses := processes |}.

(** The four lines after the loops: the averages and the throughput. *)
Definition report (n : nat) (st : Locals) : Output :=
  let count := f64_of_int (Z.of_nat n) in
  {| out_gantt := gantt st;
     out_schedule := schedule st;
     aveWait := f64_div (totalWait st) count;
     aveTurnaround := f64_div (totalTurnaround st) count;
     aveThroughput := f64_div count (lastCompletion st) |}.

(* ===================================================================== *)
(** ** First-come, first-serve *)
(* ===================================================================== *)

(** The body of [for i := range processes] in [FCFSSchedule], once
    [processes[i]] has been read as [p]. *)
Definition fcfs_step (i : nat) (p : Process) (st : Locals) : exec Locals :=
  let waitingTime' :=
    if 0 <? ArrivalTime p
    then sub64 (serviceTime st) (ArrivalTime p)
    else waitingTime st in
  let totalWait' := f64_add (totalWait st) (f64_of_int waitingTime') in
  let start := add64 waitingTime' (ArrivalTime p) in
  let turnaround := add64 (BurstDuration p) waitingTime' in
  let totalTurnaround' :=
    f64_add (totalTurnaround st) (f64_of_int turnaround) in
  let completion :=
    add64 (add64 (BurstDuration p) (ArrivalTime p)) waitingTime' in
  let lastCompletion' := f64_of_int completion in
  sched ← store_row (schedule st) (Z.of_nat i)
            {| rowID := ProcessID p; rowPriority := Priority p;
               rowBurst := BurstDuration p; rowArrival := ArrivalTime p;
               rowWait := waitingTime'; rowTurnaround := turnaround;
               rowExit := completion |};
  let serviceTime' := add64 (serviceTime st) (BurstDuration p) in
  Ret {| serviceTime := serviceTime'; totalWait := totalWait';
         totalTurnaround := totalTurnaround';
         lastCompletion := lastCompletion';
         waitingTime := waitingTime'; schedule := sched;
         gantt := gantt st ++
           [{| PID := ProcessID p; Start := start; Stop := serviceTime' |}];
         remainingBurst := remainingBurst st;
         copyProcesses := copyProcesses st |}.

(** The body of [for i := range processes] in [FCFSSchedule]. *)
Definition fcfs_body (processes : list Process) (i : nat) (st : Locals)
  : exec Locals :=
  match processes !! i with
  | None => Panic
  | Some p => fcfs_step i p st
  end.

Definition fcfs_loop (processes : list Process) : exec Locals :=
  for_range (fcfs_body processes) 0 (length processes)
    (init_locals (length processes)).

Definition FCFSSchedule (processes : list Process) : exec Output :=
  st ← fcfs_loop processes; Ret (report (length processes) st).

(* ===================================================================== *)
(** ** Shortest job first and priority scheduling *)
(* ===================================================================== *)

(** [SJFSchedule] and [SJFPrioritySchedule] are the same text up to the
    comparison in the selection scan; [better rem p q] is that comparison
    for the scanned process [p] and the current candidate [q]. *)
Definition sjf_better (rem : gmap Z Z) (p q : Process) : bool :=
  map_get rem (ProcessID p) <? map_get rem (ProcessID q).

Definition priority_better (rem : gmap Z Z) (p q : Process) : bool :=
  Priority p <? Priority q.

(** The body of the selection scan [for i := range copyProcesses]. *)
Definition select_body (better : Process -> Process -> bool)
    (cp : list Process) (now : Z) (i : nat) (idx : nat) : exec nat :=
  match cp !! i with
  | None => Panic
  | Some p =>
      if ArrivalTime p <=? now then
        match cp !! idx with
        | None => Panic
        | Some q => Ret (if better p q then i else idx)
        end
      else Ret idx
  end.

(** [shortestJobIndex] (resp. [highestPriorityIndex]) after the scan. *)
Definition select_index (better : Process -> Process -> bool)
    (cp : list Process) (now : Z) : exec nat :=
  for_range (select_body better cp now) 0 (length cp) 0%nat.

(** An iteration of [for len(copyProcesses) > 0] after the scan, once
    [copyProcesses[idx]] has been read as [job]; [n = len(processes)]. *)
Definition select_serve (n : nat) (st : Locals) (idx : nat) (job : Process)
  : exec Locals :=
  let cp := copyProcesses st in
  let rem' := delete (ProcessID job) (remainingBurst st) in
  let waitingTime' :=
    if serviceTime st <? ArrivalTime job
    then sub64 (ArrivalTime job) (serviceTime st)
    else waitingTime st in
  let totalWait' := f64_add (totalWait st) (f64_of_int waitingTime') in
  let start := add64 (serviceTime st) waitingTime' in
  let turnaround := add64 waitingTime' (BurstDuration job) in
  let totalTurnaround' :=
    f64_add (totalTurnaround st) (f64_of_int turnaround) in
  let completion :=
    add64 (add64 (serviceTime st) waitingTime') (BurstDuration job) in
  let lastCompletion' := f64_of_int completion in
  sched ← store_row (schedule st)
            (Z.of_nat n - Z.of_nat (length cp))
            {| rowID := ProcessID job; rowPriority := Priority job;
               rowBurst := BurstDuration job;
               rowArrival := ArrivalTime job;
               rowWait := waitingTime'; rowTurnaround := turnaround;
               rowExit := completion |};
  let serviceTime' := add64 (serviceTime st) turnaround in
  Ret {| serviceTime := serviceTime'; totalWait := totalWait';
         totalTurnaround := totalTurnaround';
         lastCompletion := lastCompletion';
         waitingTime := waitingTime'; schedule := sched;
         gantt := gantt st ++
           [{| PID := ProcessID job; Start := start;
               Stop := add64 start turnaround |}];
         remainingBurst := rem';
         copyProcesses := remove_at idx cp |}.

(** One iteration of [for len(copyProcesses) > 0]. *)
Definition select_run_body (better : gmap Z Z -> Process -> Process -> bool)
    (n : nat) (st : Locals) : exec Locals :=
  let cp := copyProcesses st in
  idx ← select_index (better (remainingBurst st)) cp (serviceTime st);
  match cp !! idx with
  | None => Panic
  | Some job => select_serve n st idx job
  end.

(** [for len(copyProcesses) > 0 { body }], cut off after [fuel] iterations. *)
Fixpoint while_pending (body : Locals -> exec Locals) (fuel : nat)
    (st : Locals) : exec Locals :=
  match copyProcesses st with
  | [] => Ret st
  | _ :: _ =>
      match fuel with
      | O => OutOfFuel
      | S fuel' => st' ← body st; while_pending body fuel' st'
      end
  end.

(** Every iteration removes one process, so [len(processes)] iterations
    exhaust the working list: the budget below is never hit. *)
Definition select_run (better : gmap Z Z -> Process -> Process -> bool)
    (processes : list Process) : exec Output :=
  st ← while_pending (select_run_body better (length processes))
         (length processes) (init_copy processes);
  Ret (report (length processes) st).

Definition SJFSchedule (processes : list Process) : exec Output :=
  select_run sjf_better processes.

Definition SJFPrioritySchedule (processes : list Process) : exec Output :=
  select_run priority_better processes.

(* ===================================================================== *)
(** ** Round-robin *)
(* ===================================================================== *)

(** The statements of the body of [for i := range copyProcesses] in
    [RRSchedule], for the process [p] read at index [i] from the state [st].

    [burstTime := min(remainingBurst[p.ProcessID], 1)] *)
Definition rr_burstTime (st : Locals) (p : Process) : Z :=
  min (map_get (remainingBurst st) (ProcessID p)) 1.

(** [remainingBurst[p.ProcessID] -= burstTime] *)
Definition rr_remainingBurst (st : Locals) (p : Process) : gmap Z Z :=
  <[ProcessID p :=
      sub64 (map_get (remainingBurst st) (ProcessID p)) (rr_burstTime st p)]>
    (remainingBurst st).

(** [remainingBurst[p.ProcessID] == 0], read after the decrement. *)
Definition rr_finished (st : Locals) (p : Process) : bool :=
  map_get (rr_remainingBurst st p) (ProcessID p) =? 0.

(** The two assignments to [waitingTime]. *)
Definition rr_waitingTime (st : Locals) (p : Process) : Z :=
  if rr_finished st p
  then sub64 (sub64 (add64 (serviceTime st) 1) (ArrivalTime p))
         (rr_burstTime st p)
  else sub64 (serviceTime st) (ArrivalTime p).

(** [start], [turnaround] and [completion]. *)
Definition rr_start (st : Locals) (p : Process) : Z :=
  add64 (serviceTime st) (rr_waitingTime st p).

Definition rr_turnaround (st : Locals) (p : Process) : Z :=
  add64 (rr_waitingTime st p) (rr_burstTime st p).

Definition rr_completion (st : Locals) : Z := add64 (serviceTime st) 1.

(** The row assigned to [schedule[len(processes)-len(copyProcesses)]]. *)
Definition rr_row (st : Locals) (p : Process) : Row :=
  {| rowID := ProcessID p; rowPriority := Priority p;
     rowBurst := BurstDuration p; rowArrival := ArrivalTime p;
     rowWait := rr_waitingTime st p; rowTurnaround := rr_turnaround st p;
     rowExit := rr_completion st |}.

(** The entry appended to [gantt]. *)
Definition rr_timeslice (st : Locals) (p : Process) : TimeSlice :=
  {| PID := ProcessID p; Start := rr_start st p;
     Stop := add64 (rr_start st p) (rr_turnaround st p) |}.

(** The locals after the slice, [sched] being the table after the
    assignment of the row; the pending list loses index [i] when the process
    is finished. *)
Definition rr_locals (st : Locals) (i : nat) (p : Process)
    (sched : list (option Row)) : Locals :=
  {| serviceTime := rr_completion st;
     totalWait := f64_add (totalWait st) (f64_of_int (rr_waitingTime st p));
     totalTurnaround :=
       f64_add (totalTurnaround st) (f64_of_int (rr_turnaround st p));
     lastCompletion := f64_of_int (rr_completion st);
     waitingTime := rr_waitingTime st p;
     schedule := sched;
     gantt := gantt st ++ [rr_timeslice st p];
     remainingBurst := rr_remainingBurst st p;
     copyProcesses :=
       if rr_finished st p then remove_at i (copyProcesses st)
       else copyProcesses st |}.

(** The body of [for i := range copyProcesses] in [RRSchedule], once
    [copyProcesses[i]] has been read as [p]; it breaks out of the scan when
    the process is finished. *)
Definition rr_step (n : nat) (i : nat) (p : Process) (st : Locals)
  : exec (flow Locals) :=
  if ArrivalTime p <=? serviceTime st then
    sched ← store_row (schedule st)
              (Z.of_nat n - Z.of_nat (length (copyProcesses st)))
              (rr_row st p);
    Ret (if rr_finished st p
         then Break (rr_locals st i p sched)
         else Continue (rr_locals st i p sched))
  else Ret (Continue st).

(** The body of [for i := range copyProcesses] in [RRSchedule]. *)
Definition rr_body (n : nat) (i : nat) (st : Locals) : exec (flow Locals) :=
  match copyProcesses st !! i with
  | None => Panic
  | Some p => rr_step n i p st
  end.

(** One iteration of the outer loop: a scan of the pending list. *)
Definition rr_pass (n : nat) (st : Locals) : exec Locals :=
  for_range_brk (rr_body n) 0 (length (copyProcesses st)) st.

(** [RRSchedule], the outer loop cut off after [fuel] passes. *)
Definition RRSchedule (fuel : nat) (processes : list Process) : exec Output :=
  st ← while_pending (rr_pass (length processes)) fuel (init_copy processes);
  Ret (report (length processes) st).

(* ===================================================================== *)
(** ** The runs of the specification's scenario *)
(* ===================================================================== *)

Definition P (id burst arrival : Z) : Process :=
  {| ProcessID := id; ArrivalTime := arrival; BurstDuration := burst;
     Priority := 0 |}.

Definition exits (o : exec Output) : exec (list (option Z)) :=
  match o with
  | Ret out => Ret (map (option_map rowExit) (out_schedule out))
  | Panic => Panic
  | OutOfFuel => OutOfFuel
  end.


(* ===================================================================== *)
(** ** Notions used in the statements *)
(* ===================================================================== *)


(** The process at index [j] of [cp] has arrived at time [now]. *)
Definition arrived (cp : list Process) (now : Z) (j : nat) : Prop :=
  exists p, cp !! j = Some p /\ ArrivalTime p <= now.

(** What the selection scan compares: index 0, the initial value of the
    selected index, whether or not it has arrived, and every index that has
    arrived. *)
Definition candidate (cp : list Process) (now : Z) (j : nat) : Prop :=
  j = 0%nat \/ arrived cp now j.

(** [idx] is the first index of [cp] among those in [cand] whose [key] is
    least. *)
Definition first_least (key : Process -> Z) (cand : nat -> Prop)
    (cp : list Process) (idx : nat) : Prop :=
  exists q, cp !! idx = Some q /\ cand idx /\
    forall j p, cp !! j = Some p -> cand j ->
      key q <= key p /\ ((j < idx)%nat -> key q < key p).




(** The rows of a table that were assigned, in table order. *)
Definition rows (sched : list (option Row)) : list Row := omap id sched.

(** [Stop - Start] of a timeline entry, as an [int64] expression. *)
Definition width (ts : TimeSlice) : Z := sub64 (Stop ts) (Start ts).

Definition sumZ (l : list Z) : Z := foldr Z.add 0 l.

(** A sum accumulated in an [int64] variable. *)
Definition sum64 (l : list Z) : Z := fold_left add64 l 0.

(** A sum accumulated in a [float64] variable from [int64] summands, as
    [totalWait += float64(waitingTime)] does. *)
Definition f64_sum (l : list Z) : spec_float :=
  fold_left (fun acc z => f64_add acc (f64_of_int z)) l f64_zero.

(** [lastCompletion] once the rows [rs] have been recorded. *)
Definition last_completion (rs : list Row) : spec_float :=
  match last rs with
  | Some r => f64_of_int (rowExit r)
  | None => f64_zero
  end.

(** *** The history of a run of the selecting schedulers

    What [SJFSchedule] and [SJFPrioritySchedule] have recorded is a function
    of the order in which they served the processes. *)
Record Served : Type := mkServed {
  sv_time : Z;                 (* serviceTime *)
  sv_wait : Z;                 (* waitingTime *)
  sv_rows : list Row;
  sv_slices : list TimeSlice
}.

Definition served_none : Served :=
  {| sv_time := 0; sv_wait := 0; sv_rows := []; sv_slices := [] |}.

Definition serve (acc : Served) (job : Process) : Served :=
  let t := sv_time acc in
  let w := if t <? ArrivalTime job then sub64 (ArrivalTime job) t
           else sv_wait acc in
  let turnaround := add64 w (BurstDuration job) in
  {| sv_time := add64 t turnaround;
     sv_wait := w;
     sv_rows := sv_rows acc ++
       [{| rowID := ProcessID job; rowPriority := Priority job;
           rowBurst := BurstDuration job; rowArrival := ArrivalTime job;
           rowWait := w; rowTurnaround := turnaround;
           rowExit := add64 (add64 t w) (BurstDuration job) |}];
     sv_slices := sv_slices acc ++
       [{| PID := ProcessID job; Start := add64 t w;
           Stop := add64 (add64 t w) turnaround |}] |}.

Definition served (jobs : list Process) : Served :=
  fold_left serve jobs served_none.

(** The locals at the head of the outer loop once [jobs] have been served
    in this order, with [cp] pending and the map [rem]. *)
Definition select_state (n : nat) (jobs cp : list Process) (rem : gmap Z Z)
  : Locals :=
  let sv := served jobs in
  {| serviceTime := sv_time sv;
     totalWait := f64_sum (map rowWait (sv_rows sv));
     totalTurnaround := f64_sum (map rowTurnaround (sv_rows sv));
     lastCompletion := last_completion (sv_rows sv);
     waitingTime := sv_wait sv;
     schedule := (Some <$> sv_rows sv) ++ replicate (n - length jobs) None;
     gantt := sv_slices sv;
     remainingBurst := rem;
     copyProcesses := cp |}.

Arguments wrap64 : simpl never.
Arguments add64 : simpl never.
Arguments sub64 : simpl never.
Arguments f64_of_int : simpl never.
Arguments f64_add : simpl never.
Arguments f64_div : simpl never.

(** The histories of a run on [processes]: [jobs] were served, [cp] are
    pending, and [rem] is the initial map from which the keys of the served
    jobs were deleted. *)
Definition select_history (processes jobs cp : list Process) (rem : gmap Z Z)
  : Prop :=
  (length jobs + length cp = length processes)%nat
  /\ jobs ++ cp ≡ₚ processes
  /\ rem = fold_left (fun m job => delete (ProcessID job) m) jobs
             (init_remaining processes).

Definition select_reachable (processes : list Process) (st : Locals) : Prop :=
  exists jobs cp rem,
    st = select_state (length processes) jobs cp rem
    /\ select_history processes jobs cp rem.




(** The selection scan up to index [k]: the selected index is 0 or an
    arrived index below [k], and it is the first of least key among the
    candidates below [k]. *)
Definition scan_inv (key : Process -> Z) (cp : list Process) (now : Z)
    (k idx : nat) : Prop :=
  exists q, cp !! idx = Some q
    /\ (idx = 0%nat \/ ((idx < k)%nat /\ ArrivalTime q <= now))
    /\ forall j p, (j < k)%nat -> cp !! j = Some p -> candidate cp now j ->
         key q <= key p /\ ((j < idx)%nat -> key q < key p).

(** *** The history of a run of FCFS

    What [FCFSSchedule] has recorded after the processes [done]. *)
Definition fcfs_serve (acc : Served) (p : Process) : Served :=
  let t := sv_time acc in
  let w := if 0 <? ArrivalTime p then sub64 t (ArrivalTime p)
           else sv_wait acc in
  let turnaround := add64 (BurstDuration p) w in
  let t' := add64 t (BurstDuration p) in
  {| sv_time := t';
     sv_wait := w;
     sv_rows := sv_rows acc ++
       [{| rowID := ProcessID p; rowPriority := Priority p;
           rowBurst := BurstDuration p; rowArrival := ArrivalTime p;
           rowWait := w; rowTurnaround := turnaround;
           rowExit := add64 (add64 (BurstDuration p) (ArrivalTime p)) w |}];
     sv_slices := sv_slices acc ++
       [{| PID := ProcessID p; Start := add64 w (ArrivalTime p);
           Stop := t' |}] |}.

Definition fcfs_served (done : list Process) : Served :=
  fold_left fcfs_serve done served_none.

Definition fcfs_state (n : nat) (done : list Process) : Locals :=
  let sv := fcfs_served done in
  {| serviceTime := sv_time sv;
     totalWait := f64_sum (map rowWait (sv_rows sv));
     totalTurnaround := f64_sum (map rowTurnaround (sv_rows sv));
     lastCompletion := last_completion (sv_rows sv);
     waitingTime := sv_wait sv;
     schedule := (Some <$> sv_rows sv) ++ replicate (n - length done) None;
     gantt := sv_slices sv;
     remainingBurst := ∅;
     copyProcesses := [] |}.

(** [serviceTime] when FCFS reaches the process at index [i]: the bursts of
    the earlier processes, summed in the [int64] variable. *)
Definition service_before (processes : list Process) (i : nat) : Z :=
  sum64 (map BurstDuration (take i processes)).

(** The completion time in the row just before index [k] of the table, 0 for
    the first row: the value of [serviceTime] when the selecting schedulers
    compute row [k]. *)
Definition exit_before (sched : list (option Row)) (k : nat) : Z :=
  match k with
  | O => 0
  | S j => match sched !! j with
           | Some (Some r) => rowExit r
           | _ => 0
           end
  end.

(** The two equations of claim C5 on a row, with the time [t] from which the
    completion time is counted. *)
Definition row_times (t : Z) (row : Row) : Prop :=
  rowTurnaround row = add64 (rowWait row) (rowBurst row)
  /\ rowExit row = add64 (add64 t (rowWait row)) (rowBurst row).

(** The row copies the four input columns of the process. *)
Definition row_of_process (row : Row) (p : Process) : Prop :=
  rowID row = ProcessID p /\ rowPriority row = Priority p
  /\ rowBurst row = BurstDuration p /\ rowArrival row = ArrivalTime p.

(** *** Round-robin on valid processes *)

(** The units of burst that the pending processes still have in the map. *)
Definition pending_units (st : Locals) : Z :=
  sumZ (map (fun p => map_get (remainingBurst st) (ProcessID p))
          (copyProcesses st)).

(** Entry [k] of the timeline is a slice of a process [p] of the input that
    had arrived when [k] slices had run. *)
Definition rr_entry (processes : list Process) (k : nat) (ts : TimeSlice)
  : Prop :=
  exists p, p ∈ processes /\ PID ts = ProcessID p
    /\ ArrivalTime p <= wrap64 (Z.of_nat k)
    /\ Start ts = wrap64 (2 * Z.of_nat k - ArrivalTime p)
    /\ width ts = wrap64 (Z.of_nat k + 1 - ArrivalTime p).

(** What holds of the locals of [RRSchedule] throughout a run on
    [processes]. *)
Definition rr_inv (processes : list Process) (st : Locals) : Prop :=
  NoDup (ProcessID <$> copyProcesses st)
  /\ (forall p, p ∈ copyProcesses st ->
        p ∈ processes /\
        exists r, remainingBurst st !! ProcessID p = Some r
                  /\ 0 < r <= BurstDuration p)
  /\ Z.of_nat (length (gantt st)) + pending_units st
     = sumZ (map BurstDuration processes)
  /\ serviceTime st = wrap64 (Z.of_nat (length (gantt st)))
  /\ (forall k ts, gantt st !! k = Some ts -> rr_entry processes k ts)
  /\ exists ws, totalWait st = f64_sum ws
                /\ (Forall (fun p => 0 <= ArrivalTime p) processes ->
                    Forall (fun w => 0 <= w) ws).



(** The processes a run of Round-Robin is analysed for: distinct ids (the
    data model's assumption) and bursts that are positive [int64] values. *)
Definition rr_valid (processes : list Process) : Prop :=
  NoDup (ProcessID <$> processes)
  /\ Forall (fun p => 0 < BurstDuration p < two63) processes.

(** Every process is there at time 0, and the bursts add up to an [int64]
    value, so that the clock of the run does not wrap around. *)
Definition rr_all_arrived (processes : list Process) : Prop :=
  Forall (fun p => ArrivalTime p <= 0) processes
  /\ sumZ (map BurstDuration processes) < two63.

(** The invariant together with the sizes that keep the assignment to
    [schedule[len(processes)-len(copyProcesses)]] in range. *)
Definition rr_ready (processes : list Process) (st : Locals) : Prop :=
  rr_inv processes st
  /\ length (schedule st) = length processes
  /\ (length (copyProcesses st) <= length processes)%nat.

(** A float that is a zero, or positive and finite, or plus infinity. *)
Definition f64_sign_ok (x : spec_float) : Prop :=
  match x with
  | S754_zero _ => True
  | S754_infinity s | S754_finite s _ _ => s = false
  | S754_nan => False
  end.

(** No process of positive arrival arrives after the bursts of the
    processes before it: FCFS never finds the processor idle. *)
Definition fcfs_no_idle (processes : list Process) : Prop :=
  forall i p, processes !! i = Some p -> 0 < ArrivalTime p ->
    ArrivalTime p <= service_before processes i.

(** Arrivals in [0, A], bursts in (0, B], and [A + B] per process fits an
    [int64]: no time computed by the selecting schedulers overflows. *)
Definition bounded_input (A B : Z) (processes : list Process) : Prop :=
  Forall (fun p => 0 <= ArrivalTime p <= A /\ 0 < BurstDuration p <= B)
    processes
  /\ Z.of_nat (length processes) * (A + B) < two63.


(* ===================================================================== *)
(** ** Slices in memory

    A [[]Process] is a slice header over a backing array; the caller's slice
    and a scheduler's working copy are distinguished by the address of their
    arrays. The schedulers are stated once more over this memory: every read
    of [processes[i]] and [copyProcesses[i]] is a load, [make], [copy] and
    [append] write arrays. The field [copyProcesses] of the locals then holds
    the elements of the working slice. *)
(* ===================================================================== *)

Abbreviation memory := (gmap nat (list Process)).

Record Slice : Type := mkSlice {
  base : nat;    (* address of the backing array *)
  off : nat;     (* index of the slice's first element in the array *)
  len : nat;
  cap : nat
}.

(** The zero value of [Process]. *)
Definition zero_process : Process :=
  {| ProcessID := 0; ArrivalTime := 0; BurstDuration := 0; Priority := 0 |}.

(** The slice header points into an allocated array. *)
Definition slice_ok (m : memory) (s : Slice) : Prop :=
  exists arr, m !! base s = Some arr
    /\ (off s + cap s <= length arr)%nat /\ (len s <= cap s)%nat.

(** The elements of a slice, [s[0], ..., s[len(s)-1]]. *)
Definition elems (m : memory) (s : Slice) : list Process :=
  match m !! base s with
  | Some arr => take (len s) (drop (off s) arr)
  | None => []
  end.

(** [s[i]]; an index outside [0, len(s)) panics. *)
Definition load (m : memory) (s : Slice) (i : nat) : exec Process :=
  match m !! base s with
  | Some arr =>
      if decide (i < len s)%nat then
        match arr !! (off s + i)%nat with
        | Some p => Ret p
        | None => Panic
        end
      else Panic
  | None => Panic
  end.

(** [arr] with [vals] written from index [k] on. *)
Definition write_at (arr : list Process) (k : nat) (vals : list Process)
  : list Process :=
  take k arr ++ vals ++ drop (k + length vals) arr.

(** [make([]Process, n)]: a new array at an address not in use. *)
Definition make_slice (m : memory) (n : nat) : memory * Slice :=
  let a := fresh (dom m) in
  (<[a := replicate n zero_process]> m, mkSlice a 0 n n).

(** [copy(dst, src)]: writes [min(len(dst), len(src))] elements into the
    array of [dst]. *)
Definition copy_slice (m : memory) (dst src : Slice) : exec memory :=
  match m !! base dst with
  | Some arr =>
      Ret (<[base dst :=
               write_at arr (off dst)
                 (take (Nat.min (len dst) (len src)) (elems m src))]> m)
  | None => Panic
  end.

(** [append(s[:i], s[i+1:]...)]: [s[i+1:]] panics unless [i < len(s)]; the
    capacity of [s[:i]] is that of [s], so the elements after [i] are moved
    down inside the array of [s] and no new array is made. *)
Definition append_remove (m : memory) (s : Slice) (i : nat)
  : exec (memory * Slice) :=
  if decide (i < len s)%nat then
    match m !! base s with
    | Some arr =>
        Ret (<[base s :=
                 write_at arr (off s + i) (drop (S i) (elems m s))]> m,
             mkSlice (base s) (off s) (len s - 1) (cap s))
    | None => Panic
    end
  else Panic.

(** A scheduler at work: the memory, the header of its working copy, and
    its locals. *)
Record Machine : Type := mkMachine {
  mem : memory;
  copy : Slice;
  vars : Locals
}.

Definition FCFSSchedule_mem (m : memory) (processes : Slice)
  : exec (memory * Output) :=
  st ← for_range (fun i st => p ← load m processes i; fcfs_step i p st)
         0 (len processes) (init_locals (len processes));
  Ret (m, report (len processes) st).

(** [make], [copy], and the loop that fills [remainingBurst]. *)
Definition init_copy_mem (m : memory) (processes : Slice) : exec Machine :=
  let n := len processes in
  let st := init_locals n in
  let mc := make_slice m n in
  m' ← copy_slice (fst mc) (snd mc) processes;
  rem ← for_range
          (fun i rem => p ← load m' (snd mc) i;
                        Ret (<[ProcessID p := BurstDuration p]> rem))
          0 (len (snd mc)) (∅ : gmap Z Z);
  Ret {| mem := m'; copy := snd mc;
         vars := {| serviceTime := serviceTime st; totalWait := totalWait st;
                    totalTurnaround := totalTurnaround st;
                    lastCompletion := lastCompletion st;
                    waitingTime := waitingTime st;
                    schedule := schedule st; gantt := gantt st;
                    remainingBurst := rem;
                    copyProcesses := elems m' (snd mc) |} |}.

Definition select_index_mem (better : Process -> Process -> bool)
    (m : memory) (c : Slice) (now : Z) : exec nat :=
  for_range
    (fun i idx =>
       p ← load m c i;
       if ArrivalTime p <=? now then
         q ← load m c idx; Ret (if better p q then i else idx)
       else Ret idx)
    0 (len c) 0%nat.

Definition select_run_body_mem
    (better : gmap Z Z -> Process -> Process -> bool) (n : nat)
    (ms : Machine) : exec Machine :=
  let st := vars ms in
  idx ← select_index_mem (better (remainingBurst st)) (mem ms) (copy ms)
          (serviceTime st);
  job ← load (mem ms) (copy ms) idx;
  st' ← select_serve n st idx job;
  mc ← append_remove (mem ms) (copy ms) idx;
  Ret {| mem := fst mc; copy := snd mc; vars := st' |}.

(** [for len(copyProcesses) > 0 { body }] on the slice header. *)
Fixpoint while_pending_mem (body : Machine -> exec Machine) (fuel : nat)
    (ms : Machine) : exec Machine :=
  match len (copy ms) with
  | O => Ret ms
  | S _ =>
      match fuel with
      | O => OutOfFuel
      | S fuel' => ms' ← body ms; while_pending_mem body fuel' ms'
      end
  end.

Definition select_run_mem (better : gmap Z Z -> Process -> Process -> bool)
    (m : memory) (processes : Slice) : exec (memory * Output) :=
  ms ← init_copy_mem m processes;
  ms' ← while_pending_mem (select_run_body_mem better (len processes))
          (len processes) ms;
  Ret (mem ms', report (len processes) (vars ms')).

Definition SJFSchedule_mem := select_run_mem sjf_better.
Definition SJFPrioritySchedule_mem := select_run_mem priority_better.

Definition rr_body_mem (n : nat) (i : nat) (ms : Machine)
  : exec (flow Machine) :=
  p ← load (mem ms) (copy ms) i;
  r ← rr_step n i p (vars ms);
  match r with
  | Continue st' =>
      Ret (Continue {| mem := mem ms; copy := copy ms; vars := st' |})
  | Break st' =>
      mc ← append_remove (mem ms) (copy ms) i;
      Ret (Break {| mem := fst mc; copy := snd mc; vars := st' |})
  end.

Definition rr_pass_mem (n : nat) (ms : Machine) : exec Machine :=
  for_range_brk (rr_body_mem n) 0 (len (copy ms)) ms.

Definition RRSchedule_mem (fuel : nat) (m : memory) (processes : Slice)
  : exec (memory * Output) :=
  ms ← init_copy_mem m processes;
  ms' ← while_pending_mem (rr_pass_mem (len processes)) fuel ms;
  Ret (mem ms', report (len processes) (vars ms')).

(** The four calls of [main], on the same slice, one after the other. *)
Definition main_mem (fuel : nat) (m : memory) (processes : Slice)
  : exec (memory * list Output) :=
  r1 ← FCFSSchedule_mem m processes;
  r2 ← SJFSchedule_mem (fst r1) processes;
  r3 ← SJFPrioritySchedule_mem (fst r2) processes;
  r4 ← RRSchedule_mem fuel (fst r3) processes;
  Ret (fst r4, [snd r1; snd r2; snd r3; snd r4]).

(** The same four calls on the value of the slice. *)
Definition main_pure (fuel : nat) (processes : list Process)
  : exec (list Output) :=
  o1 ← FCFSSchedule processes;
  o2 ← SJFSchedule processes;
  o3 ← SJFPrioritySchedule processes;
  o4 ← RRSchedule fuel processes;
  Ret [o1; o2; o3; o4].

(** Every array of [m] is in [m'] with the same contents. *)
Definition preserved (m m' : memory) : Prop :=
  forall a arr, m !! a = Some arr -> m' !! a = Some arr.

(** The run [r] in memory, started from [m], ends as the run [pure] on
    values does, and leaves every array of [m] as it was. *)
Definition runs_as {A : Type} (m : memory) (r : exec (memory * A))
    (pure : exec A) : Prop :=
  match pure with
  | Ret out => exists m', r = Ret (m', out) /\ preserved m m'
  | Panic => r = Panic
  | OutOfFuel => r = OutOfFuel
  end.

(** The working copy of a scheduler started from the memory [m0]: a valid
    slice over an array that [m0] does not have, whose elements are the value
    of [copyProcesses]. *)
Definition copy_inv (m0 : memory) (ms : Machine) : Prop :=
  slice_ok (mem ms) (copy ms)
  /\ elems (mem ms) (copy ms) = copyProcesses (vars ms)
  /\ m0 !! base (copy ms) = None
  /\ preserved m0 (mem ms).

(** A step in memory against the same step on values. *)
Definition simulates (m0 : memory) (r : exec Machine) (pure : exec Locals)
  : Prop :=
  match pure with
  | Ret st' => exists ms', r = Ret ms' /\ vars ms' = st' /\ copy_inv m0 ms'
  | Panic => r = Panic
  | OutOfFuel => r = OutOfFuel
  end.

(* ===================================================================== *)
(** ** Notions used in the statements about the tables and timelines *)
(* ===================================================================== *)

(** The wait recorded in the row just before index [k] of the table, 0 for
    the first row: the value of [waitingTime] when row [k] is computed. *)
Definition wait_before (sched : list (option Row)) (k : nat) : Z :=
  match k with
  | O => 0
  | S j => match sched !! j with
           | Some (Some r) => rowWait r
           | _ => 0
           end
  end.

(** The process whose four input columns a row shows. *)
Definition row_process (r : Row) : Process :=
  {| ProcessID := rowID r; ArrivalTime := rowArrival r;
     BurstDuration := rowBurst r; Priority := rowPriority r |}.

(** The wait in row [k] of a table of the selecting schedulers: counted from
    the completion time of the row before when the process arrives after
    it, and otherwise the wait of the row before, unchanged. *)
Definition select_wait (sched : list (option Row)) (k : nat) (row : Row)
  : Prop :=
  rowWait row
  = if exit_before sched k <? rowArrival row
    then sub64 (rowArrival row) (exit_before sched k)
    else wait_before sched k.

(** Every process is there at time 0 with a burst that is not negative, and
    the bursts add up to an [int64] value. *)
Definition all_arrived (processes : list Process) : Prop :=
  Forall (fun p => ArrivalTime p <= 0 /\ 0 <= BurstDuration p) processes
  /\ sumZ (map BurstDuration processes) < two63.

(** The table [rs] and the timeline [slices] of a run without idle time and
    without waits, in non-decreasing order of the column [field]: the
    entries follow each other from time 0, each as long as its burst. *)
Definition back_to_back (field : Row -> Z) (rs : list Row)
    (slices : list TimeSlice) : Prop :=
  length slices = length rs
  /\ (forall i j ri rj, (i <= j)%nat -> rs !! i = Some ri ->
        rs !! j = Some rj -> field ri <= field rj)
  /\ (forall k r, rs !! k = Some r ->
        rowWait r = 0
        /\ rowExit r = sumZ (map rowBurst (take (S k) rs)))
  /\ (forall k r ts, rs !! k = Some r -> slices !! k = Some ts ->
        PID ts = rowID r
        /\ Start ts = sumZ (map rowBurst (take k rs))
        /\ Stop ts = Start ts + rowBurst r).

(* ===================================================================== *)
(** ** Notions used in the statements about Round-Robin *)
(* ===================================================================== *)

(** The bursts of the processes that have arrived by time [t]. *)
Definition arrived_work (processes : list Process) (t : Z) : Z :=
  sumZ (map BurstDuration (filter (fun p => ArrivalTime p <= t) processes)).

(** At every time before the end, more work has arrived than one unit per
    unit of time can have done: some process is always there to run. *)
Definition rr_never_idle (processes : list Process) : Prop :=
  forall t, 0 <= t < sumZ (map BurstDuration processes) ->
    t < arrived_work processes t.

(** What holds of the arrivals throughout a run of [RRSchedule]: a pending
    process that has not arrived has not run, and a process that is no
    longer pending has arrived. *)
Definition rr_arrivals (processes : list Process) (st : Locals) : Prop :=
  (forall p, p ∈ copyProcesses st -> serviceTime st < ArrivalTime p ->
     remainingBurst st !! ProcessID p = Some (BurstDuration p))
  /\ (forall p, p ∈ processes ->
        p ∈ copyProcesses st \/ ArrivalTime p <= serviceTime st).

(** The states of a run whose clock has not passed [bound]. *)
Definition rr_run (processes : list Process) (bound : Z) (st : Locals)
  : Prop :=
  rr_ready processes st /\ rr_arrivals processes st
  /\ serviceTime st <= bound.

(** The number of timeline entries of the process [id]. *)
Definition slices_of (id : Z) (slices : list TimeSlice) : Z :=
  Z.of_nat (length (filter (fun ts => PID ts = id) slices)).

(** Every pending process has run for its burst less what the map still
    holds for it, and a process that is no longer pending has run for its
    burst. *)
Definition rr_slices (processes : list Process) (st : Locals) : Prop :=
  forall p, p ∈ processes ->
    (p ∈ copyProcesses st ->
     slices_of (ProcessID p) (gantt st)
     + map_get (remainingBurst st) (ProcessID p) = BurstDuration p)
    /\ (p ∈ copyProcesses st
        \/ slices_of (ProcessID p) (gantt st) = BurstDuration p).

(** A row of the table of Round-Robin for a process that is finished: it
    was written with a slice of the process, the timeline entry that ended
    at the completion time of the row. *)
Definition rr_final_row (slices : list TimeSlice) (r : Row) : Prop :=
  0 <= rowArrival r < rowExit r
  /\ rowTurnaround r = rowExit r - rowArrival r
  /\ rowWait r = rowTurnaround r - 1
  /\ exists ts, slices !! Z.to_nat (rowExit r - 1) = Some ts
                /\ PID ts = rowID r.

(** The table of Round-Robin: the rows of the finished processes, in the
    order in which they finished. *)
Definition rr_table (processes : list Process) (st : Locals) : Prop :=
  exists done : list Row,
    take (length processes - length (copyProcesses st)) (schedule st)
    = Some <$> done
    /\ (row_process <$> done) ++ copyProcesses st ≡ₚ processes
    /\ Forall (rr_final_row (gantt st)) done
    /\ Forall (fun r => rowExit r <= serviceTime st) done
    /\ forall i j ri rj, (i < j)%nat -> done !! i = Some ri ->
         done !! j = Some rj -> rowExit ri < rowExit rj.


(* ===================================================================== *)
(** ** Reading the processes and printing the timeline *)
(* ===================================================================== *)

From Stdlib Require Import Strings.Ascii.
From Stdlib Require Strings.String.
Import String.StringSyntax.

Bind Scope string_scope with String.string.

(** A Go [string] is a sequence of bytes; [len] is its number of bytes. *)
Definition bytes (s : String.string) : list ascii :=
  String.list_ascii_of_string s.

(** *** The library functions the program calls

    [fmt.Sprint] of an [int64]: the decimal digits, after a minus sign for a
    negative number. An [int64] has at most 19 digits. *)
Definition digit (d : Z) : ascii := ascii_of_nat (48 + Z.to_nat d).

Fixpoint utoa (fuel : nat) (n : Z) : list ascii :=
  match fuel with
  | O => []
  | S fuel' =>
      if n <? 10 then [digit n]
      else utoa fuel' (n / 10) ++ [digit (n mod 10)]
  end.

Definition Sprint (z : Z) : list ascii :=
  if z <? 0 then "-"%char :: utoa 20 (- z) else utoa 20 z.

(** [strconv.ParseInt(s, 10, 64)]: an optional sign, then one or more
    decimal digits and nothing else, of a value that fits an [int64];
    [None] stands for every error it reports. *)
Definition digit_val (c : ascii) : option Z :=
  let n := Z.of_nat (nat_of_ascii c) in
  if (48 <=? n) && (n <=? 57) then Some (n - 48) else None.

Fixpoint parse_digits (acc : Z) (s : list ascii) : option Z :=
  match s with
  | [] => Some acc
  | c :: s' =>
      match digit_val c with
      | Some d => parse_digits (10 * acc + d) s'
      | None => None
      end
  end.

Definition ParseUint (s : list ascii) : option Z :=
  match s with
  | [] => None
  | _ :: _ => parse_digits 0 s
  end.

Definition ParseInt (s : list ascii) : option Z :=
  match s with
  | [] => None
  | c :: rest =>
      let neg := Ascii.eqb c "-" in
      let body := if Ascii.eqb c "+" || neg then rest else s in
      match ParseUint body with
      | None => None
      | Some un =>
          if neg then (if un <=? two63 then Some (- un) else None)
          else (if un <? two63 then Some un else None)
      end
  end.

(** [strings.Repeat(s, count)] panics on a negative count. *)
Definition Repeat (s : list ascii) (count : Z) : exec (list ascii) :=
  if count <? 0 then Panic
  else Ret (concat (replicate (Z.to_nat count) s)).

(** [fmt.Fprint(w, operands...)] on string operands writes them one after
    the other; [w] is the text written so far, and the error of the write is
    dropped, as the program drops it. *)
Definition Fprint (w : list ascii) (operands : list (list ascii))
  : list ascii :=
  w ++ concat operands.

Definition newline : list ascii := ["010"%char].
Definition tab : list ascii := ["009"%char].

(** *** [mustStrToInt] and [loadProcesses]

    The ways a call can end: it returns, the program exits ([os.Exit]), or
    a run-time panic. *)
Inductive run (A : Type) : Type :=
  | Done (a : A)
  | Exit (status : Z)
  | Crash.
Arguments Done {A} a.
Arguments Exit {A} status.
Arguments Crash {A}.

#[global] Instance run_ret : MRet run := fun A a => Done a.
#[global] Instance run_bind : MBind run := fun A B f m =>
  match m with
  | Done a => f a
  | Exit status => Exit status
  | Crash => Crash
  end.

(** [for i := range xs { body }] over the indices [i, i + n). *)
Fixpoint run_range {St : Type} (body : nat -> St -> run St)
    (i n : nat) (s : St) : run St :=
  match n with
  | O => Done s
  | S n' => s' ← body i s; run_range body (S i) n' s'
  end.

(** [mustStrToInt]: the error is printed and the program exits with
    status 1. *)
Definition mustStrToInt (s : list ascii) : run Z :=
  match ParseInt s with
  | Some i => Done i
  | None => Exit 1
  end.

(** [rows[i][k]]: an index out of range panics. *)
Definition field (row : list (list ascii)) (k : nat) : run (list ascii) :=
  match row !! k with
  | Some s => Done s
  | None => Crash
  end.

(** The body of [for i := range rows] in [loadProcesses], once [rows[i]]
    has been read as [row] and with [p] for [processes[i]]: the fields are
    assigned one after the other. *)
Definition load_row (row : list (list ascii)) (p : Process) : run Process :=
  s0 ← field row 0; id ← mustStrToInt s0;
  let p1 := {| ProcessID := id; ArrivalTime := ArrivalTime p;
               BurstDuration := BurstDuration p; Priority := Priority p |} in
  s1 ← field row 1; burst ← mustStrToInt s1;
  let p2 := {| ProcessID := ProcessID p1; ArrivalTime := ArrivalTime p1;
               BurstDuration := burst; Priority := Priority p1 |} in
  s2 ← field row 2; arrival ← mustStrToInt s2;
  let p3 := {| ProcessID := ProcessID p2; ArrivalTime := arrival;
               BurstDuration := BurstDuration p2; Priority := Priority p2 |} in
  if decide (length row = 4%nat) then
    s3 ← field row 3; priority ← mustStrToInt s3;
    Done {| ProcessID := ProcessID p3; ArrivalTime := ArrivalTime p3;
            BurstDuration := BurstDuration p3; Priority := priority |}
  else Done p3.

Definition load_body (rows : list (list (list ascii))) (i : nat)
    (processes : list Process) : run (list Process) :=
  match rows !! i, processes !! i with
  | Some row, Some p => p' ← load_row row p; Done (<[i := p']> processes)
  | _, _ => Crash
  end.

(** [loadProcesses], from the result [read] of
    [csv.NewReader(r).ReadAll()]: the rows, or the message of the error.
    It returns the processes or the message of its error. *)
Definition loadProcesses (read : list (list (list ascii)) + list ascii)
  : run (list Process + list ascii) :=
  match read with
  | inr err => Done (inr (err ++ bytes ": reading CSV"))
  | inl rows =>
      processes ← run_range (load_body rows) 0 (length rows)
                    (replicate (length rows) zero_process);
      Done (inl processes)
  end.

(** *** [outputGantt]

    The text after [outputGantt(w, gantt)], [w] being the text written so
    far. *)
Definition gantt_cell (gantt : list TimeSlice) (i : nat) (w : list ascii)
  : exec (list ascii) :=
  match gantt !! i with
  | None => Panic
  | Some ts =>
      let pid := Sprint (PID ts) in
      padding ← Repeat (bytes " ") ((8 - Z.of_nat (length pid)) ÷ 2);
      Ret (Fprint w [padding; pid; padding; bytes "|"])
  end.

Definition gantt_time (gantt : list TimeSlice) (i : nat) (w : list ascii)
  : exec (list ascii) :=
  match gantt !! i with
  | None => Panic
  | Some ts =>
      let w1 := Fprint w [Sprint (Start ts); tab] in
      Ret (if decide (Z.of_nat (length gantt) - 1 = Z.of_nat i)
           then Fprint w1 [Sprint (Stop ts)]
           else w1)
  end.

Definition outputGantt (w : list ascii) (gantt : list TimeSlice)
  : exec (list ascii) :=
  let w1 := Fprint w [bytes "Gantt schedule"; newline] in
  let w2 := Fprint w1 [bytes "|"] in
  w3 ← for_range (gantt_cell gantt) 0 (length gantt) w2;
  let w4 := Fprint w3 [newline] in
  w5 ← for_range (gantt_time gantt) 0 (length gantt) w4;
  Ret (Fprint w5 [newline; newline]).

(** *** Notions used in the statements *)

(** The fields of a row that [loadProcesses] reads are the columns of the
    process [p]: id, burst, arrival, and the priority when the row has
    exactly four fields; the priority is 0 otherwise. *)
Definition parses (row : list (list ascii)) (k : nat) (z : Z) : Prop :=
  exists s, row !! k = Some s /\ ParseInt s = Some z.

Definition row_fields (row : list (list ascii)) (p : Process) : Prop :=
  parses row 0 (ProcessID p)
  /\ parses row 1 (BurstDuration p)
  /\ parses row 2 (ArrivalTime p)
  /\ if decide (length row = 4%nat) then parses row 3 (Priority p)
     else Priority p = 0.

(** A field that [loadProcesses] reads is not a number. *)
Definition bad_number (row : list (list ascii)) : Prop :=
  exists k s, row !! k = Some s /\ ParseInt s = None
    /\ ((k < 3)%nat \/ (k = 3%nat /\ length row = 4%nat)).

(** The cell of a timeline entry in the chart, and the two lines of the
    chart. *)
Definition cell_text (ts : TimeSlice) : list ascii :=
  let pid := Sprint (PID ts) in
  let padding :=
    concat (replicate (Z.to_nat ((8 - Z.of_nat (length pid)) ÷ 2))
              (bytes " ")) in
  padding ++ pid ++ padding ++ bytes "|".

Definition times_text (gantt : list TimeSlice) : list ascii :=
  concat (map (fun ts => Sprint (Start ts) ++ tab) gantt)
  ++ match last gantt with
     | Some ts => Sprint (Stop ts)
     | None => []
     end.

(** The id prints with 10 characters or more. *)
Definition long_pid (ts : TimeSlice) : Prop :=
  PID ts <= - 10 ^ 8 \/ 10 ^ 9 <= PID ts.

Definition long_id (p : Process) : Prop :=
  ProcessID p <= - 10 ^ 8 \/ 10 ^ 9 <= ProcessID p.
(* ===================================================================== *)
(** * Properties *)
(* ===================================================================== *)

Example fcfs_scenario :
  exits (FCFSSchedule [P 1 5 0; P 2 3 1; P 3 2 2])
  = Ret [Some 5; Some 8; Some 10].
Proof. vm_compute. reflexivity. Qed.

Example sjf_scenario :
  exits (SJFSchedule [P 1 5 0; P 2 3 1; P 3 2 2])
  = Ret [Some 5; Some 7; Some 10]
  /\ (out ← SJFSchedule [P 1 5 0; P 2 3 1; P 3 2 2];
      Ret (map PID (out_gantt out))) = Ret [1; 3; 2].
Proof. vm_compute. split; reflexivity. Qed.

(* ===================================================================== *)
(** ** Arithmetic of [int64] *)
(* ===================================================================== *)

Lemma wrap64_range z : int64 (wrap64 z).
Proof.
  unfold int64, wrap64, two63, two64.
  pose proof (Z.mod_pos_bound (z + 9223372036854775808) 18446744073709551616).
  lia.
Qed.

Lemma wrap64_id z : int64 z -> wrap64 z = z.
Proof.
  unfold int64, wrap64, two63, two64. intros H.
  rewrite Z.mod_small by lia. lia.
Qed.

Lemma wrap64_eqm z : exists k, wrap64 z = z + k * two64.
Proof.
  unfold wrap64, two63, two64.
  exists (- ((z + 9223372036854775808) `div` 18446744073709551616)).
  pose proof (Z.div_mod (z + 9223372036854775808) 18446744073709551616).
  lia.
Qed.

Lemma wrap64_congr a b k : a = b + k * two64 -> wrap64 a = wrap64 b.
Proof.
  intros ->. unfold wrap64.
  replace (b + k * two64 + two63) with (b + two63 + k * two64) by lia.
  rewrite Z.mod_add; [reflexivity | unfold two64; lia].
Qed.

Lemma wrap64_add_l a b : wrap64 (wrap64 a + b) = wrap64 (a + b).
Proof.
  destruct (wrap64_eqm a) as [k ->]. apply (wrap64_congr _ _ k). lia.
Qed.

Lemma wrap64_add_r a b : wrap64 (a + wrap64 b) = wrap64 (a + b).
Proof.
  destruct (wrap64_eqm b) as [k ->]. apply (wrap64_congr _ _ k). lia.
Qed.

Lemma wrap64_sub_l a b : wrap64 (wrap64 a - b) = wrap64 (a - b).
Proof.
  destruct (wrap64_eqm a) as [k ->]. apply (wrap64_congr _ _ k). lia.
Qed.

Lemma wrap64_sub_r a b : wrap64 (a - wrap64 b) = wrap64 (a - b).
Proof.
  destruct (wrap64_eqm b) as [k ->]. apply (wrap64_congr _ _ (- k)). lia.
Qed.

Lemma wrap64_idem a : wrap64 (wrap64 a) = wrap64 a.
Proof. apply wrap64_id, wrap64_range. Qed.

(** Nested [int64] operations collapse to one outer [wrap64], innermost
    first: [rewrite_strat (bottomup (hints wrap64))]. *)
Create Rewrite HintDb wrap64.
#[global] Hint Rewrite wrap64_idem wrap64_add_l wrap64_add_r wrap64_sub_l
  wrap64_sub_r : wrap64.

(* ===================================================================== *)
(** ** Rules for the loops *)
(* ===================================================================== *)

Section LoopRules.
Context {St : Type}.

(** A [range] loop whose body never fails on states of the invariant
    returns, in a state of the invariant. *)
Lemma for_range_inv (Inv : nat -> St -> Prop) (body : nat -> St -> exec St) :
  forall n i s,
    Inv i s ->
    (forall j t, (i <= j < i + n)%nat -> Inv j t ->
                 exists t', body j t = Ret t' /\ Inv (S j) t') ->
    exists s', for_range body i n s = Ret s' /\ Inv (i + n)%nat s'.
Proof.
  induction n as [|n IH]; intros i s Hi Hstep; simpl.
  - exists s. rewrite Nat.add_0_r. auto.
  - destruct (Hstep i s) as (t' & Hb & Ht'); [lia | assumption |].
    rewrite Hb. simpl.
    destruct (IH (S i) t') as (s' & Hs' & HI); [assumption | |].
    + intros j t Hj. apply Hstep. lia.
    + exists s'. split; [assumption |].
      replace (i + S n)%nat with (S i + n)%nat by lia. assumption.
Qed.

(** Whatever a breaking [range] loop returns satisfies an invariant that
    every returning pass through the body preserves. *)
Lemma for_range_brk_ret (Inv : St -> Prop) (body : nat -> St -> exec (flow St)) :
  forall n i s s',
    Inv s ->
    (forall j t r, body j t = Ret r -> Inv t ->
                   match r with Continue t' | Break t' => Inv t' end) ->
    for_range_brk body i n s = Ret s' -> Inv s'.
Proof.
  induction n as [|n IH]; intros i s s' Hs Hstep; simpl.
  - intros [= <-]. assumption.
  - destruct (body i s) as [r| |] eqn:Hb; simpl; try discriminate.
    pose proof (Hstep i s r Hb Hs) as Hr.
    destruct r as [t|t].
    + apply IH; assumption.
    + intros [= <-]. assumption.
Qed.

(** A breaking [range] loop whose body does nothing returns its state. *)
Lemma for_range_brk_skip (body : nat -> St -> exec (flow St)) s :
  forall n i,
    (forall j, (i <= j < i + n)%nat -> body j s = Ret (Continue s)) ->
    for_range_brk body i n s = Ret s.
Proof.
  induction n as [|n IH]; intros i H; simpl; [reflexivity |].
  rewrite H by lia. simpl. apply IH. intros j Hj. apply H. lia.
Qed.
(** A breaking [range] loop whose body never fails on states of the
    invariant returns, in a state of [Post], which holds after a [break]
    and when the range is exhausted. *)
Lemma for_range_brk_inv (Inv : nat -> St -> Prop) (Post : St -> Prop)
    (body : nat -> St -> exec (flow St)) :
  forall n i s,
    Inv i s ->
    (forall j t, (i <= j < i + n)%nat -> Inv j t ->
       exists r, body j t = Ret r /\
         match r with
         | Continue t' => Inv (S j) t'
         | Break t' => Post t'
         end) ->
    (forall t, Inv (i + n)%nat t -> Post t) ->
    exists s', for_range_brk body i n s = Ret s' /\ Post s'.
Proof.
  induction n as [|n IH]; intros i s Hi Hstep Hend; simpl.
  - exists s. split; [reflexivity |]. apply Hend.
    rewrite Nat.add_0_r. exact Hi.
  - destruct (Hstep i s) as (r & Hb & Hr); [lia | assumption |].
    rewrite Hb. simpl. destruct r as [t|t].
    + apply IH; [exact Hr | |].
      * intros j u Hj. apply Hstep. lia.
      * intros u Hu. apply Hend.
        replace (i + S n)%nat with (S i + n)%nat by lia. exact Hu.
    + exists t. auto.
Qed.
End LoopRules.

(** The outer loop returns as soon as every iteration decreases a measure
    [mu] of the locals: a budget of [mu] iterations is enough. *)
Lemma while_pending_inv (Inv : Locals -> Prop) (mu : Locals -> nat)
    (body : Locals -> exec Locals) :
  (forall st, Inv st -> copyProcesses st <> [] ->
     exists st', body st = Ret st' /\ Inv st' /\ (mu st' < mu st)%nat) ->
  forall fuel st,
    Inv st -> (mu st <= fuel)%nat ->
    exists st', while_pending body fuel st = Ret st' /\ Inv st'
                /\ copyProcesses st' = [].
Proof.
  intros Hstep. induction fuel as [|fuel IH]; intros st Hst Hlen.
  - simpl. destruct (copyProcesses st) eqn:E; [exists st; auto |].
    destruct (Hstep st Hst) as (st' & _ & _ & Hlt); [congruence | lia].
  - simpl. destruct (copyProcesses st) eqn:E.
    + exists st. auto.
    + destruct (Hstep st Hst) as (st' & Hb & Hst' & Hlt); [congruence |].
      rewrite Hb. simpl. apply IH; [assumption | lia].
Qed.

(** Whatever the outer loop returns satisfies an invariant preserved by
    every iteration that returns, and has an empty pending list. *)
Lemma while_pending_ret (Inv : Locals -> Prop) (body : Locals -> exec Locals) :
  (forall st st', Inv st -> copyProcesses st <> [] ->
                  body st = Ret st' -> Inv st') ->
  forall fuel st st',
    Inv st -> while_pending body fuel st = Ret st' ->
    Inv st' /\ copyProcesses st' = [].
Proof.
  intros Hstep. induction fuel as [|fuel IH]; intros st st' Hst; simpl.
  - destruct (copyProcesses st) eqn:E; [| discriminate].
    intros [= <-]. auto.
  - destruct (copyProcesses st) eqn:E.
    + intros [= <-]. auto.
    + destruct (body st) as [t| |] eqn:Hb; simpl; try discriminate.
      apply IH. eapply Hstep; eauto. congruence.
Qed.

(** An iteration that leaves the state as it is never lets the loop end. *)
Lemma while_pending_stuck (body : Locals -> exec Locals) st :
  copyProcesses st <> [] -> body st = Ret st ->
  forall fuel, while_pending body fuel st = OutOfFuel.
Proof.
  intros Hne Hb. induction fuel as [|fuel IH]; simpl;
    destruct (copyProcesses st) eqn:E; try congruence.
  rewrite Hb. simpl. exact IH.
Qed.


(* ===================================================================== *)
(** ** The empty process list *)
(* ===================================================================== *)

(** C8. On the empty process list every scheduler returns (no panic, and
    Round-Robin within any iteration budget): it hands zero timeline entries
    and zero rows to the output helpers, and the three quotients
    [totalWait / count], [totalTurnaround / count] and
    [count / lastCompletion] are each [0.0 / 0.0], which is NaN. *)
Theorem empty_list_returns_nan :
  let nan_output :=
    {| out_gantt := []; out_schedule := []; aveWait := S754_nan;
       aveTurnaround := S754_nan; aveThroughput := S754_nan |} in
  FCFSSchedule [] = Ret nan_output
  /\ SJFSchedule [] = Ret nan_output
  /\ SJFPrioritySchedule [] = Ret nan_output
  /\ (forall fuel, RRSchedule fuel [] = Ret nan_output)
  /\ f64_div (f64_of_int (Z.of_nat 0)) f64_zero = S754_nan
  /\ f64_is_nan (f64_div f64_zero (f64_of_int (Z.of_nat 0))) = true.
Proof.
  cbv zeta. repeat split; try reflexivity.
  intros [|fuel]; reflexivity.
Qed.

(* ===================================================================== *)
(** ** Round-robin: a pass in which nothing has arrived *)
(* ===================================================================== *)

(** When no pending process has arrived, the scan changes nothing: in
    particular [serviceTime] does not advance. *)
Lemma rr_pass_idle n st :
  Forall (fun p => serviceTime st < ArrivalTime p) (copyProcesses st) ->
  rr_pass n st = Ret st.
Proof.
  intros Hall. unfold rr_pass. apply for_range_brk_skip.
  intros j Hj. unfold rr_body, rr_step.
  destruct (copyProcesses st !! j) as [p|] eqn:E.
  - rewrite Forall_forall in Hall.
    assert (Hp : serviceTime st < ArrivalTime p).
    { apply Hall. eapply list_elem_of_lookup_2. exact E. }
    destruct (Z.leb_spec (ArrivalTime p) (serviceTime st)); [lia | reflexivity].
  - apply lookup_ge_None in E. lia.
Qed.

(** Round-Robin never returns on a non-empty list none of whose processes
    arrives at time 0. *)
Lemma RRSchedule_diverges processes :
  processes <> [] ->
  Forall (fun p => 0 < ArrivalTime p) processes ->
  forall fuel, RRSchedule fuel processes = OutOfFuel.
Proof.
  intros Hne Hall fuel. unfold RRSchedule.
  rewrite (while_pending_stuck _ (init_copy processes)); [reflexivity | exact Hne |].
  apply rr_pass_idle. exact Hall.
Qed.

(** C1. The claim is that Round-Robin returns on every non-empty list of
    valid processes. The code does not: on the single valid process with
    arrival 1 and burst 1 the scan finds nothing that has arrived, leaves
    [serviceTime] at 0, and the outer loop runs for ever; no iteration budget
    lets the run return. *)
Theorem RRSchedule_late_arrival_never_returns :
  forall fuel, RRSchedule fuel [P 1 1 1] = OutOfFuel.
Proof.
  apply RRSchedule_diverges; [discriminate |].
  repeat constructor.
Qed.

(* ===================================================================== *)
(** ** The selection scan of SJF and priority scheduling *)
(* ===================================================================== *)

Section Selection.
Variable better : Process -> Process -> bool.
Variable key : Process -> Z.
Hypothesis better_key : forall p q, better p q = (key p <? key q).
Variable cp : list Process.
Variable now : Z.

Lemma select_body_step k idx :
  (k < length cp)%nat -> scan_inv key cp now k idx ->
  exists idx', select_body better cp now k idx = Ret idx'
               /\ scan_inv key cp now (S k) idx'.
Proof.
  intros Hk (q & Hq & Hidx & Hmin).
  destruct (lookup_lt_is_Some_2 cp k Hk) as [p Hp].
  unfold select_body. rewrite Hp.
  destruct (Z.leb_spec (ArrivalTime p) now) as [Harr|Harr].
  - rewrite Hq, better_key.
    destruct (Z.ltb_spec (key p) (key q)) as [Hlt|Hge].
    + exists k. split; [reflexivity |].
      exists p. split; [exact Hp |]. split; [right; lia |].
      intros j p' Hj Hp' Hc.
      destruct (decide (j = k)) as [->|Hne].
      * rewrite Hp in Hp'. injection Hp' as <-. lia.
      * destruct (Hmin j p') as [H1 H2]; [lia | assumption | assumption |]. lia.
    + exists idx. split; [reflexivity |].
      exists q. split; [exact Hq |]. split; [lia |].
      intros j p' Hj Hp' Hc.
      destruct (decide (j = k)) as [->|Hne].
      * rewrite Hp in Hp'. injection Hp' as <-. lia.
      * apply Hmin; [lia | assumption | assumption].
  - exists idx. split; [reflexivity |].
    exists q. split; [exact Hq |]. split; [lia |].
    intros j p' Hj Hp' Hc.
    destruct (decide (j = k)) as [->|Hne].
    + rewrite Hp in Hp'. injection Hp' as <-.
      destruct Hc as [->|(p' & Hp' & Harr')].
      * assert (idx = 0%nat) as -> by lia.
        rewrite Hp in Hq. injection Hq as <-. lia.
      * rewrite Hp in Hp'. injection Hp' as <-. lia.
    + apply Hmin; [lia | assumption | assumption].
Qed.

(** On a non-empty list the scan returns the first index of least key
    among its candidates. *)
Lemma select_index_first_least :
  cp <> [] ->
  exists idx, select_index better cp now = Ret idx
              /\ first_least key (candidate cp now) cp idx.
Proof.
  intros Hne. unfold select_index.
  destruct (for_range_inv (scan_inv key cp now) (select_body better cp now)
              (length cp) 0%nat 0%nat) as (idx & Hrun & Hinv).
  - destruct cp as [|p0 cp'] eqn:E; [congruence |].
    exists p0. split; [reflexivity |]. split; [left; reflexivity |].
    intros j p Hj. lia.
  - intros j t Hj. apply select_body_step. lia.
  - exists idx. split; [exact Hrun |].
    destruct Hinv as (q & Hq & Hidx & Hmin).
    exists q. split; [exact Hq |]. split.
    + destruct Hidx as [->|[_ Harr]]; [left; reflexivity |].
      right. exists q. auto.
    + intros j p Hp Hc. apply Hmin; [| assumption | assumption].
      simpl. eapply lookup_lt_Some. exact Hp.
Qed.
End Selection.


(* ===================================================================== *)
(** ** Runs of SJF and priority scheduling *)
(* ===================================================================== *)

Lemma served_snoc jobs job : served (jobs ++ [job]) = serve (served jobs) job.
Proof. unfold served. rewrite fold_left_app. reflexivity. Qed.

Lemma served_rows_length jobs : length (sv_rows (served jobs)) = length jobs.
Proof.
  induction jobs as [|job jobs IH] using rev_ind; [reflexivity |].
  rewrite served_snoc. simpl. rewrite !length_app, IH. reflexivity.
Qed.

Lemma served_slices_length jobs :
  length (sv_slices (served jobs)) = length jobs.
Proof.
  induction jobs as [|job jobs IH] using rev_ind; [reflexivity |].
  rewrite served_snoc. simpl. rewrite !length_app, IH. reflexivity.
Qed.

Lemma f64_sum_snoc l z : f64_sum (l ++ [z]) = f64_add (f64_sum l) (f64_of_int z).
Proof. unfold f64_sum. rewrite fold_left_app. reflexivity. Qed.

Lemma last_completion_snoc rs r :
  last_completion (rs ++ [r]) = f64_of_int (rowExit r).
Proof. unfold last_completion. rewrite last_snoc. reflexivity. Qed.

Lemma remove_at_length i (xs : list Process) :
  (i < length xs)%nat -> length (remove_at i xs) = (length xs - 1)%nat.
Proof.
  intros H. unfold remove_at.
  rewrite length_app, length_take, length_drop. lia.
Qed.

(** Assigning the next free row of the table. *)
Lemma store_row_next (rs : list Row) (m : nat) r :
  store_row ((Some <$> rs) ++ replicate (S m) None) (Z.of_nat (length rs)) r
  = Ret ((Some <$> rs ++ [r]) ++ replicate m None).
Proof.
  unfold store_row. rewrite decide_True.
  - f_equal. rewrite Nat2Z.id.
    rewrite insert_app_r_alt by (rewrite length_fmap; lia).
    rewrite length_fmap, Nat.sub_diag. simpl.
    rewrite fmap_app. simpl. rewrite <- app_assoc. reflexivity.
  - rewrite length_app, length_fmap, length_replicate. lia.
Qed.

(** One iteration from the state of a history is the state of the history
    extended by the selected job. *)
Lemma select_run_body_state better n jobs cp rem idx job :
  (length jobs + length cp = n)%nat ->
  select_index (better rem) cp (sv_time (served jobs)) = Ret idx ->
  cp !! idx = Some job ->
  select_run_body better n (select_state n jobs cp rem)
  = Ret (select_state n (jobs ++ [job]) (remove_at idx cp)
           (delete (ProcessID job) rem)).
Proof.
  intros Hn Hsel Hjob.
  assert (Hlt : (idx < length cp)%nat) by (eapply lookup_lt_Some; eauto).
  unfold select_run_body, select_serve, select_state. cbn [serviceTime copyProcesses
    remainingBurst schedule waitingTime totalWait totalTurnaround gantt
    lastCompletion].
  rewrite Hsel. cbn [mbind exec_bind]. rewrite Hjob.
  replace (Z.of_nat n - Z.of_nat (length cp))
    with (Z.of_nat (length (sv_rows (served jobs))))
    by (rewrite served_rows_length; lia).
  replace (n - length jobs)%nat with (S (n - length (jobs ++ [job])))
    by (rewrite length_app; simpl; lia).
  rewrite store_row_next. cbn [mbind exec_bind].
  rewrite served_snoc. unfold serve at 1 2 3 4 5 6 7.
  cbn [sv_time sv_wait sv_rows sv_slices].
  rewrite !map_app. cbn [map].
  rewrite !f64_sum_snoc, last_completion_snoc.
  reflexivity.
Qed.

Lemma select_state_init processes :
  init_copy processes
  = select_state (length processes) [] processes (init_remaining processes).
Proof.
  unfold init_copy, select_state, init_locals. simpl.
  rewrite Nat.sub_0_r. reflexivity.
Qed.

Lemma remove_at_delete i (xs : list Process) : remove_at i xs = delete i xs.
Proof. unfold remove_at. symmetry. apply delete_take_drop. Qed.

Section SelectRun.
Variable better : gmap Z Z -> Process -> Process -> bool.
Variable key : gmap Z Z -> Process -> Z.
Hypothesis better_key :
  forall rem p q, better rem p q = (key rem p <? key rem q).
Variable processes : list Process.

(** An iteration from a reachable state with pending processes returns:
    it serves the first candidate of least key. *)
Lemma select_run_body_reachable jobs cp rem :
  select_history processes jobs cp rem -> cp <> [] ->
  exists idx job,
    first_least (key rem) (candidate cp (sv_time (served jobs))) cp idx
    /\ cp !! idx = Some job
    /\ select_run_body better (length processes) (select_state (length processes) jobs cp rem)
       = Ret (select_state (length processes) (jobs ++ [job]) (remove_at idx cp)
                (delete (ProcessID job) rem))
    /\ select_history processes (jobs ++ [job]) (remove_at idx cp)
         (delete (ProcessID job) rem).
Proof.
  intros (Hlen & Hperm & Hrem) Hne.
  destruct (select_index_first_least (better rem) (key rem)
              (better_key rem) cp (sv_time (served jobs)) Hne)
    as (idx & Hsel & Hfl).
  pose proof Hfl as (job & Hjob & _).
  exists idx, job. split; [exact Hfl |]. split; [exact Hjob |].
  assert (Hlt : (idx < length cp)%nat) by (eapply lookup_lt_Some; eauto).
  split.
  - apply select_run_body_state; assumption.
  - split; [| split].
    + rewrite length_app, remove_at_length by assumption. simpl. lia.
    + rewrite <- Hperm, <- app_assoc. apply Permutation_app_head.
      simpl. rewrite remove_at_delete. symmetry.
      apply delete_Permutation. exact Hjob.
    + rewrite fold_left_app. simpl. rewrite Hrem. reflexivity.
Qed.

Lemma select_reachable_init : select_reachable processes (init_copy processes).
Proof.
  exists [], processes, (init_remaining processes).
  split; [apply select_state_init |].
  split; [reflexivity |]. split; reflexivity.
Qed.

Lemma select_reachable_step st :
  select_reachable processes st -> copyProcesses st <> [] ->
  exists st', select_run_body better (length processes) st = Ret st'
              /\ select_reachable processes st'
              /\ (length (copyProcesses st') < length (copyProcesses st))%nat.
Proof.
  intros (jobs & cp & rem & -> & Hh) Hne. simpl in Hne.
  destruct (select_run_body_reachable jobs cp rem Hh Hne)
    as (idx & job & _ & Hjob & Hb & Hh').
  eexists. split; [exact Hb |]. split.
  - eexists _, _, _. split; [reflexivity | exact Hh'].
  - simpl. rewrite remove_at_length by (eapply lookup_lt_Some; eauto).
    apply lookup_lt_Some in Hjob. lia.
Qed.


(** The run returns, and its output is the report of a history in which
    every process has been served. *)
Lemma select_run_returns :
  exists jobs rem,
    jobs ≡ₚ processes
    /\ select_run better processes
       = Ret (report (length processes) (select_state (length processes) jobs [] rem)).
Proof.
  destruct (while_pending_inv (select_reachable processes)
              (fun st => length (copyProcesses st))
              (select_run_body better (length processes))) with
    (fuel := length processes) (st := init_copy processes)
    as (st & Hrun & (jobs & cp & rem & -> & Hh) & Hcp).
  - intros st Hst Hne. apply select_reachable_step; assumption.
  - apply select_reachable_init.
  - simpl. lia.
  - simpl in Hcp. subst cp. destruct Hh as (_ & Hperm & _).
    rewrite app_nil_r in Hperm.
    exists jobs, rem. split; [exact Hperm |].
    unfold select_run. rewrite Hrun. reflexivity.
Qed.
End SelectRun.

Lemma sjf_better_key rem p q :
  sjf_better rem p q
  = ((fun rem p => map_get rem (ProcessID p)) rem p
     <? (fun rem p => map_get rem (ProcessID p)) rem q).
Proof. reflexivity. Qed.

Lemma priority_better_key rem p q :
  priority_better rem p q
  = ((fun (_ : gmap Z Z) p => Priority p) rem p
     <? (fun (_ : gmap Z Z) p => Priority p) rem q).
Proof. reflexivity. Qed.

(* ===================================================================== *)
(** ** Which process an iteration selects *)
(* ===================================================================== *)


Section SelectIteration.
Variable better : gmap Z Z -> Process -> Process -> bool.
Variable key : gmap Z Z -> Process -> Z.
Hypothesis better_key :
  forall rem p q, better rem p q = (key rem p <? key rem q).
Variable processes : list Process.

End SelectIteration.




(* ===================================================================== *)
(** ** The map of remaining bursts in SJF and priority scheduling *)
(* ===================================================================== *)

Lemma for_range_ext {St : Type} (body body' : nat -> St -> exec St) :
  (forall i s, body i s = body' i s) ->
  forall n i s, for_range body i n s = for_range body' i n s.
Proof.
  intros Heq. induction n as [|n IH]; intros i s; simpl; [reflexivity |].
  rewrite Heq. destruct (body' i s); simpl; auto.
Qed.


Lemma init_remaining_snoc cp p :
  init_remaining (cp ++ [p])
  = <[ProcessID p := BurstDuration p]> (init_remaining cp).
Proof. unfold init_remaining. rewrite fold_left_app. reflexivity. Qed.

(** With distinct ids the initial map holds the burst of every process. *)
Lemma init_remaining_lookup cp p :
  NoDup (ProcessID <$> cp) -> p ∈ cp ->
  init_remaining cp !! ProcessID p = Some (BurstDuration p).
Proof.
  induction cp as [|x cp IH] using rev_ind; intros Hnd Hin.
  - inversion Hin.
  - rewrite init_remaining_snoc. rewrite fmap_app in Hnd.
    apply NoDup_app in Hnd as (Hnd & Hdisj & _).
    apply elem_of_app in Hin as [Hin|Hin].
    + rewrite lookup_insert_ne; [apply IH; assumption |].
      intros Heq. apply (Hdisj (ProcessID p)).
      * apply list_elem_of_fmap. exists p. auto.
      * rewrite <- Heq. simpl. left.
    + apply list_elem_of_singleton in Hin as ->. apply lookup_insert_eq.
Qed.

Lemma delete_jobs_lookup (jobs : list Process) (m : gmap Z Z) k :
  k ∉ ProcessID <$> jobs ->
  fold_left (fun m job => delete (ProcessID job) m) jobs m !! k = m !! k.
Proof.
  revert m. induction jobs as [|job jobs IH]; intros m Hk; [reflexivity |].
  simpl. rewrite IH.
  - apply lookup_delete_ne. intros Heq. apply Hk. rewrite <- Heq. left.
  - intros Hin. apply Hk. right. exact Hin.
Qed.

(** In a history over processes with distinct ids, every pending process has
    its original burst in the map. *)
Lemma select_history_remaining processes jobs cp rem p :
  NoDup (ProcessID <$> processes) ->
  select_history processes jobs cp rem ->
  p ∈ cp -> rem !! ProcessID p = Some (BurstDuration p).
Proof.
  intros Hnd (_ & Hperm & ->) Hin.
  assert (Hnd' : NoDup ((ProcessID <$> jobs) ++ (ProcessID <$> cp))).
  { rewrite <- fmap_app, Hperm. exact Hnd. }
  apply NoDup_app in Hnd' as (_ & Hdisj & _).
  rewrite delete_jobs_lookup.
  - apply init_remaining_lookup; [exact Hnd |].
    rewrite <- Hperm. apply elem_of_app. right. exact Hin.
  - intros Hj. apply (Hdisj _ Hj).
    apply list_elem_of_fmap. exists p. auto.
Qed.

Section RemainingBurst.
Variable better : gmap Z Z -> Process -> Process -> bool.
Variable key : gmap Z Z -> Process -> Z.
Hypothesis better_key :
  forall rem p q, better rem p q = (key rem p <? key rem q).
Variable processes : list Process.
Hypothesis ids_distinct : NoDup (ProcessID <$> processes).

End RemainingBurst.



(** The hypothesis of distinct ids is needed: two processes with the same id
    share one entry of the map, which holds the burst of the later one. *)
Example remaining_burst_shared_by_equal_ids :
  let st := init_copy [P 1 5 0; P 1 3 0] in
  P 1 5 0 ∈ copyProcesses st
  /\ remainingBurst st !! ProcessID (P 1 5 0) = Some 3.
Proof. split; [left | reflexivity]. Qed.

(* ===================================================================== *)
(** ** Runs of FCFS *)
(* ===================================================================== *)

Lemma sumZ_app l1 l2 : sumZ (l1 ++ l2) = sumZ l1 + sumZ l2.
Proof.
  induction l1 as [|x l1 IH]; simpl; [reflexivity |].
  unfold sumZ in *. simpl. rewrite IH. lia.
Qed.

(** A sum accumulated in an [int64] is the mathematical sum, wrapped once. *)
Lemma sum64_wrap l : sum64 l = wrap64 (sumZ l).
Proof.
  induction l as [|x l IH] using rev_ind; [reflexivity |].
  unfold sum64 in *. rewrite fold_left_app. cbn [fold_left]. rewrite IH.
  rewrite sumZ_app. change (sumZ [x]) with (x + 0).
  unfold add64. rewrite wrap64_add_l. f_equal. lia.
Qed.

Lemma sum64_snoc l x : sum64 (l ++ [x]) = add64 (sum64 l) x.
Proof. unfold sum64. rewrite fold_left_app. reflexivity. Qed.

Lemma fcfs_served_snoc done p :
  fcfs_served (done ++ [p]) = fcfs_serve (fcfs_served done) p.
Proof. unfold fcfs_served. rewrite fold_left_app. reflexivity. Qed.

Lemma fcfs_served_rows_length done :
  length (sv_rows (fcfs_served done)) = length done.
Proof.
  induction done as [|p done IH] using rev_ind; [reflexivity |].
  rewrite fcfs_served_snoc. simpl. rewrite !length_app, IH. reflexivity.
Qed.

Lemma fcfs_served_slices_length done :
  length (sv_slices (fcfs_served done)) = length done.
Proof.
  induction done as [|p done IH] using rev_ind; [reflexivity |].
  rewrite fcfs_served_snoc. simpl. rewrite !length_app, IH. reflexivity.
Qed.

Lemma fcfs_served_time done :
  sv_time (fcfs_served done) = sum64 (map BurstDuration done).
Proof.
  induction done as [|p done IH] using rev_ind; [reflexivity |].
  rewrite fcfs_served_snoc, map_app. cbn [map]. rewrite sum64_snoc.
  cbn [fcfs_serve sv_time]. rewrite IH. reflexivity.
Qed.

(** One pass through the loop body extends the history by the process read. *)
Lemma fcfs_body_state processes n done p :
  processes !! length done = Some p -> (length done < n)%nat ->
  fcfs_body processes (length done) (fcfs_state n done)
  = Ret (fcfs_state n (done ++ [p])).
Proof.
  intros Hp Hlt. unfold fcfs_body, fcfs_step, fcfs_state. rewrite Hp.
  cbn [serviceTime copyProcesses remainingBurst schedule waitingTime
       totalWait totalTurnaround gantt lastCompletion].
  replace (Z.of_nat (length done))
    with (Z.of_nat (length (sv_rows (fcfs_served done))))
    by (rewrite fcfs_served_rows_length; reflexivity).
  replace (n - length done)%nat with (S (n - length (done ++ [p])))
    by (rewrite length_app; simpl; lia).
  rewrite store_row_next. cbn [mbind exec_bind].
  rewrite fcfs_served_snoc. unfold fcfs_serve.
  cbn [sv_time sv_wait sv_rows sv_slices].
  rewrite !map_app. cbn [map].
  rewrite !f64_sum_snoc, last_completion_snoc.
  reflexivity.
Qed.

(** FCFS returns: its locals after the loop are the history of the whole
    input, in input order. *)
Lemma fcfs_loop_state processes :
  fcfs_loop processes = Ret (fcfs_state (length processes) processes).
Proof.
  unfold fcfs_loop.
  destruct (for_range_inv
    (fun i st => st = fcfs_state (length processes) (take i processes))
    (fcfs_body processes) (length processes) 0%nat
    (init_locals (length processes))) as (st & Hrun & Hst).
  - unfold fcfs_state, init_locals. simpl. rewrite Nat.sub_0_r. reflexivity.
  - intros j t Hj ->.
    destruct (lookup_lt_is_Some_2 processes j) as [p Hp]; [lia |].
    exists (fcfs_state (length processes) (take (S j) processes)).
    split; [| reflexivity].
    rewrite (take_S_r _ _ _ Hp).
    assert (Hlen : length (take j processes) = j)
      by (rewrite length_take; lia).
    rewrite <- Hlen at 1. apply fcfs_body_state; rewrite Hlen; [exact Hp | lia].
  - rewrite Hrun, Hst. simpl. rewrite firstn_all. reflexivity.
Qed.

Lemma FCFSSchedule_state processes :
  FCFSSchedule processes
  = Ret (report (length processes)
           (fcfs_state (length processes) processes)).
Proof. unfold FCFSSchedule. rewrite fcfs_loop_state. reflexivity. Qed.

(** The row and the slice of the process at index [i] are those recorded
    when the history of the earlier processes is extended by it. *)
Lemma fcfs_served_lookup processes i p :
  processes !! i = Some p ->
  exists row ts,
    sv_rows (fcfs_served processes) !! i = Some row
    /\ sv_slices (fcfs_served processes) !! i = Some ts
    /\ sv_rows (fcfs_serve (fcfs_served (take i processes)) p)
       = sv_rows (fcfs_served (take i processes)) ++ [row]
    /\ sv_slices (fcfs_serve (fcfs_served (take i processes)) p)
       = sv_slices (fcfs_served (take i processes)) ++ [ts].
Proof.
  revert i p. induction processes as [|x processes IH] using rev_ind;
    intros i p Hp; [discriminate |].
  rewrite fcfs_served_snoc.
  destruct (decide (i < length processes)%nat) as [Hlt|Hge].
  - rewrite lookup_app_l in Hp by exact Hlt.
    destruct (IH i p Hp) as (row & ts & Hr & Hs & Hrow & Hts).
    exists row, ts. rewrite take_app_le by lia.
    cbn [fcfs_serve sv_rows sv_slices].
    rewrite !lookup_app_l
      by (rewrite ?fcfs_served_rows_length, ?fcfs_served_slices_length; lia).
    auto.
  - assert (i = length processes) as ->.
    { apply lookup_lt_Some in Hp. rewrite length_app in Hp. simpl in Hp. lia. }
    rewrite lookup_app_r, Nat.sub_diag in Hp by lia. injection Hp as ->.
    rewrite take_app_length.
    eexists _, _. cbn [fcfs_serve sv_rows sv_slices].
    rewrite !lookup_app_r
      by (rewrite ?fcfs_served_rows_length, ?fcfs_served_slices_length; lia).
    rewrite fcfs_served_rows_length, fcfs_served_slices_length, Nat.sub_diag.
    repeat split; reflexivity.
Qed.

(** C2 (as amended). [FCFSSchedule] returns on every list, and for the
    process at index [i]: when its arrival is positive the recorded wait time
    is serviceTimeSoFar - arrival, not clamped at 0 (so it is
    [max 0 (serviceTimeSoFar - arrival)] exactly when the process arrives no
    later than serviceTimeSoFar); its timeline entry starts at
    waitTime + arrival; and its recorded completion time is
    arrival + waitTime + burst. *)
Theorem fcfs_row_of_process (processes : list Process) (i : nat) (p : Process) :
  processes !! i = Some p ->
  exists out row ts,
    FCFSSchedule processes = Ret out
    /\ out_schedule out !! i = Some (Some row)
    /\ out_gantt out !! i = Some ts
    /\ (0 < ArrivalTime p ->
        rowWait row = sub64 (service_before processes i) (ArrivalTime p))
    /\ (0 < ArrivalTime p <= service_before processes i ->
        rowWait row = Z.max 0 (service_before processes i - ArrivalTime p))
    /\ Start ts = add64 (rowWait row) (ArrivalTime p)
    /\ rowExit row
       = add64 (add64 (ArrivalTime p) (rowWait row)) (BurstDuration p).
Proof.
  intros Hp.
  destruct (fcfs_served_lookup processes i p Hp)
    as (row & ts & Hr & Hs & Hrow & Hts).
  exists (report (length processes) (fcfs_state (length processes) processes)),
    row, ts.
  split; [apply FCFSSchedule_state |].
  assert (Hi : (i < length processes)%nat) by (eapply lookup_lt_Some; eauto).
  split.
  { simpl. rewrite lookup_app_l
      by (rewrite length_fmap, fcfs_served_rows_length; exact Hi).
    rewrite list_lookup_fmap, Hr. reflexivity. }
  split; [exact Hs |].
  cbn [fcfs_serve sv_rows sv_slices] in Hrow, Hts.
  apply app_inv_head in Hrow. injection Hrow as <-.
  apply app_inv_head in Hts. injection Hts as <-.
  cbn [rowWait rowExit Start].
  rewrite fcfs_served_time. fold (service_before processes i).
  assert (Hpos : 0 < ArrivalTime p ->
    (if 0 <? ArrivalTime p
     then sub64 (service_before processes i) (ArrivalTime p)
     else sv_wait (fcfs_served (take i processes)))
    = sub64 (service_before processes i) (ArrivalTime p)).
  { intros H. destruct (Z.ltb_spec 0 (ArrivalTime p)); [reflexivity | lia]. }
  split; [exact Hpos |]. split; [| split; [reflexivity |]].
  - intros [H1 H2]. rewrite (Hpos H1).
    pose proof (wrap64_range (sumZ (map BurstDuration (take i processes))))
      as Hrange.
    rewrite <- sum64_wrap in Hrange. fold (service_before processes i) in Hrange.
    unfold sub64. rewrite wrap64_id; [lia |].
    unfold int64 in *. unfold two63 in *. lia.
  - unfold add64. rewrite !wrap64_add_l. f_equal. lia.
Qed.

Lemma fcfs_row_of_process_witness :
  exists out row ts,
    FCFSSchedule [P 1 5 0; P 2 3 1; P 3 2 2] = Ret out
    /\ out_schedule out !! 1%nat = Some (Some row)
    /\ out_gantt out !! 1%nat = Some ts
    /\ (0 < ArrivalTime (P 2 3 1) ->
        rowWait row
        = sub64 (service_before [P 1 5 0; P 2 3 1; P 3 2 2] 1)
            (ArrivalTime (P 2 3 1)))
    /\ (0 < ArrivalTime (P 2 3 1)
          <= service_before [P 1 5 0; P 2 3 1; P 3 2 2] 1 ->
        rowWait row
        = Z.max 0 (service_before [P 1 5 0; P 2 3 1; P 3 2 2] 1
                   - ArrivalTime (P 2 3 1)))
    /\ Start ts = add64 (rowWait row) (ArrivalTime (P 2 3 1))
    /\ rowExit row
       = add64 (add64 (ArrivalTime (P 2 3 1)) (rowWait row))
           (BurstDuration (P 2 3 1)).
Proof.
  apply (fcfs_row_of_process [P 1 5 0; P 2 3 1; P 3 2 2] 1 (P 2 3 1)).
  reflexivity.
Defined.

(** C2 (as stated) fails. On the single process with burst 1 and arrival 5
    the bursts of the earlier processes sum to 0, so the claimed wait time is
    [max 0 (0 - 5) = 0]; [FCFSSchedule] records [0 - 5 = -5]. *)
Lemma fcfs_wait_is_not_clamped :
  exists out row,
    FCFSSchedule [P 1 1 5] = Ret out
    /\ out_schedule out !! 0%nat = Some (Some row)
    /\ rowWait row = -5
    /\ Z.max 0 (service_before [P 1 1 5] 0 - ArrivalTime (P 1 1 5)) = 0.
Proof.
  eexists _, _. split; [vm_compute; reflexivity |].
  split; [reflexivity |]. split; reflexivity.
Qed.

(* ===================================================================== *)
(** ** The rows of the schedule table *)
(* ===================================================================== *)

(** The row and the slice of the [k]-th served job are those recorded when
    the history of the jobs served before is extended by it. *)
Lemma served_lookup jobs k job :
  jobs !! k = Some job ->
  exists row ts,
    sv_rows (served jobs) !! k = Some row
    /\ sv_slices (served jobs) !! k = Some ts
    /\ sv_rows (serve (served (take k jobs)) job)
       = sv_rows (served (take k jobs)) ++ [row]
    /\ sv_slices (serve (served (take k jobs)) job)
       = sv_slices (served (take k jobs)) ++ [ts].
Proof.
  revert k job. induction jobs as [|x jobs IH] using rev_ind;
    intros k job Hjob; [discriminate |].
  rewrite served_snoc.
  destruct (decide (k < length jobs)%nat) as [Hlt|Hge].
  - rewrite lookup_app_l in Hjob by exact Hlt.
    destruct (IH k job Hjob) as (row & ts & Hr & Hs & Hrow & Hts).
    exists row, ts. rewrite take_app_le by lia.
    cbn [serve sv_rows sv_slices].
    rewrite !lookup_app_l
      by (rewrite ?served_rows_length, ?served_slices_length; lia).
    auto.
  - assert (k = length jobs) as ->.
    { apply lookup_lt_Some in Hjob. rewrite length_app in Hjob.
      simpl in Hjob. lia. }
    rewrite lookup_app_r, Nat.sub_diag in Hjob by lia. injection Hjob as ->.
    rewrite take_app_length.
    eexists _, _. cbn [serve sv_rows sv_slices].
    rewrite !lookup_app_r
      by (rewrite ?served_rows_length, ?served_slices_length; lia).
    rewrite served_rows_length, served_slices_length, Nat.sub_diag.
    repeat split; reflexivity.
Qed.

(** [serviceTime] after a job is the completion time in its row. *)
Lemma serve_time_exit acc job row :
  sv_rows (serve acc job) = sv_rows acc ++ [row] ->
  sv_time (serve acc job) = rowExit row.
Proof.
  cbn [serve sv_rows sv_time]. intros H.
  apply app_inv_head in H. injection H as <-. cbn [rowExit].
  unfold add64. rewrite wrap64_add_l, wrap64_add_r. f_equal. lia.
Qed.

(** The time at which the [k]-th job is served is the completion time in the
    row before it. *)
Lemma served_time_exit_before jobs k :
  (k <= length jobs)%nat ->
  sv_time (served (take k jobs))
  = exit_before (Some <$> sv_rows (served jobs)) k.
Proof.
  intros Hk. destruct k as [|j]; [reflexivity |].
  destruct (lookup_lt_is_Some_2 jobs j) as [pj Hpj]; [lia |].
  destruct (served_lookup jobs j pj Hpj) as (row & ts & Hr & _ & Hrow & _).
  rewrite (take_S_r _ _ _ Hpj), served_snoc.
  rewrite (serve_time_exit _ _ _ Hrow).
  cbn [exit_before]. rewrite list_lookup_fmap, Hr. reflexivity.
Qed.

Lemma served_row_times jobs k row :
  sv_rows (served jobs) !! k = Some row ->
  row_times (exit_before (Some <$> sv_rows (served jobs)) k) row
  /\ exists job, jobs !! k = Some job /\ row_of_process row job.
Proof.
  intros Hrow.
  assert (Hk : (k < length jobs)%nat).
  { apply lookup_lt_Some in Hrow. rewrite served_rows_length in Hrow. lia. }
  destruct (lookup_lt_is_Some_2 jobs k Hk) as [job Hjob].
  destruct (served_lookup jobs k job Hjob) as (row' & ts & Hr & _ & Hrow' & _).
  rewrite Hr in Hrow. injection Hrow as ->.
  rewrite <- served_time_exit_before by lia.
  cbn [serve sv_rows] in Hrow'. apply app_inv_head in Hrow'.
  injection Hrow' as <-.
  split; [split; reflexivity |]. exists job. split; [exact Hjob |].
  repeat split; reflexivity.
Qed.

Lemma fcfs_served_row_times processes i row :
  sv_rows (fcfs_served processes) !! i = Some row ->
  row_times (rowArrival row) row
  /\ exists p, processes !! i = Some p /\ row_of_process row p.
Proof.
  intros Hrow.
  assert (Hi : (i < length processes)%nat).
  { apply lookup_lt_Some in Hrow. rewrite fcfs_served_rows_length in Hrow.
    lia. }
  destruct (lookup_lt_is_Some_2 processes i Hi) as [p Hp].
  destruct (fcfs_served_lookup processes i p Hp)
    as (row' & ts & Hr & _ & Hrow' & _).
  rewrite Hr in Hrow. injection Hrow as ->.
  cbn [fcfs_serve sv_rows] in Hrow'. apply app_inv_head in Hrow'.
  injection Hrow' as <-.
  split; [split |].
  - cbn [rowTurnaround rowWait rowBurst]. unfold add64. f_equal. lia.
  - cbn [rowExit rowArrival rowWait rowBurst]. unfold add64.
    rewrite !wrap64_add_l. f_equal. lia.
  - exists p. split; [exact Hp |]. repeat split; reflexivity.
Qed.

(** The table of a complete history has every row assigned. *)
Lemma full_table (rs : list Row) (n m : nat) :
  m = n -> (Some <$> rs) ++ replicate (n - m) None = Some <$> rs.
Proof. intros ->. rewrite Nat.sub_diag. apply app_nil_r. Qed.

Section SelectRows.
Variable better : gmap Z Z -> Process -> Process -> bool.
Variable key : gmap Z Z -> Process -> Z.
Hypothesis better_key :
  forall rem p q, better rem p q = (key rem p <? key rem q).
Variable processes : list Process.

(** The output of a selecting scheduler: the history of some order of
    service of all the processes. *)
Lemma select_run_output :
  exists jobs out,
    jobs ≡ₚ processes
    /\ select_run better processes = Ret out
    /\ out_schedule out = Some <$> sv_rows (served jobs)
    /\ out_gantt out = sv_slices (served jobs)
    /\ aveWait out
       = f64_div (f64_sum (map rowWait (sv_rows (served jobs))))
           (f64_of_int (Z.of_nat (length processes))).
Proof.
  destruct (select_run_returns better key better_key processes)
    as (jobs & rem & Hperm & Hrun).
  exists jobs. eexists. split; [exact Hperm |]. split; [exact Hrun |].
  split; [| split; reflexivity].
  simpl. apply full_table. apply Permutation_length. exact Hperm.
Qed.

Lemma select_run_row_times :
  exists out,
    select_run better processes = Ret out
    /\ length (out_schedule out) = length processes
    /\ Forall is_Some (out_schedule out)
    /\ forall k row, out_schedule out !! k = Some (Some row) ->
         row_times (exit_before (out_schedule out) k) row.
Proof.
  destruct select_run_output as (jobs & out & Hperm & Hrun & Hsched & _).
  exists out. split; [exact Hrun |]. rewrite Hsched.
  split; [| split].
  - rewrite length_fmap, served_rows_length.
    apply Permutation_length. exact Hperm.
  - apply Forall_fmap. apply Forall_forall. intros r _. simpl. eauto.
  - intros k row Hk. rewrite list_lookup_fmap in Hk.
    destruct (sv_rows (served jobs) !! k) as [r|] eqn:Hr; [| discriminate].
    injection Hk as ->. apply served_row_times. exact Hr.
Qed.
End SelectRows.

(** C5 (as amended). Every scheduler below returns a table with one assigned
    row per process, and in every row the turnaround time is
    waitTime + burst. The completion time is arrival + waitTime + burst in the
    rows of FCFS; in the rows of SJF and of priority scheduling it is
    serviceTime + waitTime + burst, where serviceTime is the completion time
    in the row before (0 for the first row). *)
Theorem recorded_turnaround_and_exit (processes : list Process) :
  (exists out,
     FCFSSchedule processes = Ret out
     /\ length (out_schedule out) = length processes
     /\ Forall is_Some (out_schedule out)
     /\ forall i row, out_schedule out !! i = Some (Some row) ->
          row_times (rowArrival row) row
          /\ exists p, processes !! i = Some p /\ row_of_process row p)
  /\ (exists out,
        SJFSchedule processes = Ret out
        /\ length (out_schedule out) = length processes
        /\ Forall is_Some (out_schedule out)
        /\ forall k row, out_schedule out !! k = Some (Some row) ->
             row_times (exit_before (out_schedule out) k) row)
  /\ (exists out,
        SJFPrioritySchedule processes = Ret out
        /\ length (out_schedule out) = length processes
        /\ Forall is_Some (out_schedule out)
        /\ forall k row, out_schedule out !! k = Some (Some row) ->
             row_times (exit_before (out_schedule out) k) row).
Proof.
  split; [| split].
  - eexists. split; [apply FCFSSchedule_state |].
    cbn [report out_schedule schedule fcfs_state].
    rewrite full_table by reflexivity.
    split; [| split].
    + rewrite length_fmap. apply fcfs_served_rows_length.
    + apply Forall_fmap. apply Forall_forall. intros r _. simpl. eauto.
    + intros i row Hi. rewrite list_lookup_fmap in Hi.
      destruct (sv_rows (fcfs_served processes) !! i) as [r|] eqn:Hr;
        [| discriminate].
      injection Hi as ->. apply fcfs_served_row_times. exact Hr.
  - apply (select_run_row_times sjf_better _ sjf_better_key).
  - apply (select_run_row_times priority_better _ priority_better_key).
Qed.

(** C5 (as stated) fails. On the processes (id 1, burst 5, arrival 0) and
    (id 2, burst 3, arrival 1), SJF serves process 2 at time 5 and records
    wait time 0 and completion time 5 + 0 + 3 = 8 in its row, while
    arrival + waitTime + burst is 1 + 0 + 3 = 4. *)
Lemma sjf_exit_is_not_arrival_based :
  exists out row,
    SJFSchedule [P 1 5 0; P 2 3 1] = Ret out
    /\ out_schedule out !! 1%nat = Some (Some row)
    /\ rowExit row = 8
    /\ rowArrival row + rowWait row + rowBurst row = 4
    /\ add64 (add64 (rowArrival row) (rowWait row)) (rowBurst row) = 4.
Proof.
  eexists _, _. split; [vm_compute; reflexivity |].
  split; [reflexivity |]. repeat split; reflexivity.
Qed.

(* ===================================================================== *)
(** ** Round-robin on a single process that arrives at time 0 *)
(* ===================================================================== *)


Section SingleProcess.
Variable p : Process.
Hypothesis arrival_zero : ArrivalTime p = 0.

Variable st : Locals.
Variable m : nat.
Hypothesis pending : copyProcesses st = [p].
Hypothesis units : remainingBurst st !! ProcessID p = Some (Z.of_nat (S m)).
Hypothesis time_nonneg : 0 <= serviceTime st.
Hypothesis time_bound : serviceTime st + Z.of_nat (S m) < two63.








End SingleProcess.





(* ===================================================================== *)
(** ** Round-robin on valid processes *)
(* ===================================================================== *)

Lemma sumZ_cons x l : sumZ (x :: l) = x + sumZ l.
Proof. reflexivity. Qed.

Lemma sumZ_map_ext {A : Type} (f g : A -> Z) (l : list A) :
  (forall x, x ∈ l -> f x = g x) -> sumZ (map f l) = sumZ (map g l).
Proof.
  induction l as [|x l IH]; intros H; [reflexivity |].
  cbn [map]. rewrite !sumZ_cons, IH.
  - rewrite H; [reflexivity | left].
  - intros y Hy. apply H. right. exact Hy.
Qed.

(** The pending list around the index of a process, when ids are distinct. *)
Lemma pending_split (cp : list Process) j p :
  NoDup (ProcessID <$> cp) -> cp !! j = Some p ->
  exists l1 l2,
    cp = l1 ++ p :: l2
    /\ remove_at j cp = l1 ++ l2
    /\ (forall q, q ∈ l1 ++ l2 -> ProcessID q <> ProcessID p)
    /\ NoDup (ProcessID <$> l1 ++ l2).
Proof.
  intros Hnd Hp. exists (take j cp), (drop (S j) cp).
  pose proof (take_drop_middle cp j p Hp) as Hmid.
  split; [symmetry; exact Hmid |]. split; [reflexivity |].
  rewrite <- Hmid in Hnd. rewrite fmap_app, fmap_cons in Hnd.
  apply NoDup_app in Hnd as (Hnd1 & Hdisj & Hnd2).
  apply NoDup_cons in Hnd2 as (Hnotin & Hnd2).
  split.
  - intros q Hq Heq. apply elem_of_app in Hq as [Hq|Hq].
    + apply (Hdisj (ProcessID q)).
      * apply list_elem_of_fmap. exists q. auto.
      * rewrite Heq. left.
    + apply Hnotin. rewrite <- Heq.
      apply list_elem_of_fmap. exists q. auto.
  - rewrite fmap_app. apply NoDup_app. split; [exact Hnd1 |].
    split; [| exact Hnd2].
    intros x Hx Hx'. apply (Hdisj x Hx). right. exact Hx'.
Qed.

Section RoundRobinSlice.
Variable st : Locals.
Variable p : Process.
Variable r : Z.
Hypothesis units : remainingBurst st !! ProcessID p = Some r.
Hypothesis units_range : 0 < r < two63.

Lemma slice_burstTime : rr_burstTime st p = 1.
Proof using All.
  unfold rr_burstTime, map_get. rewrite units. simpl default.
  unfold min. destruct (Z.ltb_spec r 1); [lia | reflexivity].
Qed.

Lemma slice_remainingBurst :
  rr_remainingBurst st p = <[ProcessID p := r - 1]> (remainingBurst st).
Proof using All.
  unfold rr_remainingBurst. rewrite slice_burstTime.
  unfold map_get. rewrite units. simpl default. f_equal.
  unfold sub64. apply wrap64_id. unfold int64, two63 in *. lia.
Qed.

Lemma slice_finished : rr_finished st p = (r - 1 =? 0).
Proof using All.
  unfold rr_finished. rewrite slice_remainingBurst.
  unfold map_get. rewrite lookup_insert_eq. reflexivity.
Qed.

(** Both assignments to [waitingTime] give [serviceTime - arrival]. *)
Lemma slice_waitingTime :
  rr_waitingTime st p = sub64 (serviceTime st) (ArrivalTime p).
Proof using All.
  unfold rr_waitingTime. rewrite slice_burstTime.
  destruct (rr_finished st p); [| reflexivity].
  unfold sub64, add64. rewrite_strat (bottomup (hints wrap64)).
  f_equal. lia.
Qed.
End RoundRobinSlice.

(** A slice of an arrived pending process preserves the invariant. *)
Lemma rr_locals_inv processes st j p sched :
  Forall (fun p => 0 < BurstDuration p < two63) processes ->
  rr_inv processes st ->
  copyProcesses st !! j = Some p ->
  ArrivalTime p <= serviceTime st ->
  rr_inv processes (rr_locals st j p sched).
Proof.
  intros Hbursts (Hnd & Hcp & Hunits & Htime & Hent & ws & Hws & Hnonneg)
    Hp Harr.
  assert (Hin : p ∈ copyProcesses st) by (eapply list_elem_of_lookup_2; eauto).
  destruct (Hcp p Hin) as (Hpin & r & Hr & Hr0 & Hrb).
  assert (Hrange : 0 < r < two63).
  { rewrite Forall_forall in Hbursts. specialize (Hbursts p Hpin). lia. }
  pose proof (slice_burstTime st p r Hr Hrange) as HbT.
  pose proof (slice_remainingBurst st p r Hr Hrange) as Hrem.
  pose proof (slice_finished st p r Hr Hrange) as Hfin.
  pose proof (slice_waitingTime st p r Hr Hrange) as Hw.
  destruct (pending_split (copyProcesses st) j p Hnd Hp)
    as (l1 & l2 & Hsplit & Hrm & Hids & Hnd').
  assert (Hothers : forall q, q ∈ l1 ++ l2 ->
            rr_remainingBurst st p !! ProcessID q
            = remainingBurst st !! ProcessID q).
  { intros q Hq. rewrite Hrem. apply lookup_insert_ne.
    intros Heq. apply (Hids q Hq). symmetry. exact Heq. }
  assert (Hold : forall q, q ∈ l1 ++ l2 -> q ∈ copyProcesses st).
  { intros q Hq. rewrite Hsplit. apply elem_of_app.
    apply elem_of_app in Hq as [Hq|Hq]; [left | right; right]; exact Hq. }
  unfold rr_inv.
  cbn [rr_locals copyProcesses remainingBurst gantt serviceTime totalWait].
  split; [| split; [| split; [| split; [| split]]]].
  - destruct (rr_finished st p); [rewrite Hrm |]; assumption.
  - intros q Hq.
    assert (Hcases : q ∈ l1 ++ l2 \/ (q = p /\ rr_finished st p = false)).
    { destruct (rr_finished st p).
      - left. rewrite <- Hrm. exact Hq.
      - rewrite Hsplit in Hq. apply elem_of_app in Hq as [Hq|Hq].
        + left. apply elem_of_app. left. exact Hq.
        + apply elem_of_cons in Hq as [->|Hq]; [right; auto |].
          left. apply elem_of_app. right. exact Hq. }
    destruct Hcases as [Hq'|[-> Hnf]].
    + rewrite (Hothers q Hq'). apply Hcp, Hold, Hq'.
    + split; [exact Hpin |]. exists (r - 1). rewrite Hrem.
      split; [apply lookup_insert_eq |].
      rewrite Hfin in Hnf. apply Z.eqb_neq in Hnf. lia.
  - rewrite length_app. cbn [length]. rewrite <- Hunits.
    unfold pending_units.
    cbn [rr_locals copyProcesses remainingBurst].
    assert (Hsum : forall l, (forall q, q ∈ l -> q ∈ l1 ++ l2) ->
              sumZ (map (fun q => map_get (rr_remainingBurst st p)
                                    (ProcessID q)) l)
              = sumZ (map (fun q => map_get (remainingBurst st)
                                      (ProcessID q)) l)).
    { intros l Hl. apply sumZ_map_ext. intros q Hq.
      unfold map_get. rewrite (Hothers q (Hl q Hq)). reflexivity. }
    assert (Hp' : map_get (rr_remainingBurst st p) (ProcessID p) = r - 1).
    { unfold map_get. rewrite Hrem, lookup_insert_eq. reflexivity. }
    assert (Hp0 : map_get (remainingBurst st) (ProcessID p) = r).
    { unfold map_get. rewrite Hr. reflexivity. }
    destruct (rr_finished st p) eqn:Hf.
    + symmetry in Hfin. apply Z.eqb_eq in Hfin.
      rewrite Hrm, Hsplit, !map_app, !sumZ_app. cbn [map].
      rewrite sumZ_cons, Hp0.
      rewrite (Hsum l1), (Hsum l2); [lia | |];
        intros q Hq; apply elem_of_app; auto.
    + rewrite Hsplit, !map_app, !sumZ_app. cbn [map].
      rewrite !sumZ_cons, Hp0, Hp'.
      rewrite (Hsum l1), (Hsum l2); [lia | |];
        intros q Hq; apply elem_of_app; auto.
  - unfold rr_completion. rewrite Htime, length_app. cbn [length].
    unfold add64. rewrite wrap64_add_l. f_equal. lia.
  - intros k ts Hk.
    destruct (decide (k < length (gantt st))%nat) as [Hlt|Hge].
    + rewrite lookup_app_l in Hk by exact Hlt. apply Hent. exact Hk.
    + rewrite lookup_app_r in Hk by lia.
      destruct (k - length (gantt st))%nat as [|d] eqn:Hd; [| discriminate].
      assert (k = length (gantt st)) as -> by lia.
      injection Hk as <-. exists p.
      split; [exact Hpin |]. split; [reflexivity |].
      split; [rewrite <- Htime; exact Harr |].
      unfold width, rr_timeslice, rr_start, rr_turnaround.
      cbn [Start Stop]. rewrite Hw, HbT, Htime.
      unfold sub64, add64. split.
      * rewrite_strat (bottomup (hints wrap64)). f_equal. lia.
      * rewrite_strat (bottomup (hints wrap64)). f_equal. lia.
  - exists (ws ++ [rr_waitingTime st p]). split.
    + rewrite f64_sum_snoc, Hws. reflexivity.
    + intros Harrs. apply Forall_app. split; [apply Hnonneg, Harrs |].
      apply Forall_singleton. rewrite Hw.
      rewrite Forall_forall in Harrs. specialize (Harrs p Hpin).
      pose proof (wrap64_range (Z.of_nat (length (gantt st)))) as Ht.
      rewrite <- Htime in Ht.
      unfold sub64. rewrite wrap64_id; [lia |].
      unfold int64, two63 in *. lia.
Qed.

(** Every returning pass through the body of the scan preserves the
    invariant. *)
Lemma rr_body_inv processes n j st r :
  Forall (fun p => 0 < BurstDuration p < two63) processes ->
  rr_body n j st = Ret r -> rr_inv processes st ->
  match r with Continue st' | Break st' => rr_inv processes st' end.
Proof.
  intros Hbursts Hbody Hinv. unfold rr_body, rr_step in Hbody.
  destruct (copyProcesses st !! j) as [p|] eqn:Hp; [| discriminate].
  destruct (Z.leb_spec (ArrivalTime p) (serviceTime st)) as [Harr|Harr].
  - destruct (store_row _ _ _) as [sched| |]; try discriminate.
    cbn [mbind exec_bind] in Hbody. injection Hbody as <-.
    destruct (rr_finished st p);
      apply rr_locals_inv; assumption.
  - injection Hbody as <-. exact Hinv.
Qed.

Lemma rr_inv_init processes :
  rr_valid processes -> rr_inv processes (init_copy processes).
Proof.
  intros (Hnd & Hbursts). unfold rr_inv.
  cbn [init_copy init_locals copyProcesses remainingBurst gantt serviceTime
       totalWait length].
  split; [exact Hnd |]. split; [| split; [| split; [| split]]].
  - intros p Hp. split; [exact Hp |]. exists (BurstDuration p).
    split; [apply init_remaining_lookup; assumption |].
    rewrite Forall_forall in Hbursts. specialize (Hbursts p Hp). lia.
  - unfold pending_units. cbn [init_copy copyProcesses remainingBurst].
    rewrite Z.add_0_l. apply sumZ_map_ext. intros p Hp.
    unfold map_get. rewrite init_remaining_lookup by assumption. reflexivity.
  - reflexivity.
  - intros k ts Hk. discriminate.
  - exists []. split; [reflexivity |]. intros _. constructor.
Qed.

(** Whatever [RRSchedule] returns on valid processes: one timeline entry per
    unit of burst, entry [k] being a slice run at time [k]; and an average
    wait that is the quotient of a sum of the waits of the slices. *)
Lemma RRSchedule_valid_output processes fuel out :
  rr_valid processes ->
  RRSchedule fuel processes = Ret out ->
  Z.of_nat (length (out_gantt out)) = sumZ (map BurstDuration processes)
  /\ (forall k ts, out_gantt out !! k = Some ts -> rr_entry processes k ts)
  /\ exists ws,
       aveWait out
       = f64_div (f64_sum ws) (f64_of_int (Z.of_nat (length processes)))
       /\ (Forall (fun p => 0 <= ArrivalTime p) processes ->
           Forall (fun w => 0 <= w) ws).
Proof.
  intros Hvalid Hrun. unfold RRSchedule in Hrun.
  destruct (while_pending _ _ _) as [st| |] eqn:Hloop; try discriminate.
  cbn [mbind exec_bind] in Hrun. injection Hrun as <-.
  destruct (while_pending_ret (rr_inv processes)
              (rr_pass (length processes))) with
    (fuel := fuel) (st := init_copy processes) (st' := st)
    as ((_ & _ & Hunits & _ & Hent & ws & Hws & Hnonneg) & Hnil).
  - intros s s' Hs _ Hpass. unfold rr_pass in Hpass.
    eapply for_range_brk_ret; [exact Hs | | exact Hpass].
    intros j t r Hbody Ht. eapply rr_body_inv; eauto. apply Hvalid.
  - apply rr_inv_init. exact Hvalid.
  - exact Hloop.
  - cbn [report out_gantt aveWait].
    unfold pending_units in Hunits. rewrite Hnil in Hunits.
    cbn [map] in Hunits. change (sumZ []) with 0 in Hunits.
    split; [lia |]. split; [exact Hent |].
    exists ws. rewrite Hws. auto.
Qed.

(* ===================================================================== *)
(** ** Round-robin returns when every process is there at time 0 *)
(* ===================================================================== *)

Lemma sumZ_map_nonneg {A : Type} (f : A -> Z) (l : list A) :
  (forall x, x ∈ l -> 0 <= f x) -> 0 <= sumZ (map f l).
Proof.
  induction l as [|x l IH]; intros H; [cbn; lia |].
  cbn [map]. rewrite sumZ_cons.
  assert (0 <= f x) by (apply H; left).
  assert (0 <= sumZ (map f l)) by (apply IH; intros y Hy; apply H; right; exact Hy).
  lia.
Qed.

Lemma sumZ_map_le {A : Type} (f : A -> Z) (b : Z) (l : list A) :
  Forall (fun x => f x <= b) l -> sumZ (map f l) <= Z.of_nat (length l) * b.
Proof.
  induction 1 as [|x l Hx _ IH]; [cbn; lia |].
  cbn [map length]. rewrite sumZ_cons. lia.
Qed.

Lemma pending_units_nonneg processes st :
  rr_inv processes st -> 0 <= pending_units st.
Proof.
  intros (_ & Hcp & _). unfold pending_units.
  apply sumZ_map_nonneg. intros p Hp.
  destruct (Hcp p Hp) as (_ & r & Hr & Hr0 & _).
  unfold map_get. rewrite Hr. simpl default. lia.
Qed.

(** The clock is the number of slices run so far, and has not wrapped. *)
Lemma rr_clock processes st :
  sumZ (map BurstDuration processes) < two63 ->
  rr_inv processes st ->
  serviceTime st = Z.of_nat (length (gantt st))
  /\ Z.of_nat (length (gantt st)) <= sumZ (map BurstDuration processes).
Proof.
  intros Hsum Hinv. pose proof (pending_units_nonneg _ _ Hinv) as Hpos.
  destruct Hinv as (_ & _ & Hunits & Htime & _).
  split; [| lia]. rewrite Htime. apply wrap64_id.
  unfold int64, two63 in *. lia.
Qed.

(** With every process there at time 0, the body of the scan runs a slice of
    the process at index [j]. *)
Lemma rr_body_ready processes st j :
  Forall (fun p => 0 < BurstDuration p < two63) processes ->
  rr_all_arrived processes ->
  rr_ready processes st ->
  (j < length (copyProcesses st))%nat ->
  exists r, rr_body (length processes) j st = Ret r /\
    match r with
    | Continue st' =>
        rr_ready processes st'
        /\ length (copyProcesses st') = length (copyProcesses st)
        /\ length (gantt st') = S (length (gantt st))
    | Break st' =>
        rr_ready processes st'
        /\ length (gantt st') = S (length (gantt st))
    end.
Proof.
  intros Hbursts (Harrs & Hsum) (Hinv & Hsched & Hlen) Hj.
  destruct (lookup_lt_is_Some_2 _ _ Hj) as (p & Hp).
  assert (Hin : p ∈ copyProcesses st) by (eapply list_elem_of_lookup_2; eauto).
  assert (Hpin : p ∈ processes) by (apply Hinv; exact Hin).
  assert (Harr : ArrivalTime p <= serviceTime st).
  { destruct (rr_clock _ _ Hsum Hinv) as (-> & _).
    rewrite Forall_forall in Harrs. specialize (Harrs p Hpin). lia. }
  unfold rr_body, rr_step. rewrite Hp.
  destruct (Z.leb_spec (ArrivalTime p) (serviceTime st)) as [_|Hlt]; [| lia].
  unfold store_row. rewrite decide_True by lia.
  cbn [mbind exec_bind].
  set (sched := <[_ := _]> (schedule st)).
  assert (Hsched' : length sched = length processes).
  { unfold sched. rewrite length_insert. exact Hsched. }
  pose proof (rr_locals_inv processes st j p sched Hbursts Hinv Hp Harr)
    as Hinv'.
  eexists. split; [reflexivity |].
  destruct (rr_finished st p) eqn:Hfin.
  - split; [| cbn [rr_locals gantt]; rewrite length_app; cbn [length]; lia].
    split; [exact Hinv' |]. split; [exact Hsched' |].
    cbn [rr_locals copyProcesses]. rewrite Hfin.
    rewrite remove_at_length by exact Hj. lia.
  - split; [| split].
    + split; [exact Hinv' |]. split; [exact Hsched' |].
      cbn [rr_locals copyProcesses]. rewrite Hfin. exact Hlen.
    + cbn [rr_locals copyProcesses]. rewrite Hfin. reflexivity.
    + cbn [rr_locals gantt]. rewrite length_app. cbn [length]. lia.
Qed.

(** So a pass over a non-empty pending list returns and has run a slice. *)
Lemma rr_pass_progress processes st :
  Forall (fun p => 0 < BurstDuration p < two63) processes ->
  rr_all_arrived processes ->
  rr_ready processes st ->
  copyProcesses st <> [] ->
  exists st', rr_pass (length processes) st = Ret st'
    /\ rr_ready processes st'
    /\ (length (gantt st) < length (gantt st'))%nat.
Proof.
  intros Hbursts Harrs Hready Hne. unfold rr_pass.
  apply (for_range_brk_inv
           (fun j t => rr_ready processes t
                       /\ length (copyProcesses t) = length (copyProcesses st)
                       /\ length (gantt t) = (length (gantt st) + j)%nat)).
  - split; [exact Hready |]. split; [reflexivity | lia].
  - intros j t Hj (Ht & Hcp & Hg).
    destruct (rr_body_ready processes t j Hbursts Harrs Ht) as (r & Hr & Hpost);
      [lia |].
    exists r. split; [exact Hr |].
    destruct r as [t'|t'].
    + destruct Hpost as (Ht' & Hcp' & Hg').
      split; [exact Ht' |]. split; lia.
    + destruct Hpost as (Ht' & Hg'). split; [exact Ht' | lia].
  - intros t (Ht & _ & Hg). split; [exact Ht |].
    destruct (copyProcesses st); [congruence |]. cbn [length] in Hg. lia.
Qed.

Lemma rr_ready_init processes :
  rr_valid processes -> rr_ready processes (init_copy processes).
Proof.
  intros Hvalid. split; [apply rr_inv_init; exact Hvalid |].
  cbn [init_copy init_locals schedule copyProcesses].
  split; [apply length_replicate | lia].
Qed.

(** [RRSchedule] returns within one pass per unit of burst. *)
Lemma RRSchedule_returns processes fuel :
  rr_valid processes ->
  rr_all_arrived processes ->
  (Z.to_nat (sumZ (map BurstDuration processes)) <= fuel)%nat ->
  exists out, RRSchedule fuel processes = Ret out.
Proof.
  intros Hvalid Harrs Hfuel.
  destruct (while_pending_inv (rr_ready processes)
              (fun st => (Z.to_nat (sumZ (map BurstDuration processes))
                          - length (gantt st))%nat)
              (rr_pass (length processes))) with
    (fuel := fuel) (st := init_copy processes)
    as (st & Hrun & _).
  - intros st Hst Hne.
    destruct (rr_pass_progress processes st) as (st' & Hpass & Hst' & Hlt);
      [apply Hvalid | exact Harrs | exact Hst | exact Hne |].
    exists st'. split; [exact Hpass |]. split; [exact Hst' |].
    destruct Hst' as (Hinv' & _).
    pose proof (rr_clock _ _ (proj2 Harrs) Hinv') as (_ & Hle). lia.
  - apply rr_ready_init. exact Hvalid.
  - lia.
  - unfold RRSchedule. rewrite Hrun. cbn [mbind exec_bind]. eauto.
Qed.

(* ===================================================================== *)
(** ** Signs of [float64] sums and quotients *)
(* ===================================================================== *)


Lemma f64_nonneg_sign_ok x : f64_sign_ok x -> f64_nonneg x = true.
Proof. destruct x as [s|s| |s m e]; simpl; try intros ->; try reflexivity; contradiction. Qed.

Lemma digits2_pos_bounds p :
  2 ^ (Zpos (digits2_pos p) - 1) <= Zpos p < 2 ^ Zpos (digits2_pos p).
Proof.
  induction p as [p IH|p IH|]; cbn [digits2_pos].
  - rewrite Pos2Z.inj_succ.
    replace (Z.succ (Z.pos (digits2_pos p)) - 1)
      with (Z.succ (Z.pos (digits2_pos p) - 1)) by lia.
    rewrite !Z.pow_succ_r by lia. lia.
  - rewrite Pos2Z.inj_succ.
    replace (Z.succ (Z.pos (digits2_pos p)) - 1)
      with (Z.succ (Z.pos (digits2_pos p) - 1)) by lia.
    rewrite !Z.pow_succ_r by lia. lia.
  - simpl. lia.
Qed.

Lemma Zdigits2_bounds m :
  0 < m -> 2 ^ (Zdigits2 m - 1) <= m < 2 ^ Zdigits2 m /\ 0 < Zdigits2 m.
Proof.
  destruct m as [|p|p]; try lia. intros _. cbn [Zdigits2].
  split; [apply digits2_pos_bounds | lia].
Qed.

Lemma Zdigits2_le m k : 0 < m < 2 ^ k -> Zdigits2 m <= k.
Proof.
  intros [Hm Hk]. destruct (Zdigits2_bounds m Hm) as [[Hlo _] Hd].
  destruct (Z.le_gt_cases (Zdigits2 m) k) as [|Hgt]; [assumption |].
  assert (2 ^ k <= 2 ^ (Zdigits2 m - 1)).
  { apply Z.pow_le_mono_r; [lia |]. lia. }
  lia.
Qed.

Lemma shr_1_m mrs : 0 <= shr_m mrs -> shr_m (shr_1 mrs) = shr_m mrs / 2.
Proof.
  destruct mrs as [m r s]. cbn [shr_m]. intros Hm.
  destruct m as [|p|p]; [reflexivity | | lia].
  destruct p as [p|p|]; cbn [shr_1 shr_m].
  - apply (Z.div_unique _ _ _ 1); lia.
  - apply (Z.div_unique _ _ _ 0); lia.
  - reflexivity.
Qed.

Lemma shr_1_nonneg mrs : 0 <= shr_m mrs -> 0 <= shr_m (shr_1 mrs).
Proof.
  intros H. rewrite shr_1_m by assumption. apply Z.div_pos; lia.
Qed.

Lemma iter_shr_m n : forall mrs,
  0 <= shr_m mrs ->
  shr_m (SpecFloat.iter_pos shr_1 n mrs) = shr_m mrs / 2 ^ Zpos n.
Proof.
  induction n as [n IH|n IH|]; intros mrs Hm; cbn [SpecFloat.iter_pos].
  - assert (H1 : 0 <= shr_m (shr_1 mrs)) by (apply shr_1_nonneg; assumption).
    assert (H2 : 0 <= shr_m (SpecFloat.iter_pos shr_1 n (shr_1 mrs))).
    { rewrite IH by assumption. apply Z.div_pos; [lia |]. apply Z.pow_pos_nonneg; lia. }
    rewrite IH, IH, shr_1_m by assumption.
    rewrite !Z.div_div by (try apply Z.pow_pos_nonneg; lia).
    f_equal. rewrite Pos2Z.inj_xI.
    replace (2 * Z.pos n + 1) with (Z.succ (Z.pos n + Z.pos n)) by lia.
    rewrite Z.pow_succ_r by lia. rewrite Z.pow_add_r by lia. reflexivity.
  - assert (H2 : 0 <= shr_m (SpecFloat.iter_pos shr_1 n mrs)).
    { rewrite IH by assumption. apply Z.div_pos; [lia |]. apply Z.pow_pos_nonneg; lia. }
    rewrite IH, IH by assumption.
    rewrite !Z.div_div by (try apply Z.pow_pos_nonneg; lia).
    f_equal.
    replace (Z.pos n~0) with (Z.pos n + Z.pos n) by lia.
    rewrite Z.pow_add_r by lia. reflexivity.
  - rewrite shr_1_m by assumption. reflexivity.
Qed.

Lemma shr_record_of_loc_m m l : shr_m (shr_record_of_loc m l) = m.
Proof. destruct l as [|[| |]]; reflexivity. Qed.

(** The mantissa and the exponent after [shr_fexp]. *)
Lemma shr_fexp_spec m e l :
  0 <= m ->
  let n := Z.max 0 (fexp 53 1024 (Zdigits2 m + e) - e) in
  shr_m (fst (shr_fexp 53 1024 m e l)) = m / 2 ^ n
  /\ snd (shr_fexp 53 1024 m e l) = e + n.
Proof.
  intros Hm n. unfold shr_fexp, shr. subst n.
  destruct (fexp 53 1024 (Zdigits2 m + e) - e) as [|p|p] eqn:E; cbn [fst snd].
  - rewrite shr_record_of_loc_m. change (Z.max 0 0) with 0.
    rewrite Z.pow_0_r, Z.div_1_r. lia.
  - rewrite iter_shr_m by (rewrite shr_record_of_loc_m; exact Hm).
    rewrite shr_record_of_loc_m.
    replace (Z.max 0 (Z.pos p)) with (Z.pos p) by lia. auto.
  - rewrite shr_record_of_loc_m.
    replace (Z.max 0 (Z.neg p)) with 0 by lia.
    rewrite Z.pow_0_r, Z.div_1_r. lia.
Qed.

Lemma round_nearest_even_bounds m l :
  m <= round_nearest_even m l <= m + 1.
Proof.
  destruct l as [|[| |]]; cbn [round_nearest_even]; try lia.
  destruct (Z.even m); lia.
Qed.

(** Rounding a non-negative mantissa keeps the sign. *)
Lemma binary_round_aux_sign m e l :
  0 <= m -> f64_sign_ok (binary_round_aux 53 1024 false m e l).
Proof.
  intros Hm. unfold binary_round_aux.
  destruct (shr_fexp_spec m e l Hm) as [Hm1 He1].
  destruct (shr_fexp 53 1024 m e l) as [mrs1 e1]. cbn [fst snd] in *.
  set (m2 := round_nearest_even (shr_m mrs1) (loc_of_shr_record mrs1)).
  assert (Hm2 : 0 <= m2).
  { pose proof (round_nearest_even_bounds (shr_m mrs1) (loc_of_shr_record mrs1)).
    assert (0 <= shr_m mrs1).
    { rewrite Hm1. apply Z.div_pos; [lia |]. apply Z.pow_pos_nonneg; lia. }
    unfold m2. lia. }
  destruct (shr_fexp_spec m2 e1 loc_Exact Hm2) as [Hm3 He3].
  destruct (shr_fexp 53 1024 m2 e1 loc_Exact) as [mrs3 e3]. cbn [fst snd] in *.
  assert (0 <= shr_m mrs3).
  { rewrite Hm3. apply Z.div_pos; [lia |]. apply Z.pow_pos_nonneg; lia. }
  destruct (shr_m mrs3) as [|p|p]; [exact I | | lia].
  destruct (e3 <=? 1024 - 53); reflexivity.
Qed.


Lemma binary_normalize_sign z e :
  0 <= z -> f64_sign_ok (binary_normalize 53 1024 z e false).
Proof.
  intros Hz. destruct z as [|p|p]; [exact I | | lia].
  cbn [binary_normalize]. unfold binary_round.
  destruct (shl_align p e _) as [mz ez].
  apply binary_round_aux_sign. lia.
Qed.

Lemma f64_of_int_sign z : 0 <= z -> f64_sign_ok (f64_of_int z).
Proof. apply binary_normalize_sign. Qed.

Lemma f64_add_sign x y :
  f64_sign_ok x -> f64_sign_ok y -> f64_sign_ok (f64_add x y).
Proof.
  unfold f64_add.
  destruct x as [sx|sx| |sx mx ex], y as [sy|sy| |sy my ey];
    cbn [f64_sign_ok SFadd]; intros Hx Hy; subst; try contradiction;
    try reflexivity; try exact I.
  - destruct sx, sy; exact I.
  - cbn [cond_Zopp]. apply binary_normalize_sign. lia.
Qed.

Lemma f64_sum_sign ws : Forall (fun w => 0 <= w) ws -> f64_sign_ok (f64_sum ws).
Proof.
  induction ws as [|w ws IH] using rev_ind; intros Hws; [exact I |].
  apply Forall_app in Hws as [Hws Hw]. rewrite Forall_singleton in Hw.
  unfold f64_sum in *. rewrite fold_left_app. cbn [fold_left].
  apply f64_add_sign; [apply IH; exact Hws | apply f64_of_int_sign; exact Hw].
Qed.

(** The quotient and its non-negativity in the core of the division. *)
Lemma SFdiv_core_binary_nonneg m1 e1 m2 e2 :
  0 <= fst (fst (SFdiv_core_binary 53 1024 (Zpos m1) e1 (Zpos m2) e2)).
Proof.
  unfold SFdiv_core_binary.
  set (s := _ - _ - _).
  set (m' := match s with Z0 => _ | Z.pos _ => _ | Z.neg _ => _ end).
  assert (Hm' : 0 <= m').
  { unfold m'. destruct s; [lia | | lia]. apply Z.shiftl_nonneg. lia. }
  pose proof (Z_div_mod m' (Zpos m2) ltac:(lia)) as Hdiv.
  destruct (Z.div_eucl m' (Z.pos m2)) as [q r]. cbn [fst].
  destruct Hdiv as [Heq Hr]. nia.
Qed.

(** A non-negative float divided by a positive finite one is non-negative. *)
Lemma f64_div_sign x my ey :
  f64_sign_ok x -> f64_sign_ok (f64_div x (S754_finite false my ey)).
Proof.
  unfold f64_div.
  destruct x as [sx|sx| |sx mx ex]; cbn [f64_sign_ok SFdiv]; intros Hx;
    subst; try contradiction; try reflexivity; try exact I.
  pose proof (SFdiv_core_binary_nonneg mx ex my ey) as Hq.
  destruct (SFdiv_core_binary 53 1024 (Z.pos mx) ex (Z.pos my) ey)
    as [[mz ez] lz]. cbn [fst] in Hq. cbn [xorb].
  apply binary_round_aux_sign. exact Hq.
Qed.

(** Rounding a positive mantissa in the normal range gives a finite float. *)
Lemma binary_round_aux_finite m e l :
  0 < m -> -1074 <= e <= 971 -> Zdigits2 m + e <= 1023 ->
  exists m' e', binary_round_aux 53 1024 false m e l = S754_finite false m' e'.
Proof.
  intros Hm He Hde. unfold binary_round_aux.
  destruct (shr_fexp_spec m e l ltac:(lia)) as [Hm1 He1].
  destruct (shr_fexp 53 1024 m e l) as [mrs1 e1]. cbn [fst snd] in *.
  destruct (Zdigits2_bounds m Hm) as [[Hlo Hhi] Hd].
  set (D := Zdigits2 m) in *.
  set (k1 := Z.max 0 (fexp 53 1024 (D + e) - e)) in *.
  assert (Hk1 : 0 <= k1 < D /\ k1 <= Z.max 0 (D - 53)).
  { unfold k1, fexp, emin. lia. }
  assert (Hp1 : 0 < 2 ^ k1) by (apply Z.pow_pos_nonneg; lia).
  assert (Hm1lo : 0 < shr_m mrs1).
  { rewrite Hm1. apply Z.div_str_pos. split; [exact Hp1 |].
    transitivity (2 ^ (D - 1)); [| exact Hlo].
    apply Z.pow_le_mono_r; lia. }
  assert (Hm1hi : shr_m mrs1 < 2 ^ (D - k1)).
  { rewrite Hm1. apply Z.div_lt_upper_bound; [exact Hp1 |].
    rewrite <- Z.pow_add_r by lia.
    replace (k1 + (D - k1)) with D by lia. exact Hhi. }
  set (m2 := round_nearest_even (shr_m mrs1) (loc_of_shr_record mrs1)).
  pose proof (round_nearest_even_bounds (shr_m mrs1) (loc_of_shr_record mrs1))
    as Hm2. fold m2 in Hm2.
  destruct (shr_fexp_spec m2 e1 loc_Exact ltac:(lia)) as [Hm3 He3].
  destruct (shr_fexp 53 1024 m2 e1 loc_Exact) as [mrs3 e3]. cbn [fst snd] in *.
  assert (Hm2pos : 0 < m2) by lia.
  destruct (Zdigits2_bounds m2 Hm2pos) as [[Hlo2 Hhi2] Hd2].
  assert (HD2 : Zdigits2 m2 <= D - k1 + 1).
  { apply Zdigits2_le. split; [exact Hm2pos |].
    replace (D - k1 + 1) with (Z.succ (D - k1)) by lia.
    rewrite Z.pow_succ_r by lia. lia. }
  set (D2 := Zdigits2 m2) in *.
  set (k2 := Z.max 0 (fexp 53 1024 (D2 + e1) - e1)) in *.
  assert (Hk2 : 0 <= k2 < D2 /\ e1 + k2 <= 971).
  { unfold k2, fexp, emin. lia. }
  assert (Hp2 : 0 < 2 ^ k2) by (apply Z.pow_pos_nonneg; lia).
  assert (Hm3pos : 0 < shr_m mrs3).
  { rewrite Hm3. apply Z.div_str_pos. split; [exact Hp2 |].
    transitivity (2 ^ (D2 - 1)); [| exact Hlo2].
    apply Z.pow_le_mono_r; lia. }
  destruct (shr_m mrs3) as [|p|p]; [lia | | lia].
  destruct (Z.leb_spec e3 (1024 - 53)) as [_|Hbad]; [eauto | lia].
Qed.

Lemma Pos_iter_xO p d : Zpos (Pos.iter xO p d) = Zpos p * 2 ^ Zpos d.
Proof.
  revert p. induction d as [|d IH] using Pos.peano_ind; intros p.
  - cbn [Pos.iter]. rewrite Z.pow_1_r. lia.
  - rewrite Pos.iter_succ. rewrite Pos2Z.inj_succ.
    rewrite Z.pow_succ_r by lia. rewrite Pos2Z.inj_xO, IH. lia.
Qed.

(** A positive [int64], and the length of a Go slice, converts to a
    positive finite [float64]. *)
Lemma f64_of_int_finite z :
  0 < z < two63 ->
  exists m e, f64_of_int z = S754_finite false m e.
Proof.
  intros Hz. destruct z as [|p|p]; try lia.
  unfold f64_of_int. cbn [binary_normalize]. unfold binary_round.
  pose proof (digits2_pos_bounds p) as [Hlo Hhi].
  assert (HD : Z.pos (digits2_pos p) <= 63).
  { apply (Zdigits2_le (Zpos p)). unfold two63 in Hz.
    change (2 ^ 63) with 9223372036854775808. lia. }
  set (D := Z.pos (digits2_pos p)) in *.
  unfold shl_align.
  replace (fexp 53 1024 (D + 0)) with (D - 53) by (unfold fexp, emin; lia).
  destruct (D - 53 - 0) as [|d|d] eqn:Hd.
  - apply binary_round_aux_finite; [lia | lia |].
    change (Zdigits2 (Z.pos p)) with D. lia.
  - apply binary_round_aux_finite; [lia | lia |].
    change (Zdigits2 (Z.pos p)) with D. lia.
  - apply binary_round_aux_finite; [lia | lia |].
    assert (Hle : Zdigits2 (Z.pos (Pos.iter xO p d)) <= 53).
    { apply Zdigits2_le. split; [lia |]. rewrite Pos_iter_xO.
      replace 53 with (D + Z.pos d) by lia.
      rewrite Z.pow_add_r by lia.
      apply Z.mul_lt_mono_pos_r; [apply Z.pow_pos_nonneg; lia | exact Hhi]. }
    lia.
Qed.

(** The average of non-negative integers over a positive count is a
    non-negative float, not NaN. *)
Lemma f64_average_nonneg ws n :
  Forall (fun w => 0 <= w) ws -> 0 < n < two63 ->
  f64_nonneg (f64_div (f64_sum ws) (f64_of_int n)) = true.
Proof.
  intros Hws Hn. destruct (f64_of_int_finite n Hn) as (m & e & ->).
  apply f64_nonneg_sign_ok, f64_div_sign, f64_sum_sign, Hws.
Qed.

(* ===================================================================== *)
(** ** The sign of the average wait *)
(* ===================================================================== *)

(** On bounded input the selecting schedulers never record a negative wait,
    whatever the order of service. *)
Lemma served_bounded A B jobs :
  0 <= A -> 0 <= B ->
  Forall (fun p => 0 <= ArrivalTime p <= A /\ 0 < BurstDuration p <= B) jobs ->
  Z.of_nat (length jobs) * (A + B) < two63 ->
  Forall (fun w => 0 <= w) (map rowWait (sv_rows (served jobs)))
  /\ 0 <= sv_wait (served jobs) <= A
  /\ 0 <= sv_time (served jobs) <= Z.of_nat (length jobs) * (A + B).
Proof.
  intros HA HB. induction jobs as [|x jobs IH] using rev_ind;
    intros Hall Hlen.
  - cbn. split; [constructor | lia].
  - apply Forall_app in Hall as [Hall Hx]. rewrite Forall_singleton in Hx.
    rewrite length_app in Hlen |- *. cbn [length] in Hlen |- *.
    rewrite Nat2Z.inj_add in Hlen |- *. change (Z.of_nat 1) with 1 in *.
    rewrite Z.mul_add_distr_r in Hlen |- *.
    set (K := Z.of_nat (length jobs) * (A + B)) in *.
    assert (HK : 0 <= K) by (unfold K; apply Z.mul_nonneg_nonneg; lia).
    destruct IH as (Hws & Hw & Ht); [exact Hall | lia |].
    rewrite served_snoc. cbn [serve sv_rows sv_wait sv_time].
    set (t := sv_time (served jobs)) in *.
    set (w := if t <? ArrivalTime x then sub64 (ArrivalTime x) t
              else sv_wait (served jobs)).
    assert (Hw' : 0 <= w <= A).
    { unfold w. destruct (Z.ltb_spec t (ArrivalTime x)); [| exact Hw].
      unfold sub64. rewrite wrap64_id; [lia |].
      unfold int64, two63 in *. lia. }
    assert (Hwb : add64 w (BurstDuration x) = w + BurstDuration x).
    { unfold add64. apply wrap64_id. unfold int64, two63 in *. lia. }
    split; [| split; [exact Hw' |]].
    + rewrite map_app. apply Forall_app. split; [exact Hws |].
      apply Forall_singleton. cbn [rowWait]. lia.
    + rewrite Hwb. unfold add64. rewrite wrap64_id; [lia |].
      unfold int64, two63 in *. lia.
Qed.

(** When FCFS never finds the processor idle it never records a negative
    wait. *)
Lemma fcfs_served_waits processes :
  fcfs_no_idle processes ->
  Forall (fun w => 0 <= w) (map rowWait (sv_rows (fcfs_served processes)))
  /\ 0 <= sv_wait (fcfs_served processes).
Proof.
  induction processes as [|x processes IH] using rev_ind; intros Hok.
  - cbn. split; [constructor | lia].
  - assert (Hprefix : fcfs_no_idle processes).
    { intros i p Hp Hpos.
      assert (Hi : (i < length processes)%nat) by (eapply lookup_lt_Some; eauto).
      specialize (Hok i p). rewrite lookup_app_l in Hok by exact Hi.
      unfold service_before in *. rewrite take_app_le in Hok by lia.
      apply Hok; assumption. }
    destruct (IH Hprefix) as [Hws Hw].
    specialize (Hok (length processes) x).
    rewrite lookup_app_r, Nat.sub_diag in Hok by lia.
    unfold service_before in Hok. rewrite take_app_length in Hok.
    rewrite <- fcfs_served_time in Hok.
    rewrite fcfs_served_snoc. cbn [fcfs_serve sv_rows sv_wait].
    set (t := sv_time (fcfs_served processes)) in *.
    set (w := if 0 <? ArrivalTime x then sub64 t (ArrivalTime x)
              else sv_wait (fcfs_served processes)).
    assert (Ht : int64 t).
    { unfold t. rewrite fcfs_served_time, sum64_wrap. apply wrap64_range. }
    assert (Hw' : 0 <= w).
    { unfold w. destruct (Z.ltb_spec 0 (ArrivalTime x)); [| exact Hw].
      specialize (Hok eq_refl ltac:(lia)).
      unfold sub64. rewrite wrap64_id; [lia |].
      unfold int64, two63 in *. lia. }
    split; [| exact Hw'].
    rewrite map_app. apply Forall_app. split; [exact Hws |].
    apply Forall_singleton. exact Hw'.
Qed.

Section SelectAverage.
Variable better : gmap Z Z -> Process -> Process -> bool.
Variable key : gmap Z Z -> Process -> Z.
Hypothesis better_key :
  forall rem p q, better rem p q = (key rem p <? key rem q).

Lemma select_run_average_nonneg A B processes :
  processes <> [] -> bounded_input A B processes ->
  exists out, select_run better processes = Ret out
              /\ f64_nonneg (aveWait out) = true.
Proof using All.
  intros Hne [Hall Hlen].
  destruct (select_run_output better key better_key processes)
    as (jobs & out & Hperm & Hrun & _ & _ & Have).
  exists out. split; [exact Hrun |]. rewrite Have.
  destruct processes as [|p0 ps] eqn:E; [congruence |]. rewrite <- E in *.
  assert (Hp0 : 0 <= ArrivalTime p0 <= A /\ 0 < BurstDuration p0 <= B).
  { rewrite Forall_forall in Hall. apply Hall. rewrite E. left. }
  assert (Hn : 0 < Z.of_nat (length processes)) by (rewrite E; cbn; lia).
  apply f64_average_nonneg.
  - apply (served_bounded A B); [lia | lia | |].
    + rewrite Hperm. exact Hall.
    + rewrite (Permutation_length Hperm). exact Hlen.
  - split; [exact Hn |]. nia.
Qed.
End SelectAverage.

(** C7 (as amended). On a non-empty list of processes with arrivals in
    [0, A] and bursts in (0, B], where [len * (A + B)] fits an [int64]:
    [SJFSchedule] and [SJFPrioritySchedule] return an average wait that is
    >= 0; so does [RRSchedule] whenever it returns (ids distinct), and it
    does return, within one pass per unit of burst, when every process is
    there at time 0; and so does [FCFSSchedule] when no process of positive
    arrival arrives after the bursts of the processes before it. *)
Theorem average_wait_nonneg (A B : Z) (processes : list Process) :
  processes <> [] ->
  bounded_input A B processes ->
  (exists out, SJFSchedule processes = Ret out
               /\ f64_nonneg (aveWait out) = true)
  /\ (exists out, SJFPrioritySchedule processes = Ret out
                  /\ f64_nonneg (aveWait out) = true)
  /\ (forall fuel out,
        NoDup (ProcessID <$> processes) ->
        RRSchedule fuel processes = Ret out ->
        f64_nonneg (aveWait out) = true)
  /\ (NoDup (ProcessID <$> processes) ->
      Forall (fun p => ArrivalTime p <= 0) processes ->
      exists out,
        RRSchedule (Z.to_nat (sumZ (map BurstDuration processes))) processes
        = Ret out
        /\ f64_nonneg (aveWait out) = true)
  /\ (exists out, FCFSSchedule processes = Ret out
                  /\ (fcfs_no_idle processes ->
                      f64_nonneg (aveWait out) = true)).
Proof.
  intros Hne Hb.
  split; [apply (select_run_average_nonneg sjf_better _ sjf_better_key A B);
          assumption |].
  split; [apply (select_run_average_nonneg priority_better _
                   priority_better_key A B); assumption |].
  destruct Hb as [Hall Hlen].
  destruct processes as [|p0 ps] eqn:E; [congruence |]. rewrite <- E in *.
  assert (Hp0 : 0 <= ArrivalTime p0 <= A /\ 0 < BurstDuration p0 <= B).
  { rewrite Forall_forall in Hall. apply Hall. rewrite E. left. }
  assert (Hn : 0 < Z.of_nat (length processes) < two63).
  { split; [rewrite E; cbn; lia | nia]. }
  assert (Hrr : forall fuel out,
            NoDup (ProcessID <$> processes) ->
            RRSchedule fuel processes = Ret out ->
            f64_nonneg (aveWait out) = true).
  { intros fuel out Hnd Hrun.
    destruct (RRSchedule_valid_output processes fuel out)
      as (_ & _ & ws & -> & Hws).
    - split; [exact Hnd |]. eapply Forall_impl; [exact Hall |].
      intros p Hp. cbn beta in Hp. split; [lia | nia].
    - exact Hrun.
    - apply f64_average_nonneg; [| exact Hn]. apply Hws.
      eapply Forall_impl; [exact Hall |]. intros p Hp. cbn beta in Hp. lia. }
  split; [exact Hrr |]. split.
  - intros Hnd Harrs.
    destruct (RRSchedule_returns processes
                (Z.to_nat (sumZ (map BurstDuration processes))))
      as (out & Hrun).
    + split; [exact Hnd |]. eapply Forall_impl; [exact Hall |].
      intros p Hp. cbn beta in Hp. split; [lia | nia].
    + split; [exact Harrs |].
      pose proof (sumZ_map_le BurstDuration B processes) as Hle.
      assert (0 <= Z.of_nat (length processes) * A) by nia.
      rewrite E in Hle |- *. rewrite <- E in Hle |- *.
      specialize (Hle ltac:(eapply Forall_impl; [exact Hall |];
                            intros p Hp; cbn beta in Hp; lia)).
      nia.
    + lia.
    + exists out. split; [exact Hrun |]. eapply Hrr; eassumption.
  - eexists. split; [apply FCFSSchedule_state |].
    intros Hidle. cbn [report aveWait fcfs_state totalWait].
    apply f64_average_nonneg; [| exact Hn].
    apply fcfs_served_waits. exact Hidle.
Qed.

Lemma average_wait_nonneg_witness :
  (exists out, SJFSchedule [P 1 5 0; P 2 3 1; P 3 2 2] = Ret out
               /\ f64_nonneg (aveWait out) = true)
  /\ (exists out, SJFPrioritySchedule [P 1 5 0; P 2 3 1; P 3 2 2] = Ret out
                  /\ f64_nonneg (aveWait out) = true)
  /\ (forall fuel out,
        NoDup (ProcessID <$> [P 1 5 0; P 2 3 1; P 3 2 2]) ->
        RRSchedule fuel [P 1 5 0; P 2 3 1; P 3 2 2] = Ret out ->
        f64_nonneg (aveWait out) = true)
  /\ (NoDup (ProcessID <$> [P 1 5 0; P 2 3 1; P 3 2 2]) ->
      Forall (fun p => ArrivalTime p <= 0) [P 1 5 0; P 2 3 1; P 3 2 2] ->
      exists out,
        RRSchedule
          (Z.to_nat (sumZ (map BurstDuration [P 1 5 0; P 2 3 1; P 3 2 2])))
          [P 1 5 0; P 2 3 1; P 3 2 2]
        = Ret out
        /\ f64_nonneg (aveWait out) = true)
  /\ (exists out, FCFSSchedule [P 1 5 0; P 2 3 1; P 3 2 2] = Ret out
                  /\ (fcfs_no_idle [P 1 5 0; P 2 3 1; P 3 2 2] ->
                      f64_nonneg (aveWait out) = true)).
Proof.
  apply (average_wait_nonneg 2 5 [P 1 5 0; P 2 3 1; P 3 2 2]).
  - discriminate.
  - split.
    + repeat (apply Forall_cons; split; [cbn; lia |]). apply Forall_nil_2.
    + vm_compute. reflexivity.
Defined.

(** C7 (as stated) fails. The single process with burst 1 and arrival 5 is
    valid; FCFS records the wait [0 - 5] for it and the average wait is the
    float -5, which is below 0. *)
Lemma fcfs_average_wait_negative :
  exists out,
    FCFSSchedule [P 1 1 5] = Ret out
    /\ aveWait out = SFopp (f64_of_int 5)
    /\ f64_nonneg (aveWait out) = false
    /\ SFltb (aveWait out) f64_zero = true.
Proof.
  eexists. split; [vm_compute; reflexivity |].
  repeat split; vm_compute; reflexivity.
Qed.

(* ===================================================================== *)
(** ** The widths of the timeline entries *)
(* ===================================================================== *)

Lemma sumZ_Permutation l l' : l ≡ₚ l' -> sumZ l = sumZ l'.
Proof.
  induction 1 as [|x l l' _ IH|x y l|l l' l'' _ IH1 _ IH2].
  - reflexivity.
  - rewrite !sumZ_cons, IH. reflexivity.
  - rewrite !sumZ_cons. lia.
  - lia.
Qed.

Lemma rows_fmap_Some (rs : list Row) : rows (Some <$> rs) = rs.
Proof.
  unfold rows. induction rs as [|r rs IH]; [reflexivity |].
  cbn. rewrite IH. reflexivity.
Qed.



Section SelectWidths.
Variable better : gmap Z Z -> Process -> Process -> bool.
Variable key : gmap Z Z -> Process -> Z.
Hypothesis better_key :
  forall rem p q, better rem p q = (key rem p <? key rem q).

End SelectWidths.



(* ===================================================================== *)
(** ** The schedulers in memory *)
(* ===================================================================== *)

Lemma preserved_refl (m : memory) : preserved m m.
Proof. intros a arr H. exact H. Qed.

Lemma preserved_trans (m1 m2 m3 : memory) :
  preserved m1 m2 -> preserved m2 m3 -> preserved m1 m3.
Proof. intros H12 H23 a arr H. apply H23, H12, H. Qed.

Lemma preserved_elems (m m' : memory) s :
  slice_ok m s -> preserved m m' -> elems m' s = elems m s /\ slice_ok m' s.
Proof.
  intros (arr & Harr & Hb) Hp. pose proof (Hp _ _ Harr) as Harr'.
  split.
  - unfold elems. rewrite Harr, Harr'. reflexivity.
  - exists arr. auto.
Qed.

Lemma elems_length (m : memory) s : slice_ok m s -> length (elems m s) = len s.
Proof.
  intros (arr & Harr & Hb1 & Hb2). unfold elems. rewrite Harr.
  rewrite length_take, length_drop. lia.
Qed.

(** Indexing a slice reads its elements. *)
Lemma load_elems (m : memory) s i :
  slice_ok m s ->
  load m s i = match elems m s !! i with Some p => Ret p | None => Panic end.
Proof.
  intros (arr & Harr & Hb1 & Hb2). unfold load, elems. rewrite Harr.
  destruct (decide (i < len s)%nat) as [Hi|Hi].
  - rewrite lookup_take_lt by exact Hi. rewrite lookup_drop. reflexivity.
  - rewrite lookup_take_ge by lia. reflexivity.
Qed.

(** A slice over an array, as the elements around its window. *)
Lemma slice_window (m : memory) s arr :
  m !! base s = Some arr -> (off s + cap s <= length arr)%nat ->
  (len s <= cap s)%nat ->
  arr = take (off s) arr ++ elems m s ++ drop (off s + len s) arr.
Proof.
  intros Harr Hb1 Hb2. unfold elems. rewrite Harr.
  rewrite <- (take_drop (off s) arr) at 1. f_equal.
  rewrite <- (take_drop (len s) (drop (off s) arr)) at 1. f_equal.
  rewrite drop_drop. reflexivity.
Qed.

(** Writing the elements after index [i] of a window one place down. *)
Lemma write_at_window (pre w post : list Process) i :
  (i < length w)%nat ->
  take (length w - 1)
    (drop (length pre)
       (write_at (pre ++ w ++ post) (length pre + i) (drop (S i) w)))
  = remove_at i w.
Proof.
  intros Hi. unfold write_at, remove_at.
  rewrite take_app_add', take_app_le by lia.
  rewrite <- app_assoc. rewrite drop_app_length.
  rewrite app_assoc. apply take_app_length'.
  rewrite length_app, length_take, length_drop. lia.
Qed.

(** Removing index [i] in place: the slice then holds the other elements,
    and no other array changes. *)
Lemma append_remove_spec (m : memory) s i :
  slice_ok m s -> (i < len s)%nat ->
  exists m' s',
    append_remove m s i = Ret (m', s')
    /\ base s' = base s
    /\ slice_ok m' s'
    /\ elems m' s' = remove_at i (elems m s)
    /\ forall a, a <> base s -> m' !! a = m !! a.
Proof.
  intros Hok Hi. pose proof (elems_length m s Hok) as Hlen.
  destruct Hok as (arr & Harr & Hb1 & Hb2).
  unfold append_remove. rewrite decide_True by exact Hi. rewrite Harr.
  eexists _, _. split; [reflexivity |]. cbn [base].
  assert (Hw : length (write_at arr (off s + i) (drop (S i) (elems m s)))
               = length arr).
  { unfold write_at. rewrite !length_app, length_take, !length_drop, Hlen.
    lia. }
  split; [reflexivity |]. split; [| split].
  - eexists. split; [apply lookup_insert_eq |]. cbn [off cap len].
    rewrite Hw. lia.
  - unfold elems at 1. cbn [base off len]. rewrite lookup_insert_eq.
    pose proof (slice_window m s arr Harr Hb1 Hb2) as Hwin.
    set (w := elems m s) in *.
    assert (Hpre : off s = length (take (off s) arr))
      by (rewrite length_take; lia).
    remember (take (off s) arr) as pre eqn:Epre.
    remember (drop (off s + len s) arr) as post eqn:Epost.
    clear Epre Epost Hw Harr Hb1.
    rewrite Hwin, Hpre, <- Hlen. apply write_at_window. lia.
  - intros a Ha. apply lookup_insert_ne. congruence.
Qed.

(** A [range] loop that reads the elements of a list in turn is a fold. *)
Lemma for_range_fold {St : Type} (f : St -> Process -> St)
    (body : nat -> St -> exec St) :
  forall l2 l1 s,
    (forall i p t, (l1 ++ l2) !! i = Some p -> body i t = Ret (f t p)) ->
    for_range body (length l1) (length l2) s = Ret (fold_left f l2 s).
Proof.
  induction l2 as [|x l2 IH]; intros l1 s Hbody; [reflexivity |].
  cbn [length for_range fold_left].
  rewrite (Hbody (length l1) x s)
    by (rewrite lookup_app_r, Nat.sub_diag by lia; reflexivity).
  cbn [mbind exec_bind].
  replace (S (length l1)) with (length (l1 ++ [x]))
    by (rewrite length_app; simpl; lia).
  apply IH. intros i p t Hi. apply Hbody.
  rewrite <- app_assoc in Hi. exact Hi.
Qed.

Lemma write_at_all (arr vals : list Process) :
  length vals = length arr -> write_at arr 0 vals = vals.
Proof.
  intros Hlen. unfold write_at. cbn [take app Nat.add].
  rewrite drop_ge by lia. apply app_nil_r.
Qed.

(** FCFS in memory reads the caller's slice and writes no array. *)
Lemma FCFSSchedule_mem_runs (m : memory) s :
  slice_ok m s ->
  runs_as m (FCFSSchedule_mem m s) (FCFSSchedule (elems m s)).
Proof.
  intros Hok. rewrite FCFSSchedule_state. unfold runs_as.
  exists m. split; [| apply preserved_refl].
  unfold FCFSSchedule_mem.
  rewrite (for_range_ext _ (fcfs_body (elems m s))).
  - rewrite <- (elems_length m s Hok).
    fold (fcfs_loop (elems m s)). rewrite fcfs_loop_state. reflexivity.
  - intros i st. unfold fcfs_body. rewrite (load_elems m s i Hok).
    destruct (elems m s !! i); reflexivity.
Qed.

(** The working copy after [make], [copy] and the filling of the map. *)
Lemma init_copy_mem_spec (m : memory) s :
  slice_ok m s ->
  exists ms,
    init_copy_mem m s = Ret ms
    /\ vars ms = init_copy (elems m s)
    /\ copy_inv m ms.
Proof.
  intros Hok. pose proof (elems_length m s Hok) as Hlen.
  pose proof Hok as (arr & Harr & Hb1 & Hb2).
  set (a := fresh (dom m)).
  assert (Hfresh : m !! a = None).
  { apply not_elem_of_dom. apply is_fresh. }
  assert (Hne : base s <> a) by (intros Heq; rewrite Heq in Harr; congruence).
  unfold init_copy_mem, make_slice. fold a. cbn [fst snd].
  unfold copy_slice. cbn [base off len].
  rewrite lookup_insert_eq.
  assert (Hsrc : elems (<[a := replicate (len s) zero_process]> m) s
                 = elems m s).
  { unfold elems. rewrite lookup_insert_ne by congruence. reflexivity. }
  rewrite Hsrc, Nat.min_id, take_ge by lia.
  rewrite write_at_all by (rewrite length_replicate; exact Hlen).
  cbn [mbind exec_bind]. rewrite insert_insert_eq.
  set (m2 := <[a := elems m s]> m).
  set (c := mkSlice a 0 (len s) (len s)).
  assert (Hc : slice_ok m2 c).
  { exists (elems m s). unfold c. cbn [base off cap len].
    split; [apply lookup_insert_eq | lia]. }
  assert (Hel : elems m2 c = elems m s).
  { unfold elems at 1. unfold c. cbn [base off len]. unfold m2.
    rewrite lookup_insert_eq. cbn [drop]. apply take_ge. lia. }
  rewrite (for_range_ext _
    (fun i rem => match elems m s !! i with
                  | Some p => Ret (<[ProcessID p := BurstDuration p]> rem)
                  | None => Panic
                  end)).
  2:{ intros i rem. rewrite (load_elems m2 c i Hc), Hel.
      destruct (elems m s !! i); reflexivity. }
  change (len c) with (len s). rewrite <- Hlen.
  rewrite (for_range_fold
             (fun rem p => <[ProcessID p := BurstDuration p]> rem)
             _ (elems m s) [] ∅).
  2:{ intros i p t Hi. cbn [app] in Hi. rewrite Hi. reflexivity. }
  cbn [mbind exec_bind length].
  eexists. split; [reflexivity |]. cbn [vars mem copy].
  split.
  - unfold init_copy. rewrite Hel, Hlen. reflexivity.
  - split; [exact Hc |]. split; [reflexivity |].
    split; [exact Hfresh |].
    intros a' arr' Ha'. cbn [mem]. unfold m2.
    rewrite lookup_insert_ne; [exact Ha' |].
    intros ->. congruence.
Qed.

Lemma select_index_mem_eq better (m : memory) c now :
  slice_ok m c ->
  select_index_mem better m c now = select_index better (elems m c) now.
Proof.
  intros Hok. unfold select_index_mem, select_index.
  rewrite (elems_length m c Hok). apply for_range_ext.
  intros i idx. unfold select_body.
  rewrite (load_elems m c i Hok).
  destruct (elems m c !! i) as [p|]; [| reflexivity]. cbn [mbind exec_bind].
  destruct (ArrivalTime p <=? now); [| reflexivity].
  rewrite (load_elems m c idx Hok).
  destruct (elems m c !! idx); reflexivity.
Qed.

Lemma select_serve_copy n st idx job st' :
  select_serve n st idx job = Ret st' ->
  copyProcesses st' = remove_at idx (copyProcesses st).
Proof.
  unfold select_serve. destruct (store_row _ _ _); cbn; try discriminate.
  intros [= <-]. reflexivity.
Qed.

(** Removing an element of the working copy keeps the copy apart from the
    arrays of the caller. *)
Lemma copy_inv_remove (m0 : memory) ms i st' :
  copy_inv m0 ms ->
  (i < len (copy ms))%nat ->
  copyProcesses st' = remove_at i (copyProcesses (vars ms)) ->
  exists mc,
    append_remove (mem ms) (copy ms) i = Ret mc
    /\ copy_inv m0 {| mem := fst mc; copy := snd mc; vars := st' |}.
Proof.
  intros (Hok & Hel & Hfresh & Hpres) Hi Hcp.
  destruct (append_remove_spec (mem ms) (copy ms) i Hok Hi)
    as (m' & s' & Hrm & Hbase & Hok' & Hel' & Hother).
  exists (m', s'). split; [exact Hrm |]. cbn [fst snd].
  split; [exact Hok' |]. cbn [mem copy vars].
  split; [rewrite Hel', Hel, Hcp; reflexivity |].
  split; [rewrite Hbase; exact Hfresh |].
  intros a arr Ha. rewrite Hother; [apply Hpres; exact Ha |].
  intros ->. congruence.
Qed.

(** An iteration of the selecting schedulers in memory does what the
    iteration on values does, and writes only the working copy. *)
Lemma select_run_body_sim (m0 : memory) better n ms :
  copy_inv m0 ms ->
  simulates m0 (select_run_body_mem better n ms)
    (select_run_body better n (vars ms)).
Proof.
  intros Hinv. pose proof Hinv as (Hok & Hel & Hfresh & Hpres).
  unfold select_run_body_mem, select_run_body.
  rewrite (select_index_mem_eq _ _ _ _ Hok), Hel.
  destruct (select_index _ _ _) as [idx| |]; cbn [mbind exec_bind];
    try reflexivity.
  rewrite (load_elems _ _ idx Hok), Hel.
  destruct (copyProcesses (vars ms) !! idx) as [job|] eqn:Hjob;
    cbn [mbind exec_bind]; [| reflexivity].
  destruct (select_serve n (vars ms) idx job) as [st'| |] eqn:Hserve;
    cbn [mbind exec_bind simulates]; try reflexivity.
  assert (Hi : (idx < len (copy ms))%nat).
  { apply lookup_lt_Some in Hjob.
    rewrite <- Hel, (elems_length _ _ Hok) in Hjob. exact Hjob. }
  destruct (copy_inv_remove m0 ms idx st' Hinv Hi
              (select_serve_copy _ _ _ _ _ Hserve)) as (mc & Hrm & Hinv').
  rewrite Hrm. cbn [mbind exec_bind].
  eexists. split; [reflexivity |]. split; [reflexivity | exact Hinv'].
Qed.

(** The outer loop in memory does what the outer loop on values does. *)
Lemma while_pending_sim (m0 : memory) body_mem body :
  (forall ms, copy_inv m0 ms -> simulates m0 (body_mem ms) (body (vars ms))) ->
  forall fuel ms,
    copy_inv m0 ms ->
    simulates m0 (while_pending_mem body_mem fuel ms)
      (while_pending body fuel (vars ms)).
Proof.
  intros Hbody. induction fuel as [|fuel IH]; intros ms Hinv;
    pose proof Hinv as (Hok & Hel & _);
    pose proof (elems_length _ _ Hok) as Hlen; rewrite Hel in Hlen;
    cbn [while_pending while_pending_mem];
    destruct (copyProcesses (vars ms)) as [|p cp] eqn:Hcp;
    cbn [length] in Hlen; rewrite <- Hlen.
  - exists ms. auto.
  - reflexivity.
  - exists ms. auto.
  - pose proof (Hbody ms Hinv) as Hsim.
    destruct (body (vars ms)) as [st'| |]; cbn [simulates] in Hsim.
    + destruct Hsim as (ms' & -> & <- & Hinv').
      cbn [mbind exec_bind]. apply IH. exact Hinv'.
    + rewrite Hsim. reflexivity.
    + rewrite Hsim. reflexivity.
Qed.

Lemma runs_as_report (m0 : memory) n (r : exec Machine) (pure : exec Locals) :
  simulates m0 r pure ->
  runs_as m0 (ms ← r; Ret (mem ms, report n (vars ms)))
    (st ← pure; Ret (report n st)).
Proof.
  intros Hsim. destruct pure as [st| |]; cbn [simulates] in Hsim.
  - destruct Hsim as (ms & -> & <- & _ & _ & _ & Hpres).
    cbn [mbind exec_bind runs_as]. eauto.
  - rewrite Hsim. reflexivity.
  - rewrite Hsim. reflexivity.
Qed.

Lemma select_run_mem_runs better (m : memory) s :
  slice_ok m s ->
  runs_as m (select_run_mem better m s) (select_run better (elems m s)).
Proof.
  intros Hok. unfold select_run_mem, select_run.
  destruct (init_copy_mem_spec m s Hok) as (ms & -> & Hvars & Hinv).
  cbn [mbind exec_bind]. rewrite (elems_length m s Hok), <- Hvars.
  apply runs_as_report. apply while_pending_sim; [| exact Hinv].
  intros ms' Hinv'. apply select_run_body_sim. exact Hinv'.
Qed.

Lemma rr_step_copy n i p st r :
  rr_step n i p st = Ret r ->
  match r with
  | Continue st' => copyProcesses st' = copyProcesses st
  | Break st' => copyProcesses st' = remove_at i (copyProcesses st)
  end.
Proof.
  unfold rr_step. destruct (ArrivalTime p <=? serviceTime st).
  - destruct (store_row _ _ _); cbn [mbind exec_bind]; try discriminate.
    destruct (rr_finished st p) eqn:Hf; intros [= <-];
      cbn [rr_locals copyProcesses]; rewrite Hf; reflexivity.
  - intros [= <-]. reflexivity.
Qed.

(** One pass through the body of the scan, in memory and on values. *)
Lemma rr_body_sim (m0 : memory) n i ms :
  copy_inv m0 ms ->
  match rr_body n i (vars ms) with
  | Ret (Continue st') =>
      exists ms', rr_body_mem n i ms = Ret (Continue ms')
                  /\ vars ms' = st' /\ copy_inv m0 ms'
                  /\ len (copy ms') = len (copy ms)
  | Ret (Break st') =>
      exists ms', rr_body_mem n i ms = Ret (Break ms')
                  /\ vars ms' = st' /\ copy_inv m0 ms'
  | Panic => rr_body_mem n i ms = Panic
  | OutOfFuel => rr_body_mem n i ms = OutOfFuel
  end.
Proof.
  intros Hinv. pose proof Hinv as (Hok & Hel & Hfresh & Hpres).
  unfold rr_body, rr_body_mem.
  rewrite (load_elems _ _ i Hok), Hel.
  destruct (copyProcesses (vars ms) !! i) as [p|] eqn:Hp;
    cbn [mbind exec_bind]; [| reflexivity].
  destruct (rr_step n i p (vars ms)) as [[st'|st']| |] eqn:Hstep;
    cbn [mbind exec_bind]; try reflexivity;
    pose proof (rr_step_copy _ _ _ _ _ Hstep) as Hcp; cbn beta iota in Hcp.
  - eexists. split; [reflexivity |]. cbn [vars copy mem].
    split; [reflexivity |]. split; [| reflexivity].
    split; [exact Hok |]. cbn [vars copy mem].
    split; [rewrite Hel, Hcp; reflexivity |]. split; assumption.
  - assert (Hi : (i < len (copy ms))%nat).
    { apply lookup_lt_Some in Hp.
      rewrite <- Hel, (elems_length _ _ Hok) in Hp. exact Hp. }
    destruct (copy_inv_remove m0 ms i st' Hinv Hi Hcp) as (mc & Hrm & Hinv').
    rewrite Hrm. cbn [mbind exec_bind].
    eexists. split; [reflexivity |]. split; [reflexivity | exact Hinv'].
Qed.

(** The scan of the pending list, in memory and on values. *)
Lemma rr_scan_sim (m0 : memory) n :
  forall k i ms,
    copy_inv m0 ms ->
    simulates m0 (for_range_brk (rr_body_mem n) i k ms)
      (for_range_brk (rr_body n) i k (vars ms)).
Proof.
  induction k as [|k IH]; intros i ms Hinv; cbn [for_range_brk].
  - exists ms. auto.
  - pose proof (rr_body_sim m0 n i ms Hinv) as Hsim.
    destruct (rr_body n i (vars ms)) as [[st'|st']| |].
    + destruct Hsim as (ms' & -> & <- & Hinv' & _).
      cbn [mbind exec_bind]. apply IH. exact Hinv'.
    + destruct Hsim as (ms' & -> & <- & Hinv').
      cbn [mbind exec_bind]. exists ms'. auto.
    + rewrite Hsim. reflexivity.
    + rewrite Hsim. reflexivity.
Qed.

Lemma rr_pass_sim (m0 : memory) n ms :
  copy_inv m0 ms ->
  simulates m0 (rr_pass_mem n ms) (rr_pass n (vars ms)).
Proof.
  intros Hinv. pose proof Hinv as (Hok & Hel & _).
  unfold rr_pass_mem, rr_pass.
  rewrite <- Hel, (elems_length _ _ Hok). apply rr_scan_sim. exact Hinv.
Qed.

Lemma RRSchedule_mem_runs fuel (m : memory) s :
  slice_ok m s ->
  runs_as m (RRSchedule_mem fuel m s) (RRSchedule fuel (elems m s)).
Proof.
  intros Hok. unfold RRSchedule_mem, RRSchedule.
  destruct (init_copy_mem_spec m s Hok) as (ms & -> & Hvars & Hinv).
  cbn [mbind exec_bind]. rewrite (elems_length m s Hok), <- Hvars.
  apply runs_as_report. apply while_pending_sim; [| exact Hinv].
  intros ms' Hinv'. apply rr_pass_sim. exact Hinv'.
Qed.

Lemma runs_as_weaken {A : Type} (m m' : memory) (r : exec (memory * A)) pure :
  preserved m m' -> runs_as m' r pure -> runs_as m r pure.
Proof.
  intros Hp. destruct pure as [out| |]; cbn [runs_as]; auto.
  intros (m'' & -> & Hp'). exists m''. split; [reflexivity |].
  eapply preserved_trans; eauto.
Qed.

Lemma runs_as_bind {A B : Type} (m : memory) (r : exec (memory * A))
    (pure : exec A) (k : memory * A -> exec (memory * B))
    (kp : A -> exec B) :
  runs_as m r pure ->
  (forall m' a, preserved m m' -> runs_as m' (k (m', a)) (kp a)) ->
  runs_as m (r ≫= k) (pure ≫= kp).
Proof.
  intros Hr Hk. destruct pure as [a| |]; cbn [runs_as] in Hr.
  - destruct Hr as (m' & -> & Hp). cbn [mbind exec_bind].
    eapply runs_as_weaken; [exact Hp |]. apply Hk. exact Hp.
  - rewrite Hr. reflexivity.
  - rewrite Hr. reflexivity.
Qed.

(** C9. Started on a valid slice of the caller, each of [FCFSSchedule],
    [SJFSchedule], [SJFPrioritySchedule] and [RRSchedule] (within any
    iteration budget) ends in memory exactly as it ends on the value of the
    slice, and when it returns every array that existed before the call, the
    caller's among them, holds the same elements: the schedulers only write
    the array that their own [make] allocated. Hence in the sequence of the
    four calls of [main] every scheduler receives the original processes. *)
Theorem schedulers_preserve_caller_slice
    (m : memory) (processes : Slice) (fuel : nat) :
  slice_ok m processes ->
  let ps := elems m processes in
  runs_as m (FCFSSchedule_mem m processes) (FCFSSchedule ps)
  /\ runs_as m (SJFSchedule_mem m processes) (SJFSchedule ps)
  /\ runs_as m (SJFPrioritySchedule_mem m processes) (SJFPrioritySchedule ps)
  /\ runs_as m (RRSchedule_mem fuel m processes) (RRSchedule fuel ps)
  /\ runs_as m (main_mem fuel m processes) (main_pure fuel ps)
  /\ (forall m', preserved m m' -> elems m' processes = ps).
Proof.
  intros Hok ps.
  split; [apply FCFSSchedule_mem_runs; exact Hok |].
  split; [apply select_run_mem_runs; exact Hok |].
  split; [apply select_run_mem_runs; exact Hok |].
  split; [apply RRSchedule_mem_runs; exact Hok |].
  split; [| intros m' Hp; apply (preserved_elems m m' processes Hok Hp)].
  unfold main_mem, main_pure.
  apply runs_as_bind; [apply FCFSSchedule_mem_runs; exact Hok |].
  intros m1 o1 Hp1. cbn [fst snd].
  destruct (preserved_elems m m1 processes Hok Hp1) as [He1 Hok1].
  apply runs_as_bind.
  { unfold ps. rewrite <- He1. apply select_run_mem_runs. exact Hok1. }
  intros m2 o2 Hp2. cbn [fst snd].
  destruct (preserved_elems m1 m2 processes Hok1 Hp2) as [He2 Hok2].
  apply runs_as_bind.
  { unfold ps. rewrite <- He1, <- He2. apply select_run_mem_runs.
    exact Hok2. }
  intros m3 o3 Hp3. cbn [fst snd].
  destruct (preserved_elems m2 m3 processes Hok2 Hp3) as [He3 Hok3].
  apply runs_as_bind.
  { unfold ps. rewrite <- He1, <- He2, <- He3.
    apply RRSchedule_mem_runs. exact Hok3. }
  intros m4 o4 Hp4. cbn [fst snd runs_as].
  exists m4. split; [reflexivity | apply preserved_refl].
Qed.

Lemma schedulers_preserve_caller_slice_witness :
  let m : memory := {[ 7%nat := [P 9 9 9; P 1 5 0; P 2 3 1; P 3 2 2] ]} in
  let processes := mkSlice 7 1 3 3 in
  let ps := elems m processes in
  runs_as m (FCFSSchedule_mem m processes) (FCFSSchedule ps)
  /\ runs_as m (SJFSchedule_mem m processes) (SJFSchedule ps)
  /\ runs_as m (SJFPrioritySchedule_mem m processes) (SJFPrioritySchedule ps)
  /\ runs_as m (RRSchedule_mem 20 m processes) (RRSchedule 20 ps)
  /\ runs_as m (main_mem 20 m processes) (main_pure 20 ps)
  /\ (forall m', preserved m m' -> elems m' processes = ps).
Proof.
  apply (schedulers_preserve_caller_slice
           {[ 7%nat := [P 9 9 9; P 1 5 0; P 2 3 1; P 3 2 2] ]}
           (mkSlice 7 1 3 3) 20).
  eexists. split; [apply lookup_singleton_eq |]. cbn. lia.
Defined.

(* ===================================================================== *)
(** ** More on the tables and timelines of FCFS and the selecting
       schedulers *)
(* ===================================================================== *)

(** [waitingTime] when FCFS reaches the process at index [i] is the wait in
    the row before. *)
Lemma fcfs_served_wait_before processes i :
  (i <= length processes)%nat ->
  sv_wait (fcfs_served (take i processes))
  = wait_before (Some <$> sv_rows (fcfs_served processes)) i.
Proof.
  intros Hi. destruct i as [|j]; [reflexivity |].
  destruct (lookup_lt_is_Some_2 processes j) as [pj Hpj]; [lia |].
  destruct (fcfs_served_lookup processes j pj Hpj)
    as (row & ts & Hr & _ & Hrow & _).
  rewrite (take_S_r _ _ _ Hpj), fcfs_served_snoc.
  cbn [wait_before]. rewrite list_lookup_fmap, Hr. cbn [fmap option_fmap option_map].
  cbn [fcfs_serve sv_rows] in Hrow. apply app_inv_head in Hrow.
  injection Hrow as <-. reflexivity.
Qed.



(** X2. In FCFS a process whose arrival is 0 (or negative) does not get a
    wait of its own: its row repeats the wait of the row before it, and the
    first row gets 0. *)
Theorem fcfs_wait_inherited (processes : list Process) (i : nat)
    (p : Process) :
  processes !! i = Some p ->
  ArrivalTime p <= 0 ->
  exists out row,
    FCFSSchedule processes = Ret out
    /\ out_schedule out !! i = Some (Some row)
    /\ rowID row = ProcessID p
    /\ rowWait row = wait_before (out_schedule out) i.
Proof.
  intros Hp Harr.
  destruct (fcfs_served_lookup processes i p Hp)
    as (row & ts & Hr & _ & Hrow & _).
  eexists _, row. split; [apply FCFSSchedule_state |].
  cbn [report out_schedule fcfs_state schedule].
  rewrite full_table by reflexivity.
  split; [rewrite list_lookup_fmap, Hr; reflexivity |].
  rewrite <- fcfs_served_wait_before
    by (apply lookup_lt_Some in Hp; lia).
  cbn [fcfs_serve sv_rows] in Hrow. apply app_inv_head in Hrow.
  injection Hrow as <-. cbn [rowID rowWait].
  split; [reflexivity |].
  destruct (Z.ltb_spec 0 (ArrivalTime p)) as [|_]; [lia | reflexivity].
Qed.

Lemma fcfs_wait_inherited_witness :
  exists out row,
    FCFSSchedule [P 1 5 3; P 2 3 0] = Ret out
    /\ out_schedule out !! 1%nat = Some (Some row)
    /\ rowID row = ProcessID (P 2 3 0)
    /\ rowWait row = wait_before (out_schedule out) 1.
Proof.
  apply (fcfs_wait_inherited [P 1 5 3; P 2 3 0] 1 (P 2 3 0)).
  - reflexivity.
  - cbn. lia.
Defined.

(** With every arrival 0 the guard of FCFS never holds: the wait stays 0. *)
Lemma fcfs_served_zero_arrivals processes :
  Forall (fun p => ArrivalTime p = 0 /\ int64 (BurstDuration p)) processes ->
  sv_wait (fcfs_served processes) = 0
  /\ Forall (fun r => rowWait r = 0 /\ rowTurnaround r = rowBurst r
                      /\ rowExit r = rowBurst r)
       (sv_rows (fcfs_served processes))
  /\ Forall (fun ts => Start ts = 0) (sv_slices (fcfs_served processes)).
Proof.
  induction processes as [|x processes IH] using rev_ind; intros Hall.
  - split; [reflexivity |]. split; constructor.
  - apply Forall_app in Hall as [Hall Hx]. rewrite Forall_singleton in Hx.
    destruct Hx as [Hx Hb]. destruct (IH Hall) as (Hw & Hrows & Hslices).
    rewrite fcfs_served_snoc. cbn [fcfs_serve sv_wait sv_rows sv_slices].
    rewrite Hx, Hw. change (0 <? 0) with false. cbn iota.
    split; [reflexivity |]. split.
    + apply Forall_app. split; [exact Hrows |]. apply Forall_singleton.
      cbn [rowWait rowTurnaround rowBurst rowExit]. unfold add64.
      rewrite !Z.add_0_r, wrap64_idem, (wrap64_id _ Hb). auto.
    + apply Forall_app. split; [exact Hslices |]. apply Forall_singleton.
      reflexivity.
Qed.

(** X18. On processes that all arrive at time 0, FCFS records no waiting at
    all: every row has wait 0 and the burst of its process as turnaround
    and as completion time, and every timeline entry starts at 0. *)
Theorem fcfs_zero_arrivals (processes : list Process) :
  Forall (fun p => ArrivalTime p = 0 /\ int64 (BurstDuration p)) processes ->
  exists out,
    FCFSSchedule processes = Ret out
    /\ Forall (fun r => rowWait r = 0 /\ rowTurnaround r = rowBurst r
                        /\ rowExit r = rowBurst r)
         (rows (out_schedule out))
    /\ Forall (fun ts => Start ts = 0) (out_gantt out).
Proof.
  intros Hall.
  destruct (fcfs_served_zero_arrivals processes Hall)
    as (_ & Hrows & Hslices).
  eexists. split; [apply FCFSSchedule_state |].
  cbn [report out_schedule out_gantt fcfs_state schedule gantt].
  rewrite full_table by reflexivity. rewrite rows_fmap_Some.
  split; assumption.
Qed.

Lemma fcfs_zero_arrivals_witness :
  exists out,
    FCFSSchedule [P 1 5 0; P 2 3 0] = Ret out
    /\ Forall (fun r => rowWait r = 0 /\ rowTurnaround r = rowBurst r
                        /\ rowExit r = rowBurst r)
         (rows (out_schedule out))
    /\ Forall (fun ts => Start ts = 0) (out_gantt out).
Proof.
  apply (fcfs_zero_arrivals [P 1 5 0; P 2 3 0]).
  repeat (apply Forall_cons; split;
          [split; [reflexivity | cbn; unfold int64, two63; lia] |]).
  apply Forall_nil_2.
Defined.

(* ===================================================================== *)
(** ** The order of service of the selecting schedulers *)
(* ===================================================================== *)

(** The rows of a history show the jobs, and the timeline names them, in the
    order of service. *)
Lemma served_row_process jobs :
  row_process <$> sv_rows (served jobs) = jobs.
Proof.
  induction jobs as [|x jobs IH] using rev_ind; [reflexivity |].
  rewrite served_snoc. cbn [serve sv_rows]. rewrite fmap_app, IH.
  destruct x. reflexivity.
Qed.

Lemma served_slices_pid jobs :
  map PID (sv_slices (served jobs)) = map rowID (sv_rows (served jobs)).
Proof.
  induction jobs as [|x jobs IH] using rev_ind; [reflexivity |].
  rewrite served_snoc. cbn [serve sv_rows sv_slices].
  rewrite !map_app, IH. reflexivity.
Qed.

(** [waitingTime] when the [k]-th job is served is the wait in the row
    before it. *)
Lemma served_wait_before jobs k :
  (k <= length jobs)%nat ->
  sv_wait (served (take k jobs))
  = wait_before (Some <$> sv_rows (served jobs)) k.
Proof.
  intros Hk. destruct k as [|j]; [reflexivity |].
  destruct (lookup_lt_is_Some_2 jobs j) as [pj Hpj]; [lia |].
  destruct (served_lookup jobs j pj Hpj) as (row & ts & Hr & _ & Hrow & _).
  rewrite (take_S_r _ _ _ Hpj), served_snoc.
  cbn [wait_before]. rewrite list_lookup_fmap, Hr.
  cbn [fmap option_fmap option_map].
  cbn [serve sv_rows] in Hrow. apply app_inv_head in Hrow.
  injection Hrow as <-. reflexivity.
Qed.

Lemma served_select_wait jobs k row :
  sv_rows (served jobs) !! k = Some row ->
  select_wait (Some <$> sv_rows (served jobs)) k row.
Proof.
  intros Hrow.
  assert (Hk : (k < length jobs)%nat).
  { apply lookup_lt_Some in Hrow. rewrite served_rows_length in Hrow. lia. }
  destruct (lookup_lt_is_Some_2 jobs k Hk) as [job Hjob].
  destruct (served_lookup jobs k job Hjob) as (row' & ts & Hr & _ & Hrow' & _).
  rewrite Hr in Hrow. injection Hrow as ->.
  unfold select_wait.
  rewrite <- served_time_exit_before, <- served_wait_before by lia.
  cbn [serve sv_rows] in Hrow'. apply app_inv_head in Hrow'.
  injection Hrow' as <-. reflexivity.
Qed.

Section SelectOrder.
Variable better : gmap Z Z -> Process -> Process -> bool.
Variable key : gmap Z Z -> Process -> Z.
Hypothesis better_key :
  forall rem p q, better rem p q = (key rem p <? key rem q).
Variable processes : list Process.


Lemma select_run_select_wait :
  exists out,
    select_run better processes = Ret out
    /\ forall k row, out_schedule out !! k = Some (Some row) ->
         select_wait (out_schedule out) k row.
Proof using All.
  destruct (select_run_output better key better_key processes)
    as (jobs & out & _ & Hrun & Hsched & _).
  exists out. split; [exact Hrun |]. rewrite Hsched.
  intros k row Hk. rewrite list_lookup_fmap in Hk.
  destruct (sv_rows (served jobs) !! k) as [r|] eqn:Hr; [| discriminate].
  injection Hk as ->. apply served_select_wait. exact Hr.
Qed.

(** A property [J] of the served and the pending processes that every
    selection keeps holds of the order of service of the whole run. *)
Lemma select_run_history (J : list Process -> list Process -> Prop) :
  J [] processes ->
  (forall jobs cp rem idx job,
     select_history processes jobs cp rem -> J jobs cp ->
     first_least (key rem) (candidate cp (sv_time (served jobs))) cp idx ->
     cp !! idx = Some job ->
     J (jobs ++ [job]) (remove_at idx cp)) ->
  exists jobs out,
    jobs ≡ₚ processes /\ J jobs []
    /\ select_run better processes = Ret out
    /\ out_schedule out = Some <$> sv_rows (served jobs)
    /\ out_gantt out = sv_slices (served jobs).
Proof using All.
  intros Hinit Hstep.
  destruct (while_pending_inv
              (fun st => exists jobs cp rem,
                 st = select_state (length processes) jobs cp rem
                 /\ select_history processes jobs cp rem /\ J jobs cp)
              (fun st => length (copyProcesses st))
              (select_run_body better (length processes))) with
    (fuel := length processes) (st := init_copy processes)
    as (st & Hrun & (jobs & cp & rem & -> & Hh & HJ) & Hcp).
  - intros st (jobs & cp & rem & -> & Hh & HJ) Hne. cbn in Hne.
    destruct (select_run_body_reachable better key better_key processes
                jobs cp rem Hh Hne)
      as (idx & job & Hfl & Hjob & Hb & Hh').
    eexists. split; [exact Hb |]. split.
    + eexists _, _, _. split; [reflexivity |]. split; [exact Hh' |].
      eapply Hstep; eassumption.
    + cbn. rewrite remove_at_length by (eapply lookup_lt_Some; eauto).
      apply lookup_lt_Some in Hjob. lia.
  - exists [], processes, (init_remaining processes).
    split; [apply select_state_init |]. split; [| exact Hinit].
    split; [reflexivity |]. split; reflexivity.
  - cbn. lia.
  - cbn in Hcp. subst cp. destruct Hh as (_ & Hperm & _).
    rewrite app_nil_r in Hperm.
    exists jobs. eexists. split; [exact Hperm |]. split; [exact HJ |].
    split; [unfold select_run; rewrite Hrun; reflexivity |].
    cbn [report out_schedule out_gantt select_state schedule gantt].
    split; [| reflexivity].
    apply full_table. apply Permutation_length. exact Hperm.
Qed.
End SelectOrder.


(** X4. The wait that [SJFSchedule] and [SJFPrioritySchedule] record in row
    [k]: when the process arrives after the completion time of the row
    before, the time from that completion to its arrival; otherwise the wait
    of the row before, unchanged (0 in the first row). *)
Theorem select_recorded_wait (processes : list Process) :
  (exists out,
     SJFSchedule processes = Ret out
     /\ forall k row, out_schedule out !! k = Some (Some row) ->
          select_wait (out_schedule out) k row)
  /\ (exists out,
        SJFPrioritySchedule processes = Ret out
        /\ forall k row, out_schedule out !! k = Some (Some row) ->
             select_wait (out_schedule out) k row).
Proof.
  split.
  - apply (select_run_select_wait sjf_better _ sjf_better_key).
  - apply (select_run_select_wait priority_better _ priority_better_key).
Qed.

(* ===================================================================== *)
(** ** The selecting schedulers on processes that are all there at time 0 *)
(* ===================================================================== *)

Lemma sumZ_take_le (l : list Z) k :
  Forall (fun x => 0 <= x) l -> 0 <= sumZ (take k l) <= sumZ l.
Proof.
  intros Hl. revert k. induction Hl as [|x l Hx _ IH]; intros k.
  - rewrite take_nil. cbn. lia.
  - cbn beta in Hx. destruct k as [|k]; cbn [take]; rewrite ?sumZ_cons.
    + specialize (IH 0%nat). rewrite take_0 in IH.
      change (sumZ []) with 0 in *. lia.
    + specialize (IH k). lia.
Qed.

Lemma sumZ_nonneg (l : list Z) : Forall (fun x => 0 <= x) l -> 0 <= sumZ l.
Proof.
  intros Hl. pose proof (sumZ_take_le l (length l) Hl) as H.
  rewrite firstn_all in H. lia.
Qed.

Lemma all_arrived_bursts jobs :
  Forall (fun p => ArrivalTime p <= 0 /\ 0 <= BurstDuration p) jobs ->
  Forall (fun x => 0 <= x) (map BurstDuration jobs).
Proof.
  intros H. apply Forall_fmap. eapply Forall_impl; [exact H |].
  intros p [_ Hp]. exact Hp.
Qed.

(** With every job there at time 0 no wait is ever recorded and the clock is
    the sum of the bursts served. *)
Lemma served_all_arrived jobs :
  all_arrived jobs ->
  sv_wait (served jobs) = 0
  /\ sv_time (served jobs) = sumZ (map BurstDuration jobs).
Proof.
  intros [Hall Hsum]. revert Hall Hsum.
  induction jobs as [|x jobs IH] using rev_ind; intros Hall Hsum;
    [split; reflexivity |].
  apply Forall_app in Hall as [Hall Hx]. rewrite Forall_singleton in Hx.
  rewrite map_app, sumZ_app in Hsum |- *. cbn [map] in Hsum |- *.
  rewrite sumZ_cons in Hsum |- *. change (sumZ []) with 0 in Hsum |- *.
  pose proof (sumZ_nonneg _ (all_arrived_bursts _ Hall)) as Hpos.
  destruct IH as [Hw Ht]; [exact Hall | lia |].
  rewrite served_snoc. cbn [serve sv_wait sv_time]. rewrite Hw, Ht.
  destruct (Z.ltb_spec (sumZ (map BurstDuration jobs)) (ArrivalTime x));
    [lia |].
  split; [reflexivity |].
  unfold add64. rewrite wrap64_add_r.
  rewrite wrap64_id; [lia |]. unfold int64, two63 in *. lia.
Qed.

Lemma all_arrived_take jobs k : all_arrived jobs -> all_arrived (take k jobs).
Proof.
  intros [Hall Hsum]. split; [apply Forall_take; exact Hall |].
  pose proof (sumZ_take_le _ k (all_arrived_bursts _ Hall)) as Hle.
  rewrite <- firstn_map. lia.
Qed.

Lemma served_row_bursts jobs :
  map rowBurst (sv_rows (served jobs)) = map BurstDuration jobs.
Proof.
  rewrite <- (served_row_process jobs) at 2.
  rewrite <- list_fmap_compose. reflexivity.
Qed.

(** The row and the timeline entry of the [k]-th job. *)
Lemma served_all_arrived_entry jobs k job row ts :
  all_arrived jobs ->
  jobs !! k = Some job ->
  sv_rows (served jobs) !! k = Some row ->
  sv_slices (served jobs) !! k = Some ts ->
  row_process row = job
  /\ rowWait row = 0
  /\ rowExit row = sumZ (map BurstDuration (take (S k) jobs))
  /\ PID ts = ProcessID job
  /\ Start ts = sumZ (map BurstDuration (take k jobs))
  /\ Stop ts = Start ts + BurstDuration job.
Proof.
  intros Harr Hjob Hrow Hts.
  destruct (served_lookup jobs k job Hjob)
    as (row' & ts' & Hr & Hs & Hrow' & Hts').
  rewrite Hr in Hrow. injection Hrow as ->.
  rewrite Hs in Hts. injection Hts as ->.
  destruct (served_all_arrived _ (all_arrived_take _ k Harr)) as [Hw Ht].
  pose proof (all_arrived_take _ (S k) Harr) as [Hall' Hsum'].
  rewrite (take_S_r _ _ _ Hjob) in Hall', Hsum' |- *.
  apply Forall_app in Hall' as [Hall' Hx]. rewrite Forall_singleton in Hx.
  rewrite map_app, sumZ_app in Hsum' |- *. cbn [map] in Hsum' |- *.
  rewrite sumZ_cons in Hsum' |- *. change (sumZ []) with 0 in Hsum' |- *.
  pose proof (sumZ_nonneg _ (all_arrived_bursts _ Hall')) as Hpos.
  cbn [serve sv_rows sv_slices] in Hrow', Hts'.
  apply app_inv_head in Hrow'. apply app_inv_head in Hts'.
  injection Hrow' as <-. injection Hts' as <-.
  rewrite Hw, Ht.
  destruct (Z.ltb_spec (sumZ (map BurstDuration (take k jobs)))
              (ArrivalTime job)); [lia |].
  cbn [rowWait rowExit PID Start Stop row_process rowID rowArrival rowBurst
       rowPriority].
  unfold add64.
  rewrite !Z.add_0_r, !Z.add_0_l.
  rewrite_strat (bottomup (hints wrap64)).
  rewrite !(wrap64_id (sumZ (map BurstDuration (take k jobs))))
    by (unfold int64, two63 in *; lia).
  rewrite !wrap64_id by (unfold int64, two63 in *; lia).
  destruct job. repeat split; try reflexivity; cbn; lia.
Qed.

Section SelectSorted.
Variable better : gmap Z Z -> Process -> Process -> bool.
Variable key : gmap Z Z -> Process -> Z.
Hypothesis better_key :
  forall rem p q, better rem p q = (key rem p <? key rem q).
Variable processes : list Process.
Variable field_of : Process -> Z.
Hypothesis key_field :
  forall jobs cp rem p,
    select_history processes jobs cp rem -> p ∈ cp ->
    key rem p = field_of p.
Hypothesis arrived : all_arrived processes.

Lemma select_run_sorted :
  exists out,
    select_run better processes = Ret out
    /\ row_process <$> rows (out_schedule out) ≡ₚ processes
    /\ back_to_back (fun r => field_of (row_process r))
         (rows (out_schedule out)) (out_gantt out).
Proof using All.
  destruct (select_run_history better key better_key processes
    (fun jobs cp =>
       (forall i j pi pj, (i <= j)%nat -> jobs !! i = Some pi ->
          jobs !! j = Some pj -> field_of pi <= field_of pj)
       /\ forall pj p, pj ∈ jobs -> p ∈ cp -> field_of pj <= field_of p))
    as (jobs & out & Hperm & (Hsorted & _) & Hrun & Hsched & Hgantt).
  - split; [intros i j pi pj _ Hi; discriminate Hi |].
    intros pj p Hpj. apply elem_of_nil in Hpj. contradiction.
  - intros jobs cp rem idx job Hh [Hsorted Hle] Hfl Hjob.
    assert (Harr : all_arrived jobs /\ Forall (fun p => ArrivalTime p <= 0) cp).
    { destruct Hh as (_ & Hperm & _). destruct arrived as [Hall Hsum].
      rewrite <- Hperm in Hall. apply Forall_app in Hall as [Hj Hc].
      split; [split; [exact Hj |] |].
      - rewrite <- (sumZ_Permutation _ _ (Permutation_map BurstDuration Hperm))
          in Hsum.
        rewrite map_app, sumZ_app in Hsum.
        pose proof (sumZ_nonneg _ (all_arrived_bursts _ Hc)) as Hc0. lia.
      - eapply Forall_impl; [exact Hc |]. intros p Hp. cbn in Hp. lia. }
    destruct Harr as [Hjobs Hcp].
    destruct (served_all_arrived _ Hjobs) as [_ Ht].
    assert (Ht0 : 0 <= sv_time (served jobs)).
    { rewrite Ht. apply sumZ_nonneg, all_arrived_bursts, Hjobs. }
    assert (Hleast : forall p, p ∈ cp -> field_of job <= field_of p).
    { intros p Hp. apply list_elem_of_lookup in Hp as [j Hj].
      destruct Hfl as (q & Hq & _ & Hmin).
      rewrite Hjob in Hq. injection Hq as <-.
      destruct (Hmin j p Hj) as [Hkey _].
      - right. exists p. split; [exact Hj |].
        rewrite Forall_forall in Hcp.
        specialize (Hcp p (list_elem_of_lookup_2 _ _ _ Hj)). lia.
      - rewrite <- (key_field jobs cp rem job Hh
                      (list_elem_of_lookup_2 _ _ _ Hjob)).
        rewrite <- (key_field jobs cp rem p Hh
                      (list_elem_of_lookup_2 _ _ _ Hj)).
        exact Hkey. }
    assert (Hjobcp : job ∈ cp) by (eapply list_elem_of_lookup_2; eauto).
    assert (Hsub : forall p, p ∈ remove_at idx cp -> p ∈ cp).
    { intros p Hp. unfold remove_at in Hp.
      apply elem_of_app in Hp as [Hp|Hp].
      - apply (subseteq_take idx cp), Hp.
      - apply (subseteq_drop (S idx) cp), Hp. }
    split.
    + intros i j pi pj Hij Hi Hj.
      destruct (decide (j < length jobs)%nat) as [Hlt|Hge].
      * rewrite lookup_app_l in Hi, Hj by lia.
        exact (Hsorted i j pi pj Hij Hi Hj).
      * assert (j = length jobs) as ->.
        { apply lookup_lt_Some in Hj. rewrite length_app in Hj.
          cbn in Hj. lia. }
        rewrite lookup_app_r, Nat.sub_diag in Hj by lia. injection Hj as <-.
        destruct (decide (i < length jobs)%nat) as [Hlt|Hge'].
        -- rewrite lookup_app_l in Hi by lia.
           apply Hle; [eapply list_elem_of_lookup_2; eauto | exact Hjobcp].
        -- assert (i = length jobs) as -> by lia.
           rewrite lookup_app_r, Nat.sub_diag in Hi by lia.
           injection Hi as <-. lia.
    + intros pj p Hpj Hp. apply elem_of_app in Hpj as [Hpj|Hpj].
      * apply Hle; [exact Hpj | apply Hsub; exact Hp].
      * apply list_elem_of_singleton in Hpj as ->. apply Hleast, Hsub, Hp.
  - exists out. split; [exact Hrun |].
    rewrite Hsched, Hgantt, rows_fmap_Some, served_row_process.
    split; [exact Hperm |].
    assert (Harr : all_arrived jobs).
    { destruct arrived as [Hall Hsum]. split.
      - rewrite Hperm. exact Hall.
      - rewrite (sumZ_Permutation _ _ (Permutation_map BurstDuration Hperm)).
        exact Hsum. }
    assert (Hjob : forall k r, sv_rows (served jobs) !! k = Some r ->
              exists job ts, jobs !! k = Some job
                /\ sv_slices (served jobs) !! k = Some ts).
    { intros k r Hr.
      assert (Hk : (k < length jobs)%nat).
      { apply lookup_lt_Some in Hr. rewrite served_rows_length in Hr. lia. }
      destruct (lookup_lt_is_Some_2 jobs k Hk) as [job Hj].
      destruct (lookup_lt_is_Some_2 (sv_slices (served jobs)) k) as [ts Hts].
      { rewrite served_slices_length. exact Hk. }
      eauto. }
    assert (Hfield : forall k r job, sv_rows (served jobs) !! k = Some r ->
              jobs !! k = Some job -> row_process r = job).
    { intros k r job Hr Hj.
      destruct (Hjob k r Hr) as (job' & ts & Hj' & Hts).
      rewrite Hj in Hj'. injection Hj' as <-.
      apply (served_all_arrived_entry jobs k job r ts Harr Hj Hr Hts). }
    split; [| split; [| split]].
    + rewrite served_slices_length, served_rows_length. reflexivity.
    + intros i j ri rj Hij Hi Hj.
      destruct (Hjob i ri Hi) as (pi & _ & Hpi & _).
      destruct (Hjob j rj Hj) as (pj & _ & Hpj & _).
      cbn beta. rewrite (Hfield i ri pi Hi Hpi), (Hfield j rj pj Hj Hpj).
      exact (Hsorted i j pi pj Hij Hpi Hpj).
    + intros k r Hr. destruct (Hjob k r Hr) as (job & ts & Hj & Hts).
      destruct (served_all_arrived_entry jobs k job r ts Harr Hj Hr Hts)
        as (_ & Hw & He & _).
      split; [exact Hw |].
      rewrite He, <- !firstn_map, served_row_bursts. reflexivity.
    + intros k r ts Hr Hts. destruct (Hjob k r Hr) as (job & ts' & Hj & _).
      destruct (served_all_arrived_entry jobs k job r ts Harr Hj Hr Hts)
        as (Hrp & _ & _ & Hpid & Hstart & Hstop).
      rewrite Hpid, Hstop, Hstart, <- Hrp.
      rewrite <- !firstn_map, served_row_bursts.
      repeat split; reflexivity.
Qed.
End SelectSorted.

(** X5. On processes with distinct ids that are all there at time 0 (bursts
    not negative, adding up to an [int64] value), [SJFSchedule] serves the
    processes in non-decreasing order of burst; no wait is recorded, and the
    timeline entries follow each other from time 0, each as long as the
    burst of its process. *)
Theorem sjf_all_arrived_by_burst (processes : list Process) :
  NoDup (ProcessID <$> processes) ->
  all_arrived processes ->
  exists out,
    SJFSchedule processes = Ret out
    /\ row_process <$> rows (out_schedule out) ≡ₚ processes
    /\ back_to_back rowBurst (rows (out_schedule out)) (out_gantt out).
Proof.
  intros Hnd Harr.
  apply (select_run_sorted sjf_better _ sjf_better_key processes
           BurstDuration); [| exact Harr].
  intros jobs cp rem p Hh Hp. unfold map_get.
  rewrite (select_history_remaining processes jobs cp rem p Hnd Hh Hp).
  reflexivity.
Qed.

Lemma sjf_all_arrived_by_burst_witness :
  exists out,
    SJFSchedule [P 1 5 0; P 2 3 0; P 3 2 0] = Ret out
    /\ row_process <$> rows (out_schedule out)
       ≡ₚ [P 1 5 0; P 2 3 0; P 3 2 0]
    /\ back_to_back rowBurst (rows (out_schedule out)) (out_gantt out).
Proof.
  apply (sjf_all_arrived_by_burst [P 1 5 0; P 2 3 0; P 3 2 0]).
  - apply (bool_decide_unpack _). vm_compute. exact I.
  - split; [| vm_compute; reflexivity].
    repeat (apply Forall_cons; split; [cbn; lia |]). apply Forall_nil_2.
Defined.

(** X6. On processes that are all there at time 0 (bursts not negative,
    adding up to an [int64] value), [SJFPrioritySchedule] serves the
    processes in non-decreasing order of priority value; no wait is
    recorded, and the timeline entries follow each other from time 0, each
    as long as the burst of its process. *)
Theorem priority_all_arrived_by_priority (processes : list Process) :
  all_arrived processes ->
  exists out,
    SJFPrioritySchedule processes = Ret out
    /\ row_process <$> rows (out_schedule out) ≡ₚ processes
    /\ back_to_back rowPriority (rows (out_schedule out)) (out_gantt out).
Proof.
  intros Harr.
  apply (select_run_sorted priority_better _ priority_better_key processes
           Priority); [| exact Harr].
  reflexivity.
Qed.

Lemma priority_all_arrived_by_priority_witness :
  exists out,
    SJFPrioritySchedule
      [mkProcess 1 0 5 2; mkProcess 2 0 3 1; mkProcess 3 0 2 3] = Ret out
    /\ row_process <$> rows (out_schedule out)
       ≡ₚ [mkProcess 1 0 5 2; mkProcess 2 0 3 1; mkProcess 3 0 2 3]
    /\ back_to_back rowPriority (rows (out_schedule out)) (out_gantt out).
Proof.
  apply (priority_all_arrived_by_priority
           [mkProcess 1 0 5 2; mkProcess 2 0 3 1; mkProcess 3 0 2 3]).
  split; [| vm_compute; reflexivity].
  repeat (apply Forall_cons; split; [cbn; lia |]). apply Forall_nil_2.
Defined.

(* ===================================================================== *)
(** ** When Round-Robin returns *)
(* ===================================================================== *)

Lemma sumZ_filter_split {A : Type} (Q : A -> Prop)
    `{!forall x, Decision (Q x)} (f : A -> Z) (l : list A) :
  sumZ (map f l)
  = sumZ (map f (filter Q l)) + sumZ (map f (filter (fun x => ~ Q x) l)).
Proof.
  induction l as [|x l IH]; [reflexivity |].
  rewrite !filter_cons. cbn [map]. rewrite sumZ_cons, IH.
  destruct (decide (Q x)) as [Hx|Hx].
  - rewrite decide_False by tauto. cbn [map]. rewrite sumZ_cons. lia.
  - rewrite decide_True by exact Hx. cbn [map]. rewrite sumZ_cons. lia.
Qed.

Lemma sumZ_map_pos {A : Type} (f : A -> Z) (l : list A) x :
  (forall y, y ∈ l -> 0 <= f y) -> x ∈ l -> 0 < f x -> 0 < sumZ (map f l).
Proof.
  intros Hnn Hx Hpos. apply list_elem_of_split in Hx as (l1 & l2 & ->).
  rewrite map_app, sumZ_app. cbn [map]. rewrite sumZ_cons.
  assert (0 <= sumZ (map f l1)).
  { apply sumZ_map_nonneg. intros y Hy. apply Hnn, elem_of_app. auto. }
  assert (0 <= sumZ (map f l2)).
  { apply sumZ_map_nonneg. intros y Hy. apply Hnn, elem_of_app.
    right. right. exact Hy. }
  lia.
Qed.

(** What the arrived pending processes still have to run is the work that
    has arrived less the time that has passed. *)
Lemma rr_arrived_pending processes st :
  NoDup (ProcessID <$> processes) ->
  sumZ (map BurstDuration processes) < two63 ->
  rr_inv processes st -> rr_arrivals processes st ->
  sumZ (map (fun p => map_get (remainingBurst st) (ProcessID p))
          (filter (fun p => ArrivalTime p <= serviceTime st)
             (copyProcesses st)))
  = arrived_work processes (serviceTime st) - serviceTime st.
Proof.
  intros Hnd Hsum Hinv [Hnot Hgone].
  destruct (rr_clock _ _ Hsum Hinv) as [Ht _].
  destruct Hinv as (Hndcp & Hcp & Hunits & _).
  unfold pending_units in Hunits.
  rewrite (sumZ_filter_split (fun p => ArrivalTime p <= serviceTime st))
    in Hunits.
  rewrite (sumZ_map_ext _ BurstDuration
             (filter (fun p => ~ ArrivalTime p <= serviceTime st) _))
    in Hunits.
  2:{ intros p Hp. apply list_elem_of_filter in Hp as [Hlate Hp].
      unfold map_get. rewrite (Hnot p Hp) by lia. reflexivity. }
  assert (Hperm : filter (fun p => ~ ArrivalTime p <= serviceTime st)
                    (copyProcesses st)
                  ≡ₚ filter (fun p => ~ ArrivalTime p <= serviceTime st)
                       processes).
  { apply NoDup_Permutation.
    - apply NoDup_filter. eapply NoDup_fmap_1. exact Hndcp.
    - apply NoDup_filter. eapply NoDup_fmap_1. exact Hnd.
    - intros p. rewrite !list_elem_of_filter. split.
      + intros [Hlate Hp]. split; [exact Hlate | apply Hcp, Hp].
      + intros [Hlate Hp]. split; [exact Hlate |].
        destruct (Hgone p Hp) as [Hin|Harr]; [exact Hin | tauto]. }
  rewrite (sumZ_Permutation _ _ (Permutation_map BurstDuration Hperm))
    in Hunits.
  unfold arrived_work.
  pose proof (sumZ_filter_split (fun p => ArrivalTime p <= serviceTime st)
                BurstDuration processes) as Hsplit.
  cbn beta in Hsplit. lia.
Qed.

Lemma rr_some_arrived processes st :
  NoDup (ProcessID <$> processes) ->
  sumZ (map BurstDuration processes) < two63 ->
  rr_inv processes st -> rr_arrivals processes st ->
  serviceTime st < arrived_work processes (serviceTime st) ->
  exists p, p ∈ copyProcesses st /\ ArrivalTime p <= serviceTime st.
Proof.
  intros Hnd Hsum Hinv Harr Hwork.
  pose proof (rr_arrived_pending _ _ Hnd Hsum Hinv Harr) as Heq.
  destruct (filter (fun p => ArrivalTime p <= serviceTime st)
              (copyProcesses st)) as [|p l] eqn:Hf.
  - cbn in Heq. lia.
  - assert (Hp : p ∈ filter (fun p => ArrivalTime p <= serviceTime st)
                     (copyProcesses st)) by (rewrite Hf; left).
    apply list_elem_of_filter in Hp as [Hp1 Hp2]. eauto.
Qed.

Lemma rr_none_arrived processes st p :
  NoDup (ProcessID <$> processes) ->
  sumZ (map BurstDuration processes) < two63 ->
  rr_inv processes st -> rr_arrivals processes st ->
  arrived_work processes (serviceTime st) <= serviceTime st ->
  p ∈ copyProcesses st -> serviceTime st < ArrivalTime p.
Proof.
  intros Hnd Hsum Hinv Harr Hwork Hp.
  pose proof (rr_arrived_pending _ _ Hnd Hsum Hinv Harr) as Heq.
  destruct (Z.lt_ge_cases (serviceTime st) (ArrivalTime p)) as [|Hle];
    [assumption | exfalso].
  destruct Hinv as (_ & Hcp & _).
  assert (Hpos : forall q, q ∈ copyProcesses st ->
            0 < map_get (remainingBurst st) (ProcessID q)).
  { intros q Hq. destruct (Hcp q Hq) as (_ & r & Hr & Hr0 & _).
    unfold map_get. rewrite Hr. cbn. lia. }
  pose proof (sumZ_map_pos
    (fun p => map_get (remainingBurst st) (ProcessID p))
    (filter (fun p => ArrivalTime p <= serviceTime st) (copyProcesses st))
    p) as Hsumpos.
  cbn beta in Hsumpos.
  specialize (Hsumpos
    ltac:(intros q Hq; apply list_elem_of_filter in Hq as [_ Hq];
          specialize (Hpos q Hq); lia)
    ltac:(apply list_elem_of_filter; split; [lia | exact Hp])
    (Hpos p Hp)).
  lia.
Qed.

(** The pending processes other than the one at index [j]. *)
Lemma pending_others (cp : list Process) j p q :
  NoDup (ProcessID <$> cp) -> cp !! j = Some p -> q ∈ cp ->
  q = p \/ (q ∈ remove_at j cp /\ ProcessID q <> ProcessID p).
Proof.
  intros Hnd Hp Hq.
  destruct (pending_split cp j p Hnd Hp) as (l1 & l2 & Hsplit & Hrm & Hids & _).
  rewrite Hsplit in Hq. rewrite Hrm.
  apply elem_of_app in Hq as [Hq|Hq].
  - right. assert (q ∈ l1 ++ l2) by (apply elem_of_app; auto). auto.
  - apply elem_of_cons in Hq as [->|Hq]; [left; reflexivity |].
    right. assert (q ∈ l1 ++ l2) by (apply elem_of_app; auto). auto.
Qed.

Lemma remove_at_subseteq j (cp : list Process) q :
  q ∈ remove_at j cp -> q ∈ cp.
Proof.
  unfold remove_at. intros Hq. apply elem_of_app in Hq as [Hq|Hq].
  - apply (subseteq_take j cp), Hq.
  - apply (subseteq_drop (S j) cp), Hq.
Qed.

(** The pending list after a slice of the process at index [j]. *)
Lemma rr_locals_pending st j p sched q :
  q ∈ copyProcesses (rr_locals st j p sched) -> q ∈ copyProcesses st.
Proof.
  cbn [rr_locals copyProcesses].
  destruct (rr_finished st p); [apply remove_at_subseteq | auto].
Qed.

Lemma rr_locals_pending_other st j p sched q :
  q ∈ remove_at j (copyProcesses st) ->
  q ∈ copyProcesses (rr_locals st j p sched).
Proof.
  cbn [rr_locals copyProcesses].
  destruct (rr_finished st p); [auto | apply remove_at_subseteq].
Qed.

(** A slice keeps the facts about the arrivals, and advances the clock by
    one. *)
Lemma rr_locals_arrivals processes st j p sched :
  Forall (fun p => 0 < BurstDuration p < two63) processes ->
  sumZ (map BurstDuration processes) < two63 ->
  rr_inv processes st -> rr_arrivals processes st ->
  copyProcesses st !! j = Some p ->
  ArrivalTime p <= serviceTime st ->
  rr_arrivals processes (rr_locals st j p sched)
  /\ serviceTime (rr_locals st j p sched) = serviceTime st + 1.
Proof.
  intros Hbursts Hsum Hinv [Hnot Hgone] Hp Harr.
  pose proof (rr_locals_inv processes st j p sched Hbursts Hinv Hp Harr)
    as Hinv'.
  destruct (rr_clock _ _ Hsum Hinv) as [Ht _].
  destruct (rr_clock _ _ Hsum Hinv') as [Ht' _].
  assert (Hclock : serviceTime (rr_locals st j p sched) = serviceTime st + 1).
  { rewrite Ht', Ht. cbn [rr_locals gantt]. rewrite length_app.
    cbn [length]. lia. }
  split; [| exact Hclock].
  destruct Hinv as (Hnd & Hcp & _).
  assert (Hin : p ∈ copyProcesses st) by (eapply list_elem_of_lookup_2; eauto).
  destruct (Hcp p Hin) as (Hpin & r & Hr & Hr0 & Hrb).
  assert (Hrange : 0 < r < two63).
  { rewrite Forall_forall in Hbursts. specialize (Hbursts p Hpin). lia. }
  split.
  - intros q Hq Hlate. rewrite Hclock in Hlate.
    apply rr_locals_pending in Hq.
    destruct (pending_others _ j p q Hnd Hp Hq) as [->|[_ Hid]]; [lia |].
    cbn [rr_locals remainingBurst].
    rewrite (slice_remainingBurst st p r Hr Hrange).
    rewrite lookup_insert_ne by congruence.
    apply Hnot; [exact Hq | lia].
  - intros q Hq. rewrite Hclock.
    destruct (Hgone q Hq) as [Hqcp|Hqarr]; [| right; lia].
    destruct (pending_others _ j p q Hnd Hp Hqcp) as [->|[Hrm _]];
      [right; lia | left].
    apply rr_locals_pending_other. exact Hrm.
Qed.

(** The assignment of the row is in range, and a slice keeps the sizes. *)
Lemma rr_locals_ready processes st j p :
  Forall (fun p => 0 < BurstDuration p < two63) processes ->
  rr_ready processes st ->
  copyProcesses st !! j = Some p ->
  ArrivalTime p <= serviceTime st ->
  let sched :=
    <[(length processes - length (copyProcesses st))%nat
      := Some (rr_row st p)]> (schedule st) in
  store_row (schedule st)
    (Z.of_nat (length processes) - Z.of_nat (length (copyProcesses st)))
    (rr_row st p) = Ret sched
  /\ rr_ready processes (rr_locals st j p sched).
Proof.
  intros Hbursts (Hinv & Hsched & Hlen) Hp Harr sched.
  assert (Hj : (j < length (copyProcesses st))%nat)
    by (eapply lookup_lt_Some; eauto).
  split.
  - unfold store_row. rewrite decide_True by lia. unfold sched.
    do 2 f_equal. lia.
  - split; [apply rr_locals_inv; assumption |].
    split; [unfold sched; cbn [rr_locals schedule]; rewrite length_insert;
            exact Hsched |].
    cbn [rr_locals copyProcesses].
    destruct (rr_finished st p); [| exact Hlen].
    rewrite remove_at_length by exact Hj. lia.
Qed.

Section RoundRobinRun.
Variable processes : list Process.
Variable bound : Z.
Hypothesis valid : rr_valid processes.
Hypothesis no_wrap : sumZ (map BurstDuration processes) < two63.
Hypothesis bound_ok :
  forall st p, rr_run processes bound st -> p ∈ copyProcesses st ->
    ArrivalTime p <= serviceTime st -> serviceTime st < bound.

(** The body of the scan, at a valid index of the pending list: it returns,
    either leaving the state as it is because the process has not arrived,
    or after one slice. *)
Lemma rr_body_run st j :
  rr_run processes bound st ->
  (j < length (copyProcesses st))%nat ->
  exists r, rr_body (length processes) j st = Ret r /\
    match r with
    | Continue st' =>
        rr_run processes bound st'
        /\ length (copyProcesses st') = length (copyProcesses st)
        /\ ((st' = st /\ exists p, copyProcesses st !! j = Some p
                               /\ serviceTime st < ArrivalTime p)
            \/ length (gantt st') = S (length (gantt st)))
    | Break st' =>
        rr_run processes bound st'
        /\ length (gantt st') = S (length (gantt st))
    end.
Proof using All.
  intros Hrun Hj. pose proof Hrun as (Hready & Harrs & Hbound).
  destruct (lookup_lt_is_Some_2 _ _ Hj) as (p & Hp).
  unfold rr_body, rr_step. rewrite Hp.
  destruct (Z.leb_spec (ArrivalTime p) (serviceTime st)) as [Harr|Hlate].
  - destruct (rr_locals_ready processes st j p (proj2 valid) Hready Hp Harr)
      as [Hstore Hready'].
    rewrite Hstore. cbn [mbind exec_bind].
    set (sched := <[_ := _]> (schedule st)) in *.
    destruct (rr_locals_arrivals processes st j p sched (proj2 valid) no_wrap
                (proj1 Hready) Harrs Hp Harr) as [Harrs' Hclock].
    assert (Hrun' : rr_run processes bound (rr_locals st j p sched)).
    { split; [exact Hready' |]. split; [exact Harrs' |].
      rewrite Hclock.
      pose proof (bound_ok st p Hrun (list_elem_of_lookup_2 _ _ _ Hp) Harr).
      lia. }
    assert (Hg : length (gantt (rr_locals st j p sched))
                 = S (length (gantt st))).
    { cbn [rr_locals gantt]. rewrite length_app. cbn [length]. lia. }
    eexists. split; [reflexivity |].
    destruct (rr_finished st p) eqn:Hfin.
    + split; [exact Hrun' | exact Hg].
    + split; [exact Hrun' |]. split; [| right; exact Hg].
      cbn [rr_locals copyProcesses]. rewrite Hfin. reflexivity.
  - eexists. split; [reflexivity |].
    split; [exact Hrun |]. split; [reflexivity |].
    left. split; [reflexivity |]. eauto.
Qed.

(** A pass returns: either nothing pending has arrived and the state is
    unchanged, or at least one slice has run. *)
Lemma rr_pass_run st :
  rr_run processes bound st ->
  exists st', rr_pass (length processes) st = Ret st'
    /\ rr_run processes bound st'
    /\ ((st' = st /\ forall p, p ∈ copyProcesses st ->
                       serviceTime st < ArrivalTime p)
        \/ (length (gantt st) < length (gantt st'))%nat).
Proof using All.
  intros Hrun. unfold rr_pass.
  apply (for_range_brk_inv
    (fun j u =>
       rr_run processes bound u
       /\ length (copyProcesses u) = length (copyProcesses st)
       /\ ((u = st /\ forall i p, (i < j)%nat ->
                        copyProcesses st !! i = Some p ->
                        serviceTime st < ArrivalTime p)
           \/ (length (gantt st) < length (gantt u))%nat))).
  - split; [exact Hrun |]. split; [reflexivity |]. left.
    split; [reflexivity |]. intros i p Hi. lia.
  - intros j u Hj (Hu & Hlen & Hcases).
    destruct (rr_body_run u j Hu) as (r & Hr & Hpost); [lia |].
    exists r. split; [exact Hr |]. destruct r as [u'|u'].
    + destruct Hpost as (Hu' & Hlen' & Hstep).
      split; [exact Hu' |]. split; [lia |].
      destruct Hcases as [[-> Hbefore]|Hprog].
      * destruct Hstep as [[-> (p & Hp & Hlate)]|Hg]; [left | right; lia].
        split; [reflexivity |]. intros i q Hi Hq.
        destruct (decide (i = j)) as [->|Hne].
        -- rewrite Hp in Hq. injection Hq as <-. exact Hlate.
        -- apply (Hbefore i q); [lia | exact Hq].
      * right. destruct Hstep as [[-> _]|Hg]; lia.
    + destruct Hpost as (Hu' & Hg). split; [exact Hu' |]. right.
      destruct Hcases as [[-> _]|Hprog]; lia.
  - intros u (Hu & _ & Hcases). split; [exact Hu |].
    destruct Hcases as [[-> Hbefore]|Hprog]; [left | right; exact Hprog].
    split; [reflexivity |]. intros p Hp.
    apply list_elem_of_lookup in Hp as [i Hi].
    apply (Hbefore i p); [| exact Hi].
    apply lookup_lt_Some in Hi. lia.
Qed.
End RoundRobinRun.

Lemma rr_run_init processes bound :
  rr_valid processes -> 0 <= bound ->
  rr_run processes bound (init_copy processes).
Proof.
  intros Hvalid Hbound. split; [apply rr_ready_init; exact Hvalid |].
  split; [| exact Hbound]. split.
  - intros p Hp _. cbn [init_copy remainingBurst].
    apply init_remaining_lookup; [apply Hvalid | exact Hp].
  - intros p Hp. left. exact Hp.
Qed.

(** Pending processes mean pending work: the clock is below the sum of the
    bursts. *)
Lemma rr_pending_clock processes st p :
  sumZ (map BurstDuration processes) < two63 ->
  rr_inv processes st -> p ∈ copyProcesses st ->
  0 <= serviceTime st < sumZ (map BurstDuration processes).
Proof.
  intros Hsum Hinv Hp. destruct (rr_clock _ _ Hsum Hinv) as [Ht _].
  destruct Hinv as (_ & Hcp & Hunits & _).
  assert (0 < pending_units st); [| lia].
  unfold pending_units.
  apply (sumZ_map_pos _ _ p); [| exact Hp |].
  - intros q Hq. destruct (Hcp q Hq) as (_ & r & Hr & Hr0 & _).
    unfold map_get. rewrite Hr. cbn. lia.
  - destruct (Hcp p Hp) as (_ & r & Hr & Hr0 & _).
    unfold map_get. rewrite Hr. cbn. lia.
Qed.

(** The outer loop on processes for which the processor is never idle: it
    ends within one pass per unit of burst. *)
Lemma rr_loop_returns processes :
  rr_valid processes ->
  sumZ (map BurstDuration processes) < two63 ->
  rr_never_idle processes ->
  exists st,
    while_pending (rr_pass (length processes))
      (Z.to_nat (sumZ (map BurstDuration processes))) (init_copy processes)
    = Ret st.
Proof.
  intros Hvalid Hsum Hidle.
  set (total := sumZ (map BurstDuration processes)) in *.
  assert (Hbound : forall st p, rr_run processes total st ->
            p ∈ copyProcesses st -> ArrivalTime p <= serviceTime st ->
            serviceTime st < total).
  { intros st p (Hready & _) Hp _.
    apply (rr_pending_clock processes st p Hsum (proj1 Hready) Hp). }
  destruct (while_pending_inv (rr_run processes total)
              (fun st => (Z.to_nat total - length (gantt st))%nat)
              (rr_pass (length processes))) with
    (fuel := Z.to_nat total) (st := init_copy processes)
    as (st & Hrun & _).
  - intros st Hst Hne.
    destruct (rr_pass_run processes total Hvalid Hsum Hbound st Hst)
      as (st' & Hpass & Hst' & Hcases).
    exists st'. split; [exact Hpass |]. split; [exact Hst' |].
    destruct Hcases as [[-> Hlate]|Hprog].
    + exfalso. destruct Hst as ((Hinv & _) & Harrs & _).
      destruct (copyProcesses st) as [|p cp] eqn:Hcp; [congruence |].
      assert (Hp : p ∈ copyProcesses st) by (rewrite Hcp; left).
      pose proof (rr_pending_clock processes st p Hsum Hinv Hp) as Ht.
      destruct (rr_some_arrived processes st (proj1 Hvalid) Hsum Hinv Harrs)
        as (q & Hq & Hqarr); [apply Hidle; exact Ht |].
      rewrite Hcp in Hq. specialize (Hlate q Hq). lia.
    + destruct Hst' as ((Hinv' & _) & _).
      pose proof (rr_clock _ _ Hsum Hinv') as (_ & Hle).
      fold total in Hle. lia.
  - apply rr_run_init; [exact Hvalid |].
    unfold total. apply sumZ_map_nonneg. intros p Hp.
    destruct Hvalid as [_ Hb]. rewrite Forall_forall in Hb.
    specialize (Hb p Hp). lia.
  - lia.
  - exists st. exact Hrun.
Qed.

(** The outer loop on processes for which the processor is idle at time
    [idle]: the clock never passes [idle], and the loop never ends. *)
Lemma rr_loop_diverges processes idle :
  rr_valid processes ->
  sumZ (map BurstDuration processes) < two63 ->
  0 <= idle < sumZ (map BurstDuration processes) ->
  arrived_work processes idle <= idle ->
  forall fuel st,
    rr_run processes idle st ->
    while_pending (rr_pass (length processes)) fuel st = OutOfFuel.
Proof.
  intros Hvalid Hsum Hidle Hwork.
  assert (Hbound : forall st p, rr_run processes idle st ->
            p ∈ copyProcesses st -> ArrivalTime p <= serviceTime st ->
            serviceTime st < idle).
  { intros st p ((Hinv & _) & Harrs & Hle) Hp Harr.
    destruct (Z.eq_dec (serviceTime st) idle) as [Heq|]; [exfalso | lia].
    rewrite <- Heq in Hwork.
    pose proof (rr_none_arrived processes st p (proj1 Hvalid) Hsum Hinv
                  Harrs Hwork Hp). lia. }
  induction fuel as [|fuel IH]; intros st Hst.
  - pose proof Hst as ((Hinv & _) & _ & Hle).
    destruct (rr_clock _ _ Hsum Hinv) as [Ht _].
    destruct Hinv as (_ & _ & Hunits & _).
    cbn [while_pending].
    destruct (copyProcesses st) eqn:Hcp; [| reflexivity].
    unfold pending_units in Hunits. rewrite Hcp in Hunits.
    cbn in Hunits. lia.
  - pose proof Hst as ((Hinv & _) & _ & Hle).
    destruct (rr_clock _ _ Hsum Hinv) as [Ht _].
    destruct Hinv as (_ & _ & Hunits & _).
    cbn [while_pending].
    destruct (copyProcesses st) eqn:Hcp.
    + unfold pending_units in Hunits. rewrite Hcp in Hunits.
      cbn in Hunits. lia.
    + destruct (rr_pass_run processes idle Hvalid Hsum Hbound st Hst)
        as (st' & Hpass & Hst' & _).
      rewrite Hpass. cbn [mbind exec_bind]. apply IH. exact Hst'.
Qed.


(** X8. [RRSchedule] never returns on valid processes for which the
    processor is idle at some time [idle] before the sum of the bursts: the
    processes that have arrived by [idle] have bursts of at most [idle] in
    all. The clock stops at the first such time, with processes pending
    that have not arrived. *)
Theorem RRSchedule_never_returns_when_idle (processes : list Process)
    (idle : Z) :
  rr_valid processes ->
  sumZ (map BurstDuration processes) < two63 ->
  0 <= idle < sumZ (map BurstDuration processes) ->
  arrived_work processes idle <= idle ->
  forall fuel, RRSchedule fuel processes = OutOfFuel.
Proof.
  intros Hvalid Hsum Hidle Hwork fuel. unfold RRSchedule.
  rewrite (rr_loop_diverges processes idle Hvalid Hsum Hidle Hwork fuel);
    [reflexivity |].
  apply rr_run_init; [exact Hvalid | lia].
Qed.


Lemma RRSchedule_never_returns_when_idle_witness :
  RRSchedule 100 [P 1 2 0; P 2 1 5] = OutOfFuel.
Proof.
  apply (RRSchedule_never_returns_when_idle [P 1 2 0; P 2 1 5] 2).
  - split; [apply (bool_decide_unpack _); vm_compute; exact I |].
    repeat (apply Forall_cons; split; [cbn; unfold two63; lia |]).
    apply Forall_nil_2.
  - vm_compute. reflexivity.
  - vm_compute. split; [discriminate | reflexivity].
  - vm_compute. discriminate.
Defined.

(* ===================================================================== *)
(** ** What Round-Robin has recorded when it returns *)
(* ===================================================================== *)

(** A property [Q] of the locals that every slice keeps holds when the outer
    loop ends. *)
Lemma rr_loop_inv processes (Q : Locals -> Prop) :
  rr_valid processes ->
  Q (init_copy processes) ->
  (forall st j p,
     rr_ready processes st -> Q st ->
     copyProcesses st !! j = Some p ->
     ArrivalTime p <= serviceTime st ->
     Q (rr_locals st j p
          (<[(length processes - length (copyProcesses st))%nat
             := Some (rr_row st p)]> (schedule st)))) ->
  forall fuel st',
    while_pending (rr_pass (length processes)) fuel (init_copy processes)
    = Ret st' ->
    Q st' /\ rr_ready processes st' /\ copyProcesses st' = [].
Proof.
  intros Hvalid Hinit Hstep fuel st' Hrun.
  destruct (while_pending_ret
              (fun st => rr_ready processes st /\ Q st)
              (rr_pass (length processes))) with
    (fuel := fuel) (st := init_copy processes) (st' := st')
    as ((Hready & HQ) & Hnil).
  - intros s s' Hs _ Hpass. unfold rr_pass in Hpass.
    eapply (for_range_brk_ret (fun st => rr_ready processes st /\ Q st));
      [exact Hs | | exact Hpass].
    intros j t r Hbody [Hready HQ]. unfold rr_body, rr_step in Hbody.
    destruct (copyProcesses t !! j) as [p|] eqn:Hp; [| discriminate].
    destruct (Z.leb_spec (ArrivalTime p) (serviceTime t)) as [Harr|Harr].
    + destruct (rr_locals_ready processes t j p (proj2 Hvalid) Hready Hp Harr)
        as [Hstore Hready'].
      rewrite Hstore in Hbody. cbn [mbind exec_bind] in Hbody.
      injection Hbody as <-.
      destruct (rr_finished t p); (split; [exact Hready' |]);
        apply Hstep; assumption.
    + injection Hbody as <-. split; assumption.
  - split; [apply rr_ready_init; exact Hvalid | exact Hinit].
  - exact Hrun.
  - auto.
Qed.

Lemma slices_of_snoc id slices ts :
  slices_of id (slices ++ [ts])
  = slices_of id slices + (if decide (PID ts = id) then 1 else 0).
Proof.
  unfold slices_of. rewrite filter_app, length_app, filter_cons, filter_nil.
  destruct (decide (PID ts = id)); cbn [length]; lia.
Qed.

(** Distinct ids tell the processes apart. *)
Lemma process_of_id (processes : list Process) p q :
  NoDup (ProcessID <$> processes) -> p ∈ processes -> q ∈ processes ->
  ProcessID q = ProcessID p -> q = p.
Proof.
  intros Hnd Hp Hq Hid.
  apply list_elem_of_lookup in Hp as [i Hi].
  apply list_elem_of_lookup in Hq as [j Hj].
  assert (i = j); [| congruence].
  eapply NoDup_lookup; [exact Hnd | |].
  - rewrite list_lookup_fmap, Hi. reflexivity.
  - rewrite list_lookup_fmap, Hj. cbn. rewrite Hid. reflexivity.
Qed.

Lemma rr_locals_slices processes st j p sched :
  rr_valid processes ->
  rr_inv processes st -> rr_slices processes st ->
  copyProcesses st !! j = Some p ->
  rr_slices processes (rr_locals st j p sched).
Proof.
  intros [Hnd Hbursts] (Hndcp & Hcp & _) Hslices Hp q Hq.
  assert (Hin : p ∈ copyProcesses st) by (eapply list_elem_of_lookup_2; eauto).
  destruct (Hcp p Hin) as (Hpin & r & Hr & Hr0 & Hrb).
  assert (Hrange : 0 < r < two63).
  { rewrite Forall_forall in Hbursts. specialize (Hbursts p Hpin). lia. }
  pose proof (slice_remainingBurst st p r Hr Hrange) as Hrem.
  pose proof (slice_finished st p r Hr Hrange) as Hfin.
  destruct (Hslices q Hq) as [Hcount Hdone].
  cbn [rr_locals gantt remainingBurst]. rewrite slices_of_snoc.
  cbn [rr_timeslice PID].
  destruct (decide (ProcessID p = ProcessID q)) as [Hid|Hid].
  - assert (q = p) as -> by (apply (process_of_id processes); auto).
    specialize (Hcount Hin). unfold map_get in Hcount.
    rewrite Hr in Hcount. cbn [default from_option id] in Hcount.
    assert (Hget : map_get (rr_remainingBurst st p) (ProcessID p) = r - 1).
    { unfold map_get. rewrite Hrem, lookup_insert_eq. reflexivity. }
    split; [intros _; rewrite Hget; lia |].
    cbn [rr_locals copyProcesses].
    destruct (rr_finished st p) eqn:Hf; [right | left; exact Hin].
    symmetry in Hfin. apply Z.eqb_eq in Hfin. lia.
  - assert (Hget : map_get (rr_remainingBurst st p) (ProcessID q)
                   = map_get (remainingBurst st) (ProcessID q)).
    { unfold map_get. rewrite Hrem, lookup_insert_ne by exact Hid.
      reflexivity. }
    rewrite Hget, Z.add_0_r. split.
    + intros Hq'. apply Hcount. eapply rr_locals_pending. exact Hq'.
    + destruct Hdone as [Hqcp|Hfull]; [left | right; exact Hfull].
      destruct (pending_others _ j p q Hndcp Hp Hqcp) as [->|[Hrm _]];
        [congruence |].
      apply rr_locals_pending_other. exact Hrm.
Qed.

Lemma rr_slices_init processes :
  rr_valid processes -> rr_slices processes (init_copy processes).
Proof.
  intros [Hnd _] p Hp. cbn [init_copy init_locals gantt remainingBurst
                             copyProcesses].
  split; [| left; exact Hp]. intros _.
  unfold map_get. rewrite init_remaining_lookup by assumption.
  reflexivity.
Qed.

(** X9. When [RRSchedule] returns on valid processes for which the processor
    is never idle, which it does, every process has exactly as many entries
    in the timeline as its burst has units. *)
Theorem RRSchedule_runs_every_burst (processes : list Process) :
  rr_valid processes ->
  sumZ (map BurstDuration processes) < two63 ->
  rr_never_idle processes ->
  exists out,
    RRSchedule (Z.to_nat (sumZ (map BurstDuration processes))) processes
    = Ret out
    /\ forall p, p ∈ processes ->
         slices_of (ProcessID p) (out_gantt out) = BurstDuration p.
Proof.
  intros Hvalid Hsum Hidle.
  destruct (rr_loop_returns processes Hvalid Hsum Hidle) as (st & Hrun).
  destruct (rr_loop_inv processes (rr_slices processes) Hvalid
              (rr_slices_init processes Hvalid)) with
    (fuel := Z.to_nat (sumZ (map BurstDuration processes))) (st' := st)
    as (Hslices & _ & Hnil).
  - intros s j p Hready Hs Hp _.
    apply rr_locals_slices; [exact Hvalid | apply Hready | exact Hs | exact Hp].
  - exact Hrun.
  - exists (report (length processes) st).
    split; [unfold RRSchedule; rewrite Hrun; reflexivity |].
    intros p Hp. cbn [report out_gantt].
    destruct (Hslices p Hp) as [_ [Hin|Hfull]]; [| exact Hfull].
    rewrite Hnil in Hin. apply elem_of_nil in Hin. contradiction.
Qed.

Lemma RRSchedule_runs_every_burst_witness :
  exists out,
    RRSchedule (Z.to_nat (sumZ (map BurstDuration [P 1 2 0; P 2 1 1])))
      [P 1 2 0; P 2 1 1]
    = Ret out
    /\ forall p, p ∈ [P 1 2 0; P 2 1 1] ->
         slices_of (ProcessID p) (out_gantt out) = BurstDuration p.
Proof.
  apply (RRSchedule_runs_every_burst [P 1 2 0; P 2 1 1]).
  - split; [apply (bool_decide_unpack _); vm_compute; exact I |].
    repeat (apply Forall_cons; split; [cbn; unfold two63; lia |]).
    apply Forall_nil_2.
  - vm_compute. reflexivity.
  - intros t Ht. change (sumZ (map BurstDuration [P 1 2 0; P 2 1 1])) with 3 in Ht.
    assert (Hcases : t = 0 \/ t = 1 \/ t = 2) by lia.
    destruct Hcases as [-> | [-> | ->]]; vm_compute; reflexivity.
Defined.

(** The row written with a slice at time [t]: it counts the turnaround up
    to the end of the slice and the wait as one unit less. *)
Lemma rr_row_final processes st j p :
  rr_valid processes ->
  Forall (fun p => 0 <= ArrivalTime p) processes ->
  sumZ (map BurstDuration processes) < two63 ->
  rr_inv processes st ->
  copyProcesses st !! j = Some p ->
  ArrivalTime p <= serviceTime st ->
  rr_final_row (gantt st ++ [rr_timeslice st p]) (rr_row st p)
  /\ rowExit (rr_row st p) = serviceTime st + 1
  /\ row_process (rr_row st p) = p.
Proof.
  intros [Hnd Hbursts] Harrs Hsum Hinv Hp Harr.
  assert (Hin : p ∈ copyProcesses st) by (eapply list_elem_of_lookup_2; eauto).
  pose proof (rr_pending_clock processes st p Hsum Hinv Hin) as Ht.
  destruct (rr_clock _ _ Hsum Hinv) as [Hclock _].
  destruct Hinv as (_ & Hcp & _).
  destruct (Hcp p Hin) as (Hpin & r & Hr & Hr0 & Hrb).
  assert (Hrange : 0 < r < two63).
  { rewrite Forall_forall in Hbursts. specialize (Hbursts p Hpin). lia. }
  assert (Ha : 0 <= ArrivalTime p).
  { rewrite Forall_forall in Harrs. apply Harrs, Hpin. }
  assert (Hw : rr_waitingTime st p = serviceTime st - ArrivalTime p).
  { rewrite (slice_waitingTime st p r Hr Hrange). unfold sub64.
    apply wrap64_id. unfold int64, two63 in *. lia. }
  assert (He : rr_completion st = serviceTime st + 1).
  { unfold rr_completion, add64. apply wrap64_id.
    unfold int64, two63 in *. lia. }
  assert (Hta : rr_turnaround st p = serviceTime st + 1 - ArrivalTime p).
  { unfold rr_turnaround. rewrite Hw, (slice_burstTime st p r Hr Hrange).
    unfold add64. rewrite wrap64_id; [lia |].
    unfold int64, two63 in *. lia. }
  split; [| split; [exact He | destruct p; reflexivity]].
  unfold rr_final_row.
  cbn [rr_row rowArrival rowExit rowTurnaround rowWait rowID].
  rewrite He, Hta, Hw.
  split; [lia |]. split; [lia |]. split; [lia |].
  exists (rr_timeslice st p). split; [| reflexivity].
  replace (Z.to_nat (serviceTime st + 1 - 1)) with (length (gantt st))
    by lia.
  rewrite lookup_app_r, Nat.sub_diag by lia. reflexivity.
Qed.

Lemma rr_final_row_snoc slices ts r :
  rr_final_row slices r -> rr_final_row (slices ++ [ts]) r.
Proof.
  intros (Ha & Hta & Hw & ts' & Hts & Hpid).
  split; [exact Ha |]. split; [exact Hta |]. split; [exact Hw |].
  exists ts'. split; [| exact Hpid].
  rewrite lookup_app_l; [exact Hts |]. eapply lookup_lt_Some. exact Hts.
Qed.

Lemma rr_locals_table processes st j p :
  rr_valid processes ->
  Forall (fun p => 0 <= ArrivalTime p) processes ->
  sumZ (map BurstDuration processes) < two63 ->
  rr_ready processes st -> rr_table processes st ->
  copyProcesses st !! j = Some p ->
  ArrivalTime p <= serviceTime st ->
  rr_table processes
    (rr_locals st j p
       (<[(length processes - length (copyProcesses st))%nat
          := Some (rr_row st p)]> (schedule st))).
Proof.
  intros Hvalid Harrs Hsum (Hinv & Hsched & Hlen)
    (done & Htake & Hperm & Hrows & Hexits & Hincr) Hp Harr.
  destruct (rr_row_final processes st j p Hvalid Harrs Hsum Hinv Hp Harr)
    as (Hfinal & Hexit & Hprocess).
  assert (Hj : (j < length (copyProcesses st))%nat)
    by (eapply lookup_lt_Some; eauto).
  assert (Hdone : length done
                  = (length processes - length (copyProcesses st))%nat).
  { apply (f_equal length) in Htake.
    rewrite length_take, length_fmap in Htake. lia. }
  assert (Hclock : serviceTime
                     (rr_locals st j p
                        (<[(length processes - length (copyProcesses st))%nat
                           := Some (rr_row st p)]> (schedule st)))
                   = serviceTime st + 1).
  { cbn [rr_locals serviceTime]. exact Hexit. }
  set (f := (length processes - length (copyProcesses st))%nat) in *.
  unfold rr_table. rewrite Hclock.
  cbn [rr_locals schedule gantt copyProcesses].
  destruct (rr_finished st p) eqn:Hfin.
  - exists (done ++ [rr_row st p]).
    rewrite remove_at_length by exact Hj.
    replace (length processes - (length (copyProcesses st) - 1))%nat
      with (S f) by (unfold f; lia).
    split; [| split; [| split; [| split]]].
    + rewrite (take_S_r _ _ (Some (rr_row st p))).
      * rewrite take_insert_ge by lia. rewrite Htake, fmap_app. reflexivity.
      * apply list_lookup_insert_eq. unfold f. lia.
    + rewrite fmap_app, <- app_assoc. cbn [fmap list_fmap app].
      rewrite Hprocess, <- Hperm. apply Permutation_app_head.
      rewrite remove_at_delete. symmetry. apply delete_Permutation.
      exact Hp.
    + apply Forall_app. split.
      * eapply Forall_impl; [exact Hrows |]. intros r.
        apply rr_final_row_snoc.
      * apply Forall_singleton. exact Hfinal.
    + apply Forall_app. split.
      * eapply Forall_impl; [exact Hexits |]. intros r Hr. cbn beta in *.
        lia.
      * apply Forall_singleton. lia.
    + intros i k ri rk Hik Hi Hk.
      destruct (decide (k < length done)%nat) as [Hlt|Hge].
      * rewrite lookup_app_l in Hi, Hk by lia.
        exact (Hincr i k ri rk Hik Hi Hk).
      * assert (k = length done) as ->.
        { apply lookup_lt_Some in Hk. rewrite length_app in Hk.
          cbn [length] in Hk. lia. }
        rewrite lookup_app_r, Nat.sub_diag in Hk by lia.
        injection Hk as <-. rewrite lookup_app_l in Hi by lia.
        rewrite Forall_forall in Hexits.
        specialize (Hexits ri (list_elem_of_lookup_2 _ _ _ Hi)).
        cbn beta in Hexits. lia.
  - exists done. split; [| split; [| split; [| split]]].
    + rewrite take_insert_ge by lia. exact Htake.
    + exact Hperm.
    + eapply Forall_impl; [exact Hrows |]. intros r.
      apply rr_final_row_snoc.
    + eapply Forall_impl; [exact Hexits |]. intros r Hr. cbn beta in *. lia.
    + exact Hincr.
Qed.

Lemma rr_table_init processes :
  rr_table processes (init_copy processes).
Proof.
  exists []. cbn [init_copy init_locals schedule copyProcesses gantt].
  rewrite Nat.sub_diag, take_0.
  split; [reflexivity |]. split; [reflexivity |].
  split; [constructor |]. split; [constructor |].
  intros i j ri rj _ Hi. discriminate Hi.
Qed.

(** X10. When [RRSchedule] returns on valid processes for which the
    processor is never idle, which it does, the table has one row per
    process, in the order in which the processes finished: the completion
    time of a row is the end of the slice of its process with which the row
    was written, the turnaround is the completion time less the arrival,
    and the wait is the turnaround less 1, whatever the burst. *)
Theorem RRSchedule_table (processes : list Process) :
  rr_valid processes ->
  Forall (fun p => 0 <= ArrivalTime p) processes ->
  sumZ (map BurstDuration processes) < two63 ->
  rr_never_idle processes ->
  exists out done,
    RRSchedule (Z.to_nat (sumZ (map BurstDuration processes))) processes
    = Ret out
    /\ out_schedule out = Some <$> done
    /\ row_process <$> done ≡ₚ processes
    /\ Forall (rr_final_row (out_gantt out)) done
    /\ forall i j ri rj, (i < j)%nat -> done !! i = Some ri ->
         done !! j = Some rj -> rowExit ri < rowExit rj.
Proof.
  intros Hvalid Harrs Hsum Hidle.
  destruct (rr_loop_returns processes Hvalid Hsum Hidle) as (st & Hrun).
  destruct (rr_loop_inv processes (rr_table processes) Hvalid
              (rr_table_init processes)) with
    (fuel := Z.to_nat (sumZ (map BurstDuration processes))) (st' := st)
    as ((done & Htake & Hperm & Hrows & _ & Hincr) & Hready & Hnil).
  - intros s j p Hready Hs Hp Harr.
    apply rr_locals_table; assumption.
  - exact Hrun.
  - exists (report (length processes) st), done.
    split; [unfold RRSchedule; rewrite Hrun; reflexivity |].
    cbn [report out_schedule out_gantt].
    rewrite Hnil in Htake, Hperm. cbn [length] in Htake.
    rewrite Nat.sub_0_r, app_nil_r in *.
    destruct Hready as (_ & Hlen & _).
    rewrite take_ge in Htake by lia.
    auto.
Qed.

Lemma RRSchedule_table_witness :
  exists out done,
    RRSchedule (Z.to_nat (sumZ (map BurstDuration [P 1 2 0; P 2 1 1])))
      [P 1 2 0; P 2 1 1]
    = Ret out
    /\ out_schedule out = Some <$> done
    /\ row_process <$> done ≡ₚ [P 1 2 0; P 2 1 1]
    /\ Forall (rr_final_row (out_gantt out)) done
    /\ forall i j ri rj, (i < j)%nat -> done !! i = Some ri ->
         done !! j = Some rj -> rowExit ri < rowExit rj.
Proof.
  apply (RRSchedule_table [P 1 2 0; P 2 1 1]).
  - split; [apply (bool_decide_unpack _); vm_compute; exact I |].
    repeat (apply Forall_cons; split; [cbn; unfold two63; lia |]).
    apply Forall_nil_2.
  - repeat (apply Forall_cons; split; [cbn; lia |]). apply Forall_nil_2.
  - vm_compute. reflexivity.
  - intros t Ht. change (sumZ (map BurstDuration [P 1 2 0; P 2 1 1])) with 3 in Ht.
    assert (Hcases : t = 0 \/ t = 1 \/ t = 2) by lia.
    destruct Hcases as [-> | [-> | ->]]; vm_compute; reflexivity.
Defined.

(* ===================================================================== *)
(** ** Round-Robin on any input *)
(* ===================================================================== *)




(* ===================================================================== *)
(** ** Printing and parsing numbers *)
(* ===================================================================== *)

Lemma digit_val_digit d : 0 <= d <= 9 -> digit_val (digit d) = Some d.
Proof.
  intros Hd.
  assert (Hcases : d = 0 \/ d = 1 \/ d = 2 \/ d = 3 \/ d = 4 \/ d = 5
                   \/ d = 6 \/ d = 7 \/ d = 8 \/ d = 9) by lia.
  repeat (destruct Hcases as [-> | Hcases]; [reflexivity |]).
  subst d. reflexivity.
Qed.

Lemma digit_not_sign d :
  0 <= d <= 9 ->
  Ascii.eqb (digit d) "+" = false /\ Ascii.eqb (digit d) "-" = false.
Proof.
  intros Hd.
  assert (Hcases : d = 0 \/ d = 1 \/ d = 2 \/ d = 3 \/ d = 4 \/ d = 5
                   \/ d = 6 \/ d = 7 \/ d = 8 \/ d = 9) by lia.
  repeat (destruct Hcases as [-> | Hcases]; [split; reflexivity |]).
  subst d. split; reflexivity.
Qed.

Lemma parse_digits_snoc s : forall acc c,
  parse_digits acc (s ++ [c])
  = match parse_digits acc s, digit_val c with
    | Some v, Some d => Some (10 * v + d)
    | _, _ => None
    end.
Proof.
  induction s as [|x s IH]; intros acc c; cbn [app parse_digits].
  - destruct (digit_val c); reflexivity.
  - destruct (digit_val x); [apply IH | reflexivity].
Qed.

Lemma utoa_S fuel n :
  utoa (S fuel) n
  = if n <? 10 then [digit n] else utoa fuel (n / 10) ++ [digit (n mod 10)].
Proof. reflexivity. Qed.

(** The digits of a number that is not negative start with a digit and read
    back as the number. *)
Lemma utoa_head fuel n :
  0 <= n -> exists d rest, 0 <= d <= 9 /\ utoa (S fuel) n = digit d :: rest.
Proof.
  revert n. induction fuel as [|fuel IH]; intros n Hn; rewrite utoa_S.
  - cbn [utoa app]. destruct (Z.ltb_spec n 10).
    + exists n, []. split; [lia | reflexivity].
    + exists (n mod 10), []. split; [| reflexivity].
      pose proof (Z.mod_pos_bound n 10). lia.
  - destruct (Z.ltb_spec n 10).
    + exists n, []. split; [lia | reflexivity].
    + destruct (IH (n / 10)) as (d & rest & Hd & Heq).
      { apply Z.div_pos; lia. }
      rewrite Heq. exists d, (rest ++ [digit (n mod 10)]).
      split; [exact Hd | reflexivity].
Qed.

Lemma parse_utoa fuel n :
  0 <= n < 10 ^ Z.of_nat (S fuel) ->
  parse_digits 0 (utoa (S fuel) n) = Some n.
Proof.
  revert n. induction fuel as [|fuel IH]; intros n Hn.
  - change (10 ^ Z.of_nat 1) with 10 in Hn. cbn [utoa].
    destruct (Z.ltb_spec n 10); [| lia].
    cbn [parse_digits]. rewrite digit_val_digit by lia. f_equal; lia.
  - rewrite utoa_S.
    destruct (Z.ltb_spec n 10).
    + cbn [parse_digits]. rewrite digit_val_digit by lia. f_equal; lia.
    + rewrite parse_digits_snoc, IH.
      * pose proof (Z.mod_pos_bound n 10).
        rewrite digit_val_digit by lia. f_equal.
        pose proof (Z.div_mod n 10). lia.
      * split; [apply Z.div_pos; lia |].
        apply Z.div_lt_upper_bound; [lia |].
        rewrite Nat2Z.inj_succ, Z.pow_succ_r in Hn by lia. lia.
Qed.

(** The number of digits. *)
Lemma utoa_length_le fuel : forall n (k : nat),
  0 <= n < 10 ^ Z.of_nat k -> (1 <= k)%nat ->
  (length (utoa (S fuel) n) <= k)%nat.
Proof.
  induction fuel as [|fuel IH]; intros n k Hn Hk; rewrite utoa_S.
  - cbn [utoa]. destruct (n <? 10); cbn [length app]; lia.
  - destruct (Z.ltb_spec n 10); [cbn [length]; lia |].
    rewrite length_app. cbn [length].
    destruct k as [|[|k]]; [lia | change (10 ^ Z.of_nat 1) with 10 in Hn; lia |].
    assert (length (utoa (S fuel) (n / 10)) <= S k)%nat; [| lia].
    apply IH; [| lia].
    split; [apply Z.div_pos; lia |].
    apply Z.div_lt_upper_bound; [lia |].
    rewrite Nat2Z.inj_succ, Z.pow_succ_r in Hn by lia. lia.
Qed.

Lemma utoa_length_ge fuel : forall n (k : nat),
  10 ^ Z.of_nat k <= n -> (k <= fuel)%nat ->
  (S k <= length (utoa (S fuel) n))%nat.
Proof.
  induction fuel as [|fuel IH]; intros n k Hn Hk; rewrite utoa_S.
  - cbn [utoa]. destruct (n <? 10); cbn [length app]; lia.
  - destruct k as [|k].
    + destruct (n <? 10); [cbn [length]; lia |].
      rewrite length_app. cbn [length]. lia.
    + rewrite Nat2Z.inj_succ, Z.pow_succ_r in Hn by lia.
      assert (0 < 10 ^ Z.of_nat k) by (apply Z.pow_pos_nonneg; lia).
      destruct (Z.ltb_spec n 10); [lia |].
      rewrite length_app. cbn [length].
      assert (S k <= length (utoa (S fuel) (n / 10)))%nat; [| lia].
      apply IH; [| lia].
      apply Z.div_le_lower_bound; lia.
Qed.

Lemma ParseUint_utoa n :
  0 <= n < 10 ^ 20 -> ParseUint (utoa 20 n) = Some n.
Proof.
  intros Hn. unfold ParseUint.
  destruct (utoa_head 19 n) as (d & rest & _ & Hhead); [lia |].
  destruct (utoa 20 n) as [|c s] eqn:E; [discriminate Hhead |].
  rewrite <- E. apply (parse_utoa 19). exact Hn.
Qed.

Lemma ParseInt_Sprint z : int64 z -> ParseInt (Sprint z) = Some z.
Proof.
  intros Hz. unfold int64, two63 in Hz. unfold Sprint.
  destruct (Z.ltb_spec z 0) as [Hneg|Hpos].
  - unfold ParseInt. change (Ascii.eqb "-" "-") with true.
    change (Ascii.eqb "-" "+") with false. cbn [orb].
    rewrite ParseUint_utoa by lia.
    destruct (Z.leb_spec (- z) two63) as [_|H];
      [f_equal; lia | unfold two63 in H; lia].
  - destruct (utoa_head 19 z) as (d & rest & Hd & Hhead); [lia |].
    unfold ParseInt. rewrite Hhead.
    destruct (digit_not_sign d Hd) as [-> ->]. cbn [orb].
    rewrite <- Hhead, ParseUint_utoa by lia.
    destruct (Z.ltb_spec z two63) as [_|H];
      [reflexivity | unfold two63 in H; lia].
Qed.

(** How long an [int64] prints. *)
Lemma Sprint_length z :
  int64 z ->
  (10 <= length (Sprint z))%nat <-> (z <= - 10 ^ 8 \/ 10 ^ 9 <= z).
Proof.
  intros Hz. unfold int64, two63 in Hz. unfold Sprint.
  destruct (Z.ltb_spec z 0) as [Hneg|Hpos]; cbn [length].
  - destruct (Z.le_gt_cases (10 ^ 8) (- z)) as [Hbig|Hsmall].
    + pose proof (utoa_length_ge 19 (- z) 8 Hbig ltac:(lia)). lia.
    + pose proof (utoa_length_le 19 (- z) 8 ltac:(lia) ltac:(lia)). lia.
  - destruct (Z.le_gt_cases (10 ^ 9) z) as [Hbig|Hsmall].
    + pose proof (utoa_length_ge 19 z 9 Hbig ltac:(lia)). lia.
    + pose proof (utoa_length_le 19 z 9 ltac:(lia) ltac:(lia)). lia.
Qed.

(** X11. [mustStrToInt] reads back every [int64] from the text that
    [fmt.Sprint] prints for it, without exiting. *)
Theorem mustStrToInt_Sprint (z : Z) :
  int64 z -> mustStrToInt (Sprint z) = Done z.
Proof.
  intros Hz. unfold mustStrToInt. rewrite ParseInt_Sprint by exact Hz.
  reflexivity.
Qed.

Lemma mustStrToInt_Sprint_witness :
  mustStrToInt (Sprint (-9223372036854775808)) = Done (-9223372036854775808).
Proof.
  apply (mustStrToInt_Sprint (-9223372036854775808)).
  unfold int64, two63. lia.
Defined.

(* ===================================================================== *)
(** ** [loadProcesses] *)
(* ===================================================================== *)

Lemma parses_inj row k z z' : parses row k z -> parses row k z' -> z = z'.
Proof. intros (s & Hs & Hz) (s' & Hs' & Hz'). congruence. Qed.

Lemma parses_length row k z : parses row k z -> (k < length row)%nat.
Proof. intros (s & Hs & _). eapply lookup_lt_Some. exact Hs. Qed.

(** The ways the body of the loop can end, and what each tells about the
    row. *)
Lemma load_row_spec row p :
  match load_row row p with
  | Done p' =>
      parses row 0 (ProcessID p')
      /\ parses row 1 (BurstDuration p')
      /\ parses row 2 (ArrivalTime p')
      /\ if decide (length row = 4%nat) then parses row 3 (Priority p')
         else Priority p' = Priority p
  | Exit status => status = 1 /\ bad_number row
  | Crash => (length row < 3)%nat
  end.
Proof.
  unfold load_row, field, mustStrToInt.
  destruct (row !! 0%nat) as [s0|] eqn:E0; cbn [mbind run_bind];
    [| apply lookup_ge_None_1 in E0; lia].
  destruct (ParseInt s0) as [z0|] eqn:P0; cbn [mbind run_bind];
    [| split; [reflexivity |]; exists 0%nat, s0; auto with lia].
  destruct (row !! 1%nat) as [s1|] eqn:E1; cbn [mbind run_bind];
    [| apply lookup_ge_None_1 in E1; lia].
  destruct (ParseInt s1) as [z1|] eqn:P1; cbn [mbind run_bind];
    [| split; [reflexivity |]; exists 1%nat, s1; auto with lia].
  destruct (row !! 2%nat) as [s2|] eqn:E2; cbn [mbind run_bind];
    [| apply lookup_ge_None_1 in E2; lia].
  destruct (ParseInt s2) as [z2|] eqn:P2; cbn [mbind run_bind];
    [| split; [reflexivity |]; exists 2%nat, s2; auto with lia].
  destruct (decide (length row = 4%nat)) as [Hlen|Hlen].
  - destruct (row !! 3%nat) as [s3|] eqn:E3; cbn [mbind run_bind];
      [| apply lookup_ge_None_1 in E3; lia].
    destruct (ParseInt s3) as [z3|] eqn:P3; cbn [mbind run_bind];
      [| split; [reflexivity |]; exists 3%nat, s3; auto with lia].
    cbn [ProcessID BurstDuration ArrivalTime Priority].
    repeat split; eexists; eauto.
  - cbn [ProcessID BurstDuration ArrivalTime Priority].
    repeat split; try (eexists; eauto).
Qed.

Lemma row_fields_inj row p p' :
  row_fields row p -> row_fields row p' -> p = p'.
Proof.
  intros (H0 & H1 & H2 & H3) (H0' & H1' & H2' & H3').
  pose proof (parses_inj _ _ _ _ H0 H0').
  pose proof (parses_inj _ _ _ _ H1 H1').
  pose proof (parses_inj _ _ _ _ H2 H2').
  assert (Priority p = Priority p').
  { destruct (decide (length row = 4%nat)).
    - exact (parses_inj _ _ _ _ H3 H3').
    - congruence. }
  destruct p, p'. cbn in *. congruence.
Qed.

Lemma row_fields_good row p :
  row_fields row p -> (3 <= length row)%nat /\ ~ bad_number row.
Proof.
  intros (H0 & H1 & H2 & H3). split.
  - apply parses_length in H2. lia.
  - intros (k & s & Hs & Hbad & Hk).
    assert (Hnone : forall z, ~ parses row k z).
    { intros z (s' & Hs' & Hz). congruence. }
    destruct Hk as [Hk|[-> Hlen]].
    + destruct k as [|[|[|k]]]; [| | | lia]; eapply Hnone; eauto.
    + rewrite decide_True in H3 by exact Hlen. eapply Hnone; eauto.
Qed.

Lemma rows_fields_inj (rs : list (list (list ascii))) : forall ps ps',
  Forall2 row_fields rs ps -> Forall2 row_fields rs ps' -> ps = ps'.
Proof.
  induction rs as [|r rs IH]; intros ps ps' H H'.
  - apply Forall2_nil_inv_l in H, H'. congruence.
  - apply Forall2_cons_inv_l in H as (p & t & Hp & Ht & ->).
    apply Forall2_cons_inv_l in H' as (p' & t' & Hp' & Ht' & ->).
    f_equal; [eapply row_fields_inj; eauto | eapply IH; eauto].
Qed.

(** The ways the loop can end. *)
Lemma load_loop_spec rows : forall n done,
  (length done + n = length rows)%nat ->
  match run_range (load_body rows) (length done) n
          (done ++ replicate n zero_process) with
  | Done ps =>
      exists tail, ps = done ++ tail
        /\ Forall2 row_fields (drop (length done) rows) tail
  | Exit status =>
      status = 1 /\ Exists bad_number (drop (length done) rows)
  | Crash =>
      Exists (fun row => (length row < 3)%nat) (drop (length done) rows)
  end.
Proof.
  induction n as [|n IH]; intros done Hlen.
  - cbn [run_range]. exists []. split; [reflexivity |].
    rewrite drop_ge by lia. constructor.
  - destruct (lookup_lt_is_Some_2 rows (length done)) as [row Hrow]; [lia |].
    assert (Hbody : load_body rows (length done)
                      (done ++ replicate (S n) zero_process)
                    = p' ← load_row row zero_process;
                      Done (<[length done := p']>
                              (done ++ replicate (S n) zero_process))).
    { unfold load_body. rewrite Hrow.
      rewrite lookup_app_r, Nat.sub_diag by lia. reflexivity. }
    cbn [run_range]. rewrite Hbody, (drop_S _ _ _ Hrow).
    cbn [replicate].
    pose proof (load_row_spec row zero_process) as Hspec.
    destruct (load_row row zero_process) as [p'| |]; cbn [mbind run_bind].
    + replace (<[length done := p']> (done ++ zero_process :: replicate n zero_process))
        with ((done ++ [p']) ++ replicate n zero_process).
      2:{ rewrite insert_app_r_alt, Nat.sub_diag by lia.
          cbn [insert list_insert]. rewrite <- app_assoc. reflexivity. }
      specialize (IH (done ++ [p'])).
      rewrite length_app in IH. cbn [length] in IH.
      replace (length done + 1)%nat with (S (length done)) in IH by lia.
      specialize (IH ltac:(lia)).
      destruct (run_range _ _ _ _) as [ps| |].
      * destruct IH as (tail & -> & Htail). exists (p' :: tail).
        split; [rewrite <- app_assoc; reflexivity |].
        constructor; [exact Hspec | exact Htail].
      * destruct IH as [-> Hbad]. split; [reflexivity |].
        apply Exists_cons_tl. exact Hbad.
      * apply Exists_cons_tl. exact IH.
    + destruct Hspec as [-> Hbad]. split; [reflexivity |].
      apply Exists_cons_hd. exact Hbad.
    + apply Exists_cons_hd. exact Hspec.
Qed.

Lemma load_rows_spec rows :
  match run_range (load_body rows) 0 (length rows)
          (replicate (length rows) zero_process) with
  | Done ps => Forall2 row_fields rows ps
  | Exit status => status = 1 /\ Exists bad_number rows
  | Crash => Exists (fun row => (length row < 3)%nat) rows
  end.
Proof.
  pose proof (load_loop_spec rows (length rows) [] eq_refl) as H.
  cbn [length app] in H. rewrite drop_0 in H.
  destruct (run_range _ _ _ _) as [ps| |]; [| exact H ..].
  destruct H as (tail & -> & Htail). exact Htail.
Qed.

(** X12. [loadProcesses] returns the processes [ps] exactly when there is
    one row per process, in order, whose first three fields are the id, the
    burst and the arrival of the process as numbers, and whose fourth field
    is its priority when the row has exactly four fields; the priority is 0
    for a row of three fields, and also for a row of five or more. *)
Theorem loadProcesses_rows (rows : list (list (list ascii)))
    (ps : list Process) :
  loadProcesses (inl rows) = Done (inl ps) <-> Forall2 row_fields rows ps.
Proof.
  unfold loadProcesses. pose proof (load_rows_spec rows) as Hspec.
  destruct (run_range _ _ _ _) as [ps'| |]; cbn [mbind run_bind].
  - split.
    + intros [= <-]. exact Hspec.
    + intros Hps. do 2 f_equal.
      exact (rows_fields_inj _ _ _ Hspec Hps).
  - split; [discriminate |]. intros Hps. exfalso.
    destruct Hspec as [_ Hbad]. apply Exists_exists in Hbad as (row & Hin & Hbad).
    apply list_elem_of_lookup in Hin as [i Hi].
    destruct (Forall2_lookup_l _ _ _ _ _ Hps Hi) as (p & _ & Hp).
    apply row_fields_good in Hp as [_ Hgood]. contradiction.
  - split; [discriminate |]. intros Hps. exfalso.
    apply Exists_exists in Hspec as (row & Hin & Hshort).
    apply list_elem_of_lookup in Hin as [i Hi].
    destruct (Forall2_lookup_l _ _ _ _ _ Hps Hi) as (p & _ & Hp).
    apply row_fields_good in Hp as [Hlen _]. lia.
Qed.

(** X13. The ways [loadProcesses] fails. It returns an error only when
    reading the CSV failed, and the message is that of the reader followed
    by ": reading CSV". A field that is not a number is not reported as an
    error: the program exits with status 1. A row with fewer than three
    fields makes it panic. *)
Theorem loadProcesses_failures
    (read : list (list (list ascii)) + list ascii) :
  (forall err,
     loadProcesses read = Done (inr err) <->
     exists msg, read = inr msg /\ err = msg ++ bytes ": reading CSV")
  /\ (forall status,
        loadProcesses read = Exit status ->
        status = 1 /\ exists rows, read = inl rows /\ Exists bad_number rows)
  /\ (loadProcesses read = Crash ->
      exists rows,
        read = inl rows /\ Exists (fun row => (length row < 3)%nat) rows).
Proof.
  destruct read as [rows|msg].
  - unfold loadProcesses. pose proof (load_rows_spec rows) as Hspec.
    destruct (run_range _ _ _ _) as [ps'| |]; cbn [mbind run_bind].
    + split; [| split; discriminate].
      intros err. split; [discriminate | intros (m & Hm & _); discriminate].
    + split; [| split; [| discriminate]].
      * intros err. split; [discriminate | intros (m & Hm & _); discriminate].
      * intros s [= <-]. destruct Hspec as [-> Hbad]. eauto.
    + split; [| split; [discriminate |]].
      * intros err. split; [discriminate | intros (m & Hm & _); discriminate].
      * intros _. eauto.
  - cbn [loadProcesses]. split; [| split; discriminate].
    intros err. split.
    + intros [= <-]. eauto.
    + intros (m & [= <-] & ->). reflexivity.
Qed.

(* ===================================================================== *)
(** ** [outputGantt] *)
(* ===================================================================== *)

(** The count of the padding is negative from 10 characters on: the
    division of [8 - len(pid)] by 2 truncates towards zero. *)
Lemma padding_negative (l : nat) :
  (8 - Z.of_nat l) ÷ 2 < 0 <-> (10 <= l)%nat.
Proof.
  split.
  - intros H. destruct (decide (10 <= l)%nat) as [|Hl]; [assumption |].
    exfalso.
    assert (Hcases : (l <= 8)%nat \/ l = 9%nat) by lia.
    destruct Hcases as [Hle | ->]; [| vm_compute in H; discriminate].
    assert (0 <= (8 - Z.of_nat l) ÷ 2) by (apply Z.quot_pos; lia). lia.
  - intros H.
    replace (8 - Z.of_nat l) with (- (Z.of_nat l - 8)) by lia.
    rewrite Z.quot_opp_l by lia.
    assert (1 <= (Z.of_nat l - 8) ÷ 2); [| lia].
    apply Z.quot_le_lower_bound; lia.
Qed.

Lemma gantt_cell_short gantt i ts w :
  gantt !! i = Some ts ->
  (length (Sprint (PID ts)) < 10)%nat ->
  gantt_cell gantt i w = Ret (w ++ cell_text ts).
Proof.
  intros Hts Hshort. unfold gantt_cell, Repeat. rewrite Hts.
  destruct (Z.ltb_spec ((8 - Z.of_nat (length (Sprint (PID ts)))) ÷ 2) 0)
    as [Hneg|_]; [apply padding_negative in Hneg; lia |].
  cbn [mbind exec_bind]. unfold Fprint, cell_text.
  cbn [concat]. rewrite app_nil_r. reflexivity.
Qed.

Lemma gantt_cell_long gantt i ts w :
  gantt !! i = Some ts ->
  (10 <= length (Sprint (PID ts)))%nat ->
  gantt_cell gantt i w = Panic.
Proof.
  intros Hts Hlong. unfold gantt_cell, Repeat. rewrite Hts.
  apply padding_negative in Hlong.
  destruct (Z.ltb_spec ((8 - Z.of_nat (length (Sprint (PID ts)))) ÷ 2) 0);
    [reflexivity | lia].
Qed.

(** The first loop: one cell per entry, or a panic at the first id of 10
    characters or more. *)
Lemma gantt_cells_short gantt : forall n i w,
  (i + n = length gantt)%nat ->
  Forall (fun ts => (length (Sprint (PID ts)) < 10)%nat) (drop i gantt) ->
  for_range (gantt_cell gantt) i n w
  = Ret (w ++ concat (map cell_text (drop i gantt))).
Proof.
  induction n as [|n IH]; intros i w Hlen Hall; cbn [for_range].
  - rewrite drop_ge by lia. cbn [map concat]. rewrite app_nil_r.
    reflexivity.
  - destruct (lookup_lt_is_Some_2 gantt i) as [ts Hts]; [lia |].
    rewrite (drop_S _ _ _ Hts) in Hall |- *.
    apply Forall_cons in Hall as [Hshort Hall].
    rewrite (gantt_cell_short gantt i ts w Hts Hshort).
    cbn [mbind exec_bind]. rewrite IH by (lia || exact Hall).
    cbn [map concat]. rewrite <- !app_assoc. reflexivity.
Qed.

Lemma gantt_cells_long gantt : forall n i w,
  (i + n = length gantt)%nat ->
  Exists (fun ts => (10 <= length (Sprint (PID ts)))%nat) (drop i gantt) ->
  for_range (gantt_cell gantt) i n w = Panic.
Proof.
  induction n as [|n IH]; intros i w Hlen Hex; cbn [for_range].
  - rewrite drop_ge in Hex by lia. apply Exists_nil in Hex. contradiction.
  - destruct (lookup_lt_is_Some_2 gantt i) as [ts Hts]; [lia |].
    rewrite (drop_S _ _ _ Hts) in Hex.
    destruct (decide (10 <= length (Sprint (PID ts)))%nat) as [Hlong|Hshort].
    + rewrite (gantt_cell_long gantt i ts w Hts Hlong). reflexivity.
    + rewrite (gantt_cell_short gantt i ts w Hts) by lia.
      cbn [mbind exec_bind]. apply IH; [lia |].
      apply Exists_cons in Hex as [Hhd|Htl]; [lia | exact Htl].
Qed.

(** The second loop: the start of every entry, and the stop of the last one
    only. *)
Lemma gantt_times gantt : forall n i w,
  (i + n = length gantt)%nat ->
  for_range (gantt_time gantt) i n w = Ret (w ++ times_text (drop i gantt)).
Proof.
  induction n as [|n IH]; intros i w Hlen; cbn [for_range].
  - rewrite drop_ge by lia. unfold times_text. cbn [map concat last app].
    rewrite app_nil_r. reflexivity.
  - destruct (lookup_lt_is_Some_2 gantt i) as [ts Hts]; [lia |].
    assert (Hbody : gantt_time gantt i w
              = Ret (if decide (Z.of_nat (length gantt) - 1 = Z.of_nat i)
                     then Fprint (Fprint w [Sprint (Start ts); tab])
                            [Sprint (Stop ts)]
                     else Fprint w [Sprint (Start ts); tab])).
    { unfold gantt_time. rewrite Hts. reflexivity. }
    rewrite (drop_S _ _ _ Hts), Hbody.
    cbn [mbind exec_bind]. rewrite IH by lia.
    unfold Fprint. cbn [concat]. rewrite !app_nil_r.
    destruct (decide (Z.of_nat (length gantt) - 1 = Z.of_nat i)) as [Hlast|Hmore].
    + rewrite drop_ge by lia. unfold times_text.
      cbn [map concat last app]. rewrite !app_nil_r, <- !app_assoc.
      reflexivity.
    + destruct (lookup_lt_is_Some_2 gantt (S i)) as [ts' Hts']; [lia |].
      rewrite (drop_S _ _ _ Hts'). unfold times_text.
      cbn [map concat]. rewrite last_cons_cons, <- !app_assoc.
      reflexivity.
Qed.

(** [outputGantt] either panics at an id of 10 characters or more, or
    writes the chart. *)
Lemma outputGantt_cases (w : list ascii) (gantt : list TimeSlice) :
  (Exists (fun ts => (10 <= length (Sprint (PID ts)))%nat) gantt
   /\ outputGantt w gantt = Panic)
  \/ (Forall (fun ts => (length (Sprint (PID ts)) < 10)%nat) gantt
      /\ outputGantt w gantt
         = Ret (w ++ bytes "Gantt schedule" ++ newline
                  ++ bytes "|" ++ concat (map cell_text gantt) ++ newline
                  ++ times_text gantt ++ newline ++ newline)).
Proof.
  unfold outputGantt.
  destruct (decide (Exists (fun ts => (10 <= length (Sprint (PID ts)))%nat)
                      gantt)) as [Hex|Hnone].
  - left. split; [exact Hex |].
    rewrite gantt_cells_long; [reflexivity | lia |].
    rewrite drop_0. exact Hex.
  - right.
    assert (Hall : Forall (fun ts => (length (Sprint (PID ts)) < 10)%nat)
                     gantt).
    { apply Forall_forall. intros ts Hts.
      destruct (decide (10 <= length (Sprint (PID ts)))%nat) as [Hl|]; [| lia].
      exfalso. apply Hnone, Exists_exists. eauto. }
    split; [exact Hall |].
    rewrite gantt_cells_short; [| lia | rewrite drop_0; exact Hall].
    cbn [mbind exec_bind]. rewrite gantt_times by lia.
    cbn [mbind exec_bind]. rewrite !drop_0. unfold Fprint. cbn [concat].
    rewrite !app_nil_r, <- !app_assoc. reflexivity.
Qed.

(** X14. [outputGantt] panics, in [strings.Repeat], exactly when the id of
    some timeline entry prints with 10 characters or more, that is, when it
    is at least 10^9 or at most -10^8: the padding [(8 - len(pid)) / 2] is
    negative then. *)
Theorem outputGantt_panics (w : list ascii) (gantt : list TimeSlice) :
  Forall (fun ts => int64 (PID ts)) gantt ->
  outputGantt w gantt = Panic <-> Exists long_pid gantt.
Proof.
  intros Hids. rewrite Forall_forall in Hids.
  destruct (outputGantt_cases w gantt) as [[Hex ->]|[Hall ->]].
  - split; [intros _ | reflexivity].
    apply Exists_exists in Hex as (ts & Hts & Hl).
    apply Exists_exists. exists ts. split; [exact Hts |].
    apply Sprint_length; [apply Hids, Hts | exact Hl].
  - split; [discriminate |]. intros Hex. exfalso.
    apply Exists_exists in Hex as (ts & Hts & Hl).
    rewrite Forall_forall in Hall. specialize (Hall ts Hts).
    apply (Sprint_length _ (Hids ts Hts)) in Hl. lia.
Qed.

Lemma outputGantt_panics_witness :
  outputGantt [] [mkTimeSlice 1 0 5; mkTimeSlice 1000000000 5 8] = Panic
  <-> Exists long_pid [mkTimeSlice 1 0 5; mkTimeSlice 1000000000 5 8].
Proof.
  apply (outputGantt_panics []
           [mkTimeSlice 1 0 5; mkTimeSlice 1000000000 5 8]).
  repeat (apply Forall_cons; split;
          [cbn; unfold int64, two63; lia |]).
  apply Forall_nil_2.
Defined.

(** X15. When every id is above -10^8 and below 10^9, [outputGantt] writes
    the heading, a line of one cell per timeline entry (the id between two
    paddings of [(8 - len(id)) / 2] spaces, closed by a bar), and a line of
    the start of every entry, each followed by a tab, with the stop of the
    last entry only at its end; then an empty line. *)
Theorem outputGantt_text (w : list ascii) (gantt : list TimeSlice) :
  Forall (fun ts => - 10 ^ 8 < PID ts < 10 ^ 9) gantt ->
  outputGantt w gantt
  = Ret (w ++ bytes "Gantt schedule" ++ newline
           ++ bytes "|" ++ concat (map cell_text gantt) ++ newline
           ++ times_text gantt ++ newline ++ newline).
Proof.
  intros Hids.
  destruct (outputGantt_cases w gantt) as [[Hex _]|[_ Hrun]];
    [exfalso | exact Hrun].
  apply Exists_exists in Hex as (ts & Hts & Hl).
  rewrite Forall_forall in Hids. specialize (Hids ts Hts).
  apply Sprint_length in Hl; [lia |].
  unfold int64, two63. lia.
Qed.

Lemma outputGantt_text_witness :
  outputGantt [] [mkTimeSlice 1 0 5; mkTimeSlice 22 5 8]
  = Ret ([] ++ bytes "Gantt schedule" ++ newline
           ++ bytes "|"
           ++ concat (map cell_text [mkTimeSlice 1 0 5; mkTimeSlice 22 5 8])
           ++ newline
           ++ times_text [mkTimeSlice 1 0 5; mkTimeSlice 22 5 8]
           ++ newline ++ newline).
Proof.
  apply (outputGantt_text [] [mkTimeSlice 1 0 5; mkTimeSlice 22 5 8]).
  repeat (apply Forall_cons; split; [cbn; lia |]).
  apply Forall_nil_2.
Defined.

(* ===================================================================== *)
(** ** Printing the timeline of a scheduler *)
(* ===================================================================== *)

Lemma fcfs_served_slices_pid processes :
  map PID (sv_slices (fcfs_served processes)) = map ProcessID processes.
Proof.
  induction processes as [|x processes IH] using rev_ind; [reflexivity |].
  rewrite fcfs_served_snoc. cbn [fcfs_serve sv_slices].
  rewrite !map_app, IH. reflexivity.
Qed.

(** The chart of a timeline that names the processes [jobs]. *)
Lemma outputGantt_ids (w : list ascii) (gantt : list TimeSlice)
    (jobs processes : list Process) :
  map PID gantt = map ProcessID jobs ->
  jobs ≡ₚ processes ->
  Forall (fun p => int64 (ProcessID p)) processes ->
  outputGantt w gantt = Panic <-> Exists long_id processes.
Proof.
  intros Hpids Hperm Hids. rewrite Forall_forall in Hids.
  assert (Hto : forall ts, ts ∈ gantt ->
            exists p, p ∈ processes /\ ProcessID p = PID ts).
  { intros ts Hts.
    assert (Hin : PID ts ∈ map ProcessID jobs).
    { rewrite <- Hpids. apply (list_elem_of_fmap_2 PID). exact Hts. }
    apply list_elem_of_fmap in Hin as (p & Hp & Hin).
    exists p. split; [rewrite <- Hperm; exact Hin | auto]. }
  assert (Hfrom : forall p, p ∈ processes ->
            exists ts, ts ∈ gantt /\ ProcessID p = PID ts).
  { intros p Hp. rewrite <- Hperm in Hp.
    assert (Hin : ProcessID p ∈ map PID gantt).
    { rewrite Hpids. apply (list_elem_of_fmap_2 ProcessID). exact Hp. }
    apply list_elem_of_fmap in Hin as (ts & Hts & Hin). eauto. }
  destruct (outputGantt_cases w gantt) as [[Hex ->]|[Hall ->]].
  - split; [intros _ | reflexivity].
    apply Exists_exists in Hex as (ts & Hts & Hl).
    destruct (Hto ts Hts) as (p & Hp & Hid).
    apply Exists_exists. exists p. split; [exact Hp |].
    unfold long_id. rewrite Hid.
    apply Sprint_length; [rewrite <- Hid; apply Hids, Hp | exact Hl].
  - split; [discriminate |]. intros Hex. exfalso.
    apply Exists_exists in Hex as (p & Hp & Hl).
    destruct (Hfrom p Hp) as (ts & Hts & Hid).
    rewrite Forall_forall in Hall. specialize (Hall ts Hts).
    unfold long_id in Hl.
    apply (Sprint_length _ (Hids p Hp)) in Hl. rewrite Hid in Hl. lia.
Qed.

(** X16. The chart of FCFS, of SJF and of priority scheduling: each
    scheduler returns a timeline, and [outputGantt] panics on it exactly
    when some process of the input has an id of at least 10^9 or at most
    -10^8. *)
Theorem schedulers_chart_panics (w : list ascii)
    (processes : list Process) :
  Forall (fun p => int64 (ProcessID p)) processes ->
  (exists out,
     FCFSSchedule processes = Ret out
     /\ (outputGantt w (out_gantt out) = Panic
         <-> Exists long_id processes))
  /\ (exists out,
        SJFSchedule processes = Ret out
        /\ (outputGantt w (out_gantt out) = Panic
            <-> Exists long_id processes))
  /\ (exists out,
        SJFPrioritySchedule processes = Ret out
        /\ (outputGantt w (out_gantt out) = Panic
            <-> Exists long_id processes)).
Proof.
  intros Hids.
  assert (Hselect : forall better key,
    (forall rem p q, better rem p q = (key rem p <? key rem q)) ->
    exists out,
      select_run better processes = Ret out
      /\ (outputGantt w (out_gantt out) = Panic
          <-> Exists long_id processes)).
  { intros better key Hkey.
    destruct (select_run_output better key Hkey processes)
      as (jobs & out & Hperm & Hrun & _ & Hgantt & _).
    exists out. split; [exact Hrun |].
    apply (outputGantt_ids w _ jobs); [| exact Hperm | exact Hids].
    rewrite Hgantt, served_slices_pid.
    rewrite <- (served_row_process jobs) at 2.
    rewrite <- list_fmap_compose. reflexivity. }
  split; [| split].
  - eexists. split; [apply FCFSSchedule_state |].
    cbn [report out_gantt fcfs_state gantt].
    apply (outputGantt_ids w _ processes);
      [apply fcfs_served_slices_pid | reflexivity | exact Hids].
  - apply (Hselect sjf_better _ sjf_better_key).
  - apply (Hselect priority_better _ priority_better_key).
Qed.

Lemma schedulers_chart_panics_witness :
  (exists out,
     FCFSSchedule [P 1 5 0; P 1000000000 3 1] = Ret out
     /\ (outputGantt [] (out_gantt out) = Panic
         <-> Exists long_id [P 1 5 0; P 1000000000 3 1]))
  /\ (exists out,
        SJFSchedule [P 1 5 0; P 1000000000 3 1] = Ret out
        /\ (outputGantt [] (out_gantt out) = Panic
            <-> Exists long_id [P 1 5 0; P 1000000000 3 1]))
  /\ (exists out,
        SJFPrioritySchedule [P 1 5 0; P 1000000000 3 1] = Ret out
        /\ (outputGantt [] (out_gantt out) = Panic
            <-> Exists long_id [P 1 5 0; P 1000000000 3 1])).
Proof.
  apply (schedulers_chart_panics [] [P 1 5 0; P 1000000000 3 1]).
  repeat (apply Forall_cons; split;
          [cbn; unfold int64, two63; lia |]).
  apply Forall_nil_2.
Defined.
